(** * Kocaeli cargo distribution system: formal model and properties

    The browser-side helpers of [static/js/main.js] (OSRM routing with its
    straight-line fallback, the Haversine distance, tracking numbers, the
    loading overlay, the marker icons, the tracking request) are embedded
    from the JavaScript source.  The optimisation engine of
    [algorithms/] (distance oracle, capacity selector, genetic optimiser) is
    modelled from the design document.

    Conventions of the embedding:
    - a JavaScript Number is read as a real number (exact arithmetic), with a
      separate [JNaN] value where the source can produce NaN by coercion;
      [haversineDistance] is also given over IEEE 754 doubles, where
      rounding decides what it returns;
    - effects (console, network, Leaflet layers, clock, the process-wide
      random generator) are fields of an explicit [World] threaded through a
      state-and-exception monad;
    - the page is a [Document], the forests of nodes below [<head>] and
      [<body>]; a character of a [string] stands for one code unit. *)

From Stdlib Require Import Reals Lra Lia ZArith List String Ascii Bool.
From Stdlib Require Import Permutation Sorted.
From Stdlib Require Floats.
Import ListNotations.

Set Implicit Arguments.
Set Warnings "-register-all".
Set Warnings "-notation-overridden".
Set Warnings "-ambiguous-paths".

(* ================================================================== *)
(** * Part I - Definitions *)
(* ================================================================== *)

(** ** JavaScript values, as far as [main.js] handles them *)

Inductive JSVal : Type :=
| JUndefined
| JNull
| JBool (b : bool)
| JNum (r : R)
| JNaN
| JStr (s : string)
| JArr (items : list JSVal)
| JObj (fields : list (string * JSVal)).

Inductive JSError : Type :=
| TypeError
| NetworkError
| SyntaxError.

Inductive Outcome (A : Type) : Type :=
| Ret (a : A)
| Thrown (e : JSError).
Arguments Ret {A} a.
Arguments Thrown {A} e.

(** Parts of the JavaScript runtime whose exact output the source does not
    depend on: printing a Number in a template literal, and [ToNumber] on
    strings and (through [ToPrimitive]) on arrays and objects. *)
Record JSRuntime : Type := mkRuntime {
  NumberToString : R -> string;
  ToNumber_coerce : JSVal -> option R
}.

(** *** Strings *)

Local Open Scope string_scope.

Definition digit_char (d : Z) : ascii :=
  ascii_of_nat (48 + Z.to_nat d).

Fixpoint digits_fuel (fuel : nat) (n : Z) (acc : string) : string :=
  match fuel with
  | O => acc
  | S f =>
      let acc' := String (digit_char (n mod 10)) acc in
      if (n <? 10)%Z then acc' else digits_fuel f (n / 10) acc'
  end.

(** Decimal digits of a non-negative integer, most significant first. *)
Definition decimal_digits (n : Z) : string :=
  digits_fuel (S (Z.to_nat (Z.log2 n))) n EmptyString.

(** [Number.prototype.toString()] on an integer value. *)
Definition Z_toString (z : Z) : string :=
  if (z <? 0)%Z then String "-" (decimal_digits (- z)) else decimal_digits z.

(** [s.slice(-n)]: the last [n] characters, the whole string when shorter. *)
Definition js_slice_last (n : nat) (s : string) : string :=
  substring (String.length s - n) n s.

(** [s.substring(i, j)] for [i <= j]: characters at positions [i .. j-1]. *)
Definition js_substring (i j : nat) (s : string) : string :=
  substring i (j - i) s.

Definition upper_ascii (c : ascii) : ascii :=
  let n := nat_of_ascii c in
  if andb (97 <=? n)%nat (n <=? 122)%nat then ascii_of_nat (n - 32) else c.

Fixpoint toUpperCase (s : string) : string :=
  match s with
  | EmptyString => EmptyString
  | String c s' => String (upper_ascii c) (toUpperCase s')
  end.

(** [parts.join(sep)] *)
Fixpoint js_join (sep : string) (parts : list string) : string :=
  match parts with
  | [] => EmptyString
  | [p] => p
  | p :: rest => p ++ sep ++ js_join sep rest
  end.

Fixpoint string_forallb (p : ascii -> bool) (s : string) : bool :=
  match s with
  | EmptyString => true
  | String c s' => andb (p c) (string_forallb p s')
  end.

Definition is_decimal_digit (c : ascii) : bool :=
  let n := nat_of_ascii c in andb (48 <=? n)%nat (n <=? 57)%nat.

Definition is_upper_base36 (c : ascii) : bool :=
  let n := nat_of_ascii c in
  orb (andb (48 <=? n)%nat (n <=? 57)%nat) (andb (65 <=? n)%nat (n <=? 90)%nat).

(** *** Property access, truthiness, coercions *)

Fixpoint assoc_lookup (k : string) (fields : list (string * JSVal)) : JSVal :=
  match fields with
  | [] => JUndefined
  | (k', v) :: rest => if String.eqb k k' then v else assoc_lookup k rest
  end.

(** [v.name] for the property names the source uses ([code], [routes],
    [length], [geometry], [coordinates], [distance], [duration]; none is an
    array index).  Reading a property of [undefined] or [null] throws. *)
Definition get_prop (v : JSVal) (name : string) : Outcome JSVal :=
  match v with
  | JUndefined | JNull => Thrown TypeError
  | JObj fields => Ret (assoc_lookup name fields)
  | JArr items =>
      if String.eqb name "length" then Ret (JNum (INR (List.length items)))
      else Ret JUndefined
  | JStr s =>
      if String.eqb name "length" then Ret (JNum (INR (String.length s)))
      else Ret JUndefined
  | JBool _ | JNum _ | JNaN => Ret JUndefined
  end.

(** [v[i]] for a literal index [i]. *)
Definition get_index (v : JSVal) (i : nat) : Outcome JSVal :=
  match v with
  | JUndefined | JNull => Thrown TypeError
  | JArr items => Ret (nth i items JUndefined)
  | JStr s =>
      match String.get i s with
      | Some c => Ret (JStr (String c EmptyString))
      | None => Ret JUndefined
      end
  | JObj fields => Ret (assoc_lookup (Z_toString (Z.of_nat i)) fields)
  | JBool _ | JNum _ | JNaN => Ret JUndefined
  end.

Definition truthy (v : JSVal) : bool :=
  match v with
  | JUndefined | JNull | JNaN => false
  | JBool b => b
  | JNum r => if Req_dec_T r 0 then false else true
  | JStr s => negb (String.eqb s EmptyString)
  | JArr _ | JObj _ => true
  end.

(** [v === 'text'] *)
Definition strict_eq_str (v : JSVal) (text : string) : bool :=
  match v with
  | JStr s => String.eqb s text
  | _ => false
  end.

(** [ToNumber]; [None] is NaN. *)
Definition ToNumber (rt : JSRuntime) (v : JSVal) : option R :=
  match v with
  | JUndefined | JNaN => None
  | JNull => Some 0%R
  | JBool b => Some (if b then 1%R else 0%R)
  | JNum r => Some r
  | JStr _ | JArr _ | JObj _ => ToNumber_coerce rt v
  end.

(** [v > k] for a numeric literal [k] *)
Definition js_gt (rt : JSRuntime) (v : JSVal) (k : R) : bool :=
  match ToNumber rt v with
  | Some r => if Rlt_dec k r then true else false
  | None => false
  end.

(** [v / k] for a numeric literal [k <> 0] *)
Definition js_div (rt : JSRuntime) (v : JSVal) (k : R) : JSVal :=
  match ToNumber rt v with
  | Some r => JNum (r / k)
  | None => JNaN
  end.

(** ** The world the page runs in *)

Inductive LogLevel : Type := LogError | LogWarn.

Record LogEntry : Type := mkLog {
  log_level : LogLevel;
  log_text : string;
  log_error : option JSError
}.

(** What the OSRM server does with a request: [fetch] rejects, the body is
    not JSON ([response.json()] rejects), or the body parses to a value. *)
Inductive FetchOutcome : Type :=
| FetchRejects
| BodyNotJson
| BodyJson (data : JSVal).

Record Polyline : Type := mkPolyline {
  latlngs : list JSVal;
  pl_color : string;
  pl_weight : R;
  pl_opacity : R;
  pl_smoothFactor : option R;
  pl_dashArray : option string
}.

(** A double in [0,1) as [Math.random] returns it, represented by the base-36
    digits that [toString(36)] prints after "0." (none for the value 0). *)
Record Digit36 : Type := mkDigit36 {
  dval : nat;
  dval_lt : (dval <? 36)%nat = true
}.

Definition Fraction36 : Type := list Digit36.

Record World : Type := mkWorld {
  console : list LogEntry;
  network : string -> FetchOutcome;
  leaflet_layers : list (nat * Polyline);
  clock : Z;
  rand_seq : nat -> Fraction36;
  rand_pos : nat
}.

(** State-and-exception monad of the embedding. *)
Definition JS (A : Type) : Type := World -> Outcome A * World.

Definition ret {A} (a : A) : JS A := fun w => (Ret a, w).

Definition throw {A} (e : JSError) : JS A := fun w => (Thrown e, w).

Definition bind {A B} (m : JS A) (k : A -> JS B) : JS B :=
  fun w =>
    match m w with
    | (Ret a, w') => k a w'
    | (Thrown e, w') => (Thrown e, w')
    end.

(** [try { body } catch (error) { handler(error) }] *)
Definition try_catch {A} (body : JS A) (handler : JSError -> JS A) : JS A :=
  fun w =>
    match body w with
    | (Ret a, w') => (Ret a, w')
    | (Thrown e, w') => handler e w'
    end.

Definition lift {A} (o : Outcome A) : JS A := fun w => (o, w).

Declare Scope js_scope.
Delimit Scope js_scope with js.
Notation "x <- m ;; k" := (bind m (fun x => k))
  (at level 61, m at next level, right associativity) : js_scope.
Notation "m ;;; k" := (bind m (fun _ => k))
  (at level 61, right associativity) : js_scope.

Local Open Scope js_scope.

Definition console_log (lvl : LogLevel) (text : string) (err : option JSError)
  : JS unit :=
  fun w =>
    (Ret tt,
     mkWorld (console w ++ [mkLog lvl text err]) (network w)
             (leaflet_layers w) (clock w) (rand_seq w) (rand_pos w)).

(** [await fetch(url)] followed by [await response.json()] *)
Definition fetch_json (url : string) : JS JSVal :=
  fun w =>
    match network w url with
    | FetchRejects => (Thrown NetworkError, w)
    | BodyNotJson => (Thrown SyntaxError, w)
    | BodyJson data => (Ret data, w)
    end.

(** [L.polyline(latlngs, style).addTo(map)]; Leaflet is taken as total. *)
Definition polyline_addTo (map : nat) (pl : Polyline) : JS Polyline :=
  fun w =>
    (Ret pl,
     mkWorld (console w) (network w) (leaflet_layers w ++ [(map, pl)])
             (clock w) (rand_seq w) (rand_pos w)).

Definition Date_now : JS Z := fun w => (Ret (clock w), w).

Definition Math_random : JS Fraction36 :=
  fun w =>
    (Ret (rand_seq w (rand_pos w)),
     mkWorld (console w) (network w) (leaflet_layers w) (clock w)
             (rand_seq w) (S (rand_pos w))).

(** [arr.map(f)] where [f] may throw *)
Fixpoint map_outcome {A B} (f : A -> Outcome B) (l : list A)
  : Outcome (list B) :=
  match l with
  | [] => Ret []
  | x :: rest =>
      match f x with
      | Thrown e => Thrown e
      | Ret y =>
          match map_outcome f rest with
          | Thrown e => Thrown e
          | Ret ys => Ret (y :: ys)
          end
      end
  end.

(** [v.map(f)]: only arrays have [map]; anything else is a TypeError. *)
Definition js_array_map (v : JSVal) (f : JSVal -> Outcome JSVal)
  : Outcome (list JSVal) :=
  match v with
  | JArr items => map_outcome f items
  | _ => Thrown TypeError
  end.

Definition bindO {A B} (o : Outcome A) (k : A -> Outcome B) : Outcome B :=
  match o with
  | Ret a => k a
  | Thrown e => Thrown e
  end.

(** ** [getOSRMRoute] *)

(** A waypoint [[lat, lng]]. *)
Definition Coord : Type := (R * R)%type.

Definition js_of_coord (c : Coord) : JSVal := JArr [JNum (fst c); JNum (snd c)].

Record OSRMRoute : Type := mkOSRMRoute {
  coordinates : list JSVal;
  distance : JSVal;
  duration : JSVal
}.

(** [coordinates.map(c => `${c[1]},${c[0]}`).join(';')] *)
Definition coordString (rt : JSRuntime) (coords : list Coord) : string :=
  js_join ";"
    (map (fun c => NumberToString rt (snd c) ++ "," ++ NumberToString rt (fst c))
         coords).

Definition osrm_url (rt : JSRuntime) (coords : list Coord) : string :=
  "https://router.project-osrm.org/route/v1/driving/" ++ coordString rt coords
  ++ "?overview=full&geometries=geojson".

(** [c => [c[1], c[0]]] *)
Definition swap_lnglat (c : JSVal) : Outcome JSVal :=
  bindO (get_index c 1) (fun c1 =>
  bindO (get_index c 0) (fun c0 =>
  Ret (JArr [c1; c0]))).

(** The condition [data.code === 'Ok' && data.routes && data.routes.length > 0] *)
Definition osrm_response_ok (rt : JSRuntime) (data : JSVal) : Outcome bool :=
  bindO (get_prop data "code") (fun code =>
  if strict_eq_str code "Ok" then
    bindO (get_prop data "routes") (fun routes =>
    if truthy routes then
      bindO (get_prop data "routes") (fun routes' =>
      bindO (get_prop routes' "length") (fun len =>
      Ret (js_gt rt len 0)))
    else Ret false)
  else Ret false).

(** The object literal returned on success. *)
Definition osrm_result (rt : JSRuntime) (data : JSVal) : Outcome OSRMRoute :=
  bindO (get_prop data "routes") (fun routes =>
  bindO (get_index routes 0) (fun r0 =>
  bindO (get_prop r0 "geometry") (fun geom =>
  bindO (get_prop geom "coordinates") (fun cs =>
  bindO (js_array_map cs swap_lnglat) (fun routeCoords =>
  bindO (get_prop data "routes") (fun routes1 =>
  bindO (get_index routes1 0) (fun r1 =>
  bindO (get_prop r1 "distance") (fun dist =>
  bindO (get_prop data "routes") (fun routes2 =>
  bindO (get_index routes2 0) (fun r2 =>
  bindO (get_prop r2 "duration") (fun dur =>
  Ret (mkOSRMRoute routeCoords (js_div rt dist 1000) dur)))))))))))).

(** [coordinates] has the shape the source documents, [[lat, lng], ...],
    a list of pairs of numbers, or is missing ([None] for [null] and
    [undefined]); the answer of the server is an arbitrary JSON value.
    The result is [None] for [null]; the inner [option] of the [try]
    block tells a [return] inside it from falling through to the final
    [return null]. *)
Definition getOSRMRoute (rt : JSRuntime) (coordinates : option (list Coord))
  : JS (option OSRMRoute) :=
  match coordinates with
  | None => ret None
  | Some coords =>
      if (List.length coords <? 2)%nat then ret None
      else
        let url := osrm_url rt coords in
        r <- try_catch
               (data <- fetch_json url ;;
                ok <- lift (osrm_response_ok rt data) ;;
                if ok : bool then
                  res <- lift (osrm_result rt data) ;;
                  ret (Some (Some res))
                else ret None)
               (fun error =>
                  console_log LogError "OSRM routing error:" (Some error) ;;;
                  ret None) ;;
        match r with
        | Some result => ret result
        | None => ret None
        end
  end.

(** ** [drawOSRMRoute] *)

Record DrawResult : Type := mkDrawResult {
  polyline : Polyline;
  draw_distance : JSVal;
  draw_duration : JSVal
}.

Definition default_color : string := "#3498db".
Definition default_weight : R := 5.

Definition or_default {A} (o : option A) (d : A) : A :=
  match o with Some a => a | None => d end.

(** [map] names the Leaflet map the polyline is added to; [color] and
    [weight] are [None] when the caller leaves them to their defaults. *)
Definition drawOSRMRoute (rt : JSRuntime) (map : nat) (waypoints : list Coord)
  (color : option string) (weight : option R) : JS DrawResult :=
  let color := or_default color default_color in
  let weight := or_default weight default_weight in
  route <- getOSRMRoute rt (Some waypoints) ;;
  match route with
  | Some r =>
      if (0 <? List.length (coordinates r))%nat then
        pl <- polyline_addTo map
                (mkPolyline (coordinates r) color weight (8 / 10) (Some 1%R) None) ;;
        ret (mkDrawResult pl (distance r) (duration r))
      else
        console_log LogWarn "OSRM failed, falling back to straight line" None ;;;
        pl <- polyline_addTo map
                (mkPolyline (List.map js_of_coord waypoints) color weight (6 / 10)
                            None (Some "10, 10")) ;;
        ret (mkDrawResult pl JNull JNull)
  | None =>
      console_log LogWarn "OSRM failed, falling back to straight line" None ;;;
      pl <- polyline_addTo map
              (mkPolyline (List.map js_of_coord waypoints) color weight (6 / 10)
                          None (Some "10, 10")) ;;
      ret (mkDrawResult pl JNull JNull)
  end.

(** ** [haversineDistance] *)

Local Open Scope R_scope.

(** [Math.atan2(y, x)] on real arguments. *)
Definition Math_atan2 (y x : R) : R :=
  if Rlt_dec 0 x then atan (y / x)
  else if Rlt_dec x 0 then
    (if Rle_dec 0 y then atan (y / x) + PI else atan (y / x) - PI)
  else if Rlt_dec 0 y then PI / 2
  else if Rlt_dec y 0 then - (PI / 2)
  else 0.

(** The term [a] of the source. *)
Definition haversine_a (lat1 lon1 lat2 lon2 : R) : R :=
  let dLat := (lat2 - lat1) * PI / 180 in
  let dLon := (lon2 - lon1) * PI / 180 in
  sin (dLat / 2) * sin (dLat / 2) +
  cos (lat1 * PI / 180) * cos (lat2 * PI / 180) *
  sin (dLon / 2) * sin (dLon / 2).

Definition haversineDistance (lat1 lon1 lat2 lon2 : R) : R :=
  let R := 6371 in
  let a := haversine_a lat1 lon1 lat2 lon2 in
  let c := 2 * Math_atan2 (sqrt a) (sqrt (1 - a)) in
  R * c.

(** The standard Haversine formula, written from its textbook statement:
    [d = 2 r asin (sqrt (hav (phi2 - phi1) + cos phi1 cos phi2 hav (lam2 - lam1)))]
    with [hav t = sin^2 (t / 2)] and angles in radians. *)
Definition radians (deg : R) : R := deg * (PI / 180).

Definition hav (t : R) : R := (sin (t / 2))².

Definition earth_radius_km : R := 6371.

Definition great_circle_km (lat1 lon1 lat2 lon2 : R) : R :=
  let phi1 := radians lat1 in
  let phi2 := radians lat2 in
  let lam1 := radians lon1 in
  let lam2 := radians lon2 in
  2 * earth_radius_km *
  asin (sqrt (hav (phi2 - phi1) + cos phi1 * cos phi2 * hav (lam2 - lam1))).

Local Close Scope R_scope.

(** ** [generateTrackingNumber] *)

Definition digit36_char (d : Digit36) : ascii :=
  if (dval d <? 10)%nat then ascii_of_nat (48 + dval d)
  else ascii_of_nat (87 + dval d).

Fixpoint string_of_digits36 (f : Fraction36) : string :=
  match f with
  | [] => EmptyString
  | d :: rest => String (digit36_char d) (string_of_digits36 rest)
  end.

(** [x.toString(36)] for [x] in [0,1) *)
Definition toString36 (f : Fraction36) : string :=
  match f with
  | [] => "0"
  | _ => "0." ++ string_of_digits36 f
  end.

Definition generateTrackingNumber : JS string :=
  let prefix := "KOC" in
  now <- Date_now ;;
  let timestamp := js_slice_last 6 (Z_toString now) in
  r <- Math_random ;;
  let random := toUpperCase (js_substring 2 6 (toString36 r)) in
  ret (prefix ++ timestamp ++ random).

(** The last six decimal digits of a timestamp, most significant first:
    the digits of the hundred-thousands, ten-thousands, thousands,
    hundreds, tens and units. *)
Definition last_six_digits (now : Z) : string :=
  String (digit_char ((now / 100000) mod 10))
  (String (digit_char ((now / 10000) mod 10))
  (String (digit_char ((now / 1000) mod 10))
  (String (digit_char ((now / 100) mod 10))
  (String (digit_char ((now / 10) mod 10))
  (String (digit_char (now mod 10)) EmptyString))))).

(** What the claim about tracking numbers asks of the string returned at
    timestamp [now]: "KOC", then the last six decimal digits of [now], then
    at most four upper-case base-36 characters. *)
Definition tracking_shape (now : Z) (s : string) : Prop :=
  exists frag : string,
    s = "KOC" ++ last_six_digits now ++ frag /\
    (String.length frag <= 4)%nat /\ string_forallb is_upper_base36 frag = true.

(** Shapes of an OSRM answer, as the claim about [getOSRMRoute] names them. *)
Definition response_code_ok (data : JSVal) : Prop :=
  get_prop data "code" = Ret (JStr "Ok").

Definition response_has_no_routes (data : JSVal) : Prop :=
  get_prop data "routes" = Ret JUndefined \/
  get_prop data "routes" = Ret JNull \/
  get_prop data "routes" = Ret (JArr []).

(** A GeoJSON position [[lng, lat, ...]] and its Leaflet form [[lat, lng]]. *)
Definition to_leaflet (pos : list JSVal) : JSVal :=
  JArr [nth 1 pos JUndefined; nth 0 pos JUndefined].

(** A well-formed successful answer: code 'Ok', a first route with a GeoJSON
    line of positions, a distance in metres and a duration. *)
Definition response_success (data : JSVal) (positions : list (list JSVal))
  (metres : R) (dur : JSVal) : Prop :=
  exists r0 rest geom,
    response_code_ok data /\
    get_prop data "routes" = Ret (JArr (r0 :: rest)) /\
    get_prop r0 "geometry" = Ret geom /\
    get_prop geom "coordinates" = Ret (JArr (map JArr positions)) /\
    get_prop r0 "distance" = Ret (JNum metres) /\
    get_prop r0 "duration" = Ret dur.

(** The outcome of a call is decided by what the network answers. *)
Definition osrm_answer (rt : JSRuntime) (ans : FetchOutcome) : option OSRMRoute :=
  match ans with
  | BodyJson data =>
      match osrm_response_ok rt data with
      | Ret true =>
          match osrm_result rt data with
          | Ret r => Some r
          | Thrown _ => None
          end
      | _ => None
      end
  | _ => None
  end.

Local Open Scope R_scope.

(** The estimate the design document asks for when routing fails: the
    Haversine length of the waypoint chain times the road factor. *)
Definition road_factor : R := 135 / 100.

Fixpoint haversine_path_km (waypoints : list Coord) : R :=
  match waypoints with
  | a :: ((b :: _) as rest) =>
      haversineDistance (fst a) (snd a) (fst b) (snd b) + haversine_path_km rest
  | _ => 0
  end.

Definition road_estimate_km (waypoints : list Coord) : R :=
  road_factor * haversine_path_km waypoints.

Local Close Scope R_scope.

(** The straight dashed line of the fallback branch. *)
Definition fallback_polyline (waypoints : list Coord) (color : option string)
  (weight : option R) : Polyline :=
  mkPolyline (map js_of_coord waypoints) (or_default color default_color)
             (or_default weight default_weight) (6 / 10) None (Some "10, 10").

Definition fallback_warning : LogEntry :=
  mkLog LogWarn "OSRM failed, falling back to straight line" None.

(** Routing failed for the caller: [getOSRMRoute] gave [null], or a route
    with an empty geometry. *)
Definition osrm_failed (o : Outcome (option OSRMRoute)) : Prop :=
  o = Ret None \/ exists r, o = Ret (Some r) /\ coordinates r = [].

(** A runtime and a world without network, for closed examples. *)
Definition plain_runtime : JSRuntime :=
  mkRuntime (fun _ => "0") (fun _ => None).

Definition offline_world : World :=
  mkWorld [] (fun _ => FetchRejects) [] 1700000000000 (fun _ => []) 0.

Definition izmit_gebze : list Coord :=
  [((407656 / 10000)%R, (299406 / 10000)%R);
   ((408027 / 10000)%R, (294307 / 10000)%R)].

(** A world whose clock stands five milliseconds after the epoch. *)
Definition epoch_world : World :=
  mkWorld [] (fun _ => FetchRejects) [] 5 (fun _ => []) 0.

Definition sample_fraction : Fraction36 :=
  [mkDigit36 10 eq_refl; mkDigit36 35 eq_refl; mkDigit36 0 eq_refl;
   mkDigit36 7 eq_refl; mkDigit36 29 eq_refl; mkDigit36 3 eq_refl].

Definition sample_world : World :=
  mkWorld [] (fun _ => FetchRejects) [] 1762146000123 (fun _ => sample_fraction) 0.

(** An answer of the OSRM server for Izmit - Gebze and a world in which the
    network returns it. *)
Definition sample_answer : JSVal :=
  JObj [("code", JStr "Ok");
        ("routes",
         JArr [JObj [("geometry",
                      JObj [("type", JStr "LineString");
                            ("coordinates",
                             JArr [JArr [JNum (299406 / 10000); JNum (407656 / 10000)];
                                   JArr [JNum (294307 / 10000); JNum (408027 / 10000)]])]);
                     ("distance", JNum 48500);
                     ("duration", JNum 2400)]])].

Definition online_world : World :=
  mkWorld [] (fun _ => BodyJson sample_answer) [] 1762146000123 (fun _ => []) 0.


(** ** [getOSRMRoute] on whatever argument a caller passes

    JavaScript does not check that [coordinates] is a list of pairs.  The
    definitions of this module follow the source on an arbitrary value:
    the guard [!coordinates || coordinates.length < 2], then
    [coordinates.map(...)], which runs before the [try] block, then the
    request as above. *)
Module Dynamic.

(** [v < k] for a numeric literal [k]; false when [v] converts to NaN. *)
Definition js_lt (rt : JSRuntime) (v : JSVal) (k : R) : bool :=
  match ToNumber rt v with
  | Some r => if Rlt_dec r k then true else false
  | None => false
  end.

(** [ToString], as a template literal applies it ([Array.prototype.join]
    prints [null] and [undefined] entries as empty). *)
Fixpoint ToString (rt : JSRuntime) (v : JSVal) : string :=
  match v with
  | JUndefined => "undefined"
  | JNull => "null"
  | JBool true => "true"
  | JBool false => "false"
  | JNum r => NumberToString rt r
  | JNaN => "NaN"
  | JStr s => s
  | JArr items =>
      js_join ","
        (map (fun x => match x with
                       | JUndefined | JNull => EmptyString
                       | _ => ToString rt x
                       end) items)
  | JObj _ => "[object Object]"
  end.

(** [c => `${c[1]},${c[0]}`] *)
Definition coord_text (rt : JSRuntime) (c : JSVal) : Outcome string :=
  bindO (get_index c 1) (fun c1 =>
  bindO (get_index c 0) (fun c0 =>
  Ret (ToString rt c1 ++ "," ++ ToString rt c0))).

(** [coordinates.map(c => `${c[1]},${c[0]}`).join(';')]: of the values of
    the embedding only arrays have [map]. *)
Definition coordString (rt : JSRuntime) (coordinates : JSVal) : Outcome string :=
  match coordinates with
  | JArr items =>
      bindO (map_outcome (coord_text rt) items) (fun parts =>
      Ret (js_join ";" parts))
  | _ => Thrown TypeError
  end.

Definition osrm_url (cs : string) : string :=
  "https://router.project-osrm.org/route/v1/driving/" ++ cs
  ++ "?overview=full&geometries=geojson".

Definition getOSRMRoute (rt : JSRuntime) (coordinates : JSVal)
  : JS (option OSRMRoute) :=
  if negb (truthy coordinates) then ret None
  else
    len <- lift (get_prop coordinates "length") ;;
    if js_lt rt len 2 then ret None
    else
      cs <- lift (coordString rt coordinates) ;;
      let url := osrm_url cs in
      r <- try_catch
             (data <- fetch_json url ;;
              ok <- lift (osrm_response_ok rt data) ;;
              if ok : bool then
                res <- lift (osrm_result rt data) ;;
                ret (Some (Some res))
              else ret None)
             (fun error =>
                console_log LogError "OSRM routing error:" (Some error) ;;;
                ret None) ;;
      match r with
      | Some result => ret result
      | None => ret None
      end.

End Dynamic.

(** Entries that [coordinates.map] can index: anything but [null] and
    [undefined]. *)
Definition indexable (c : JSVal) : bool :=
  match c with
  | JUndefined | JNull => false
  | _ => true
  end.

(** The text of an entry in the request. *)
Definition entry_text (rt : JSRuntime) (c : JSVal) : string :=
  match Dynamic.coord_text rt c with
  | Ret s => s
  | Thrown _ => EmptyString
  end.

Definition request_url (rt : JSRuntime) (items : list JSVal) : string :=
  Dynamic.osrm_url (js_join ";" (map (entry_text rt) items)).

(** A list of pairs with a missing second point. *)
Definition pair_and_null : JSVal :=
  JArr [JArr [JNum (407 / 10); JNum (299 / 10)]; JNull].

(** ** [haversineDistance], with the arithmetic left open

    The body of the function is written once over the operations it
    uses.  Over exact real arithmetic it is [haversineDistance] above; over
    the doubles of the engine the four arithmetic operations are those of
    IEEE 754 and [Math.sin], [Math.cos], [Math.sqrt] and [Math.atan2] are
    the engine's library. *)
Record Arithmetic : Type := mkArithmetic {
  number : Type;
  literal : Z -> number;
  num_PI : number;
  num_add : number -> number -> number;
  num_sub : number -> number -> number;
  num_mul : number -> number -> number;
  num_div : number -> number -> number;
  num_sin : number -> number;
  num_cos : number -> number;
  num_sqrt : number -> number;
  num_atan2 : number -> number -> number
}.

(** The term [a] of the source. *)
Definition haversine_a_in (A : Arithmetic) (lat1 lon1 lat2 lon2 : number A)
  : number A :=
  let dLat := num_div A (num_mul A (num_sub A lat2 lat1) (num_PI A))
                        (literal A 180) in
  let dLon := num_div A (num_mul A (num_sub A lon2 lon1) (num_PI A))
                        (literal A 180) in
  num_add A
    (num_mul A (num_sin A (num_div A dLat (literal A 2)))
               (num_sin A (num_div A dLat (literal A 2))))
    (num_mul A
       (num_mul A
          (num_mul A
             (num_cos A (num_div A (num_mul A lat1 (num_PI A)) (literal A 180)))
             (num_cos A (num_div A (num_mul A lat2 (num_PI A)) (literal A 180))))
          (num_sin A (num_div A dLon (literal A 2))))
       (num_sin A (num_div A dLon (literal A 2)))).

Definition haversineDistance_in (A : Arithmetic) (lat1 lon1 lat2 lon2 : number A)
  : number A :=
  let R := literal A 6371 in
  let a := haversine_a_in A lat1 lon1 lat2 lon2 in
  let c := num_mul A (literal A 2)
             (num_atan2 A (num_sqrt A a)
                          (num_sqrt A (num_sub A (literal A 1) a))) in
  num_mul A R c.

(** The call as the page performs it: the body touches no effect. *)
Definition haversineDistance_call (A : Arithmetic)
  (lat1 lon1 lat2 lon2 : number A) : JS (number A) :=
  ret (haversineDistance_in A lat1 lon1 lat2 lon2).

Definition exact_arithmetic : Arithmetic :=
  mkArithmetic IZR PI Rplus Rminus Rmult Rdiv sin cos sqrt Math_atan2.

Module Double.

Import PrimFloat.
Local Open Scope float_scope.

(** The library functions of the engine.  ECMAScript leaves their values
    to the implementation, apart from special cases. *)
Record MathLibrary : Type := mkLibrary {
  lib_sin : float -> float;
  lib_cos : float -> float;
  lib_sqrt : float -> float;
  lib_atan2 : float -> float -> float
}.

(** [Math.PI] *)
Definition Math_PI : float := 0x1.921fb54442d18p+1.

Definition arithmetic (m : MathLibrary) : Arithmetic :=
  mkArithmetic (fun z => of_uint63 (Uint63.of_Z z)) Math_PI add sub mul div
               (lib_sin m) (lib_cos m) (lib_sqrt m) (lib_atan2 m).

Definition haversine_a (m : MathLibrary) (lat1 lon1 lat2 lon2 : float) : float :=
  haversine_a_in (arithmetic m) lat1 lon1 lat2 lon2.

Definition haversineDistance (m : MathLibrary) (lat1 lon1 lat2 lon2 : float)
  : float :=
  haversineDistance_in (arithmetic m) lat1 lon1 lat2 lon2.

(** The special cases ECMAScript fixes and the example below relies on:
    [Math.sqrt] of a number below zero is NaN, and [Math.atan2] is NaN as
    soon as an argument is. *)
Record ecma_library (m : MathLibrary) : Prop := mkEcmaLibrary {
  sqrt_below_zero : forall x, (x <? 0) = true -> is_nan (lib_sqrt m x) = true;
  atan2_of_nan : forall y x,
    is_nan y = true \/ is_nan x = true -> is_nan (lib_atan2 m y x) = true
}.

(** A library as far as the example below calls it: at the arguments that
    occur there, the doubles nearest to the sine and the cosine;
    [Math.sqrt] is the IEEE square root. *)
Definition twelve_degrees : float := 0x1.acee9f37bebd5p-3.

Definition table_sin (x : float) : float :=
  if x =? twelve_degrees then 0x1.a9cd9ac4258f5p-3
  else if x =? 0x1.921fb54442d18p+0 then 1
  else if x =? 0 then 0
  else nan.

Definition table_cos (x : float) : float :=
  if abs x =? twelve_degrees then 0x1.f4cfc327a008p-1
  else if x =? 0 then 1
  else nan.

Definition table_atan2 (y x : float) : float :=
  if is_nan y || is_nan x then nan
  else if (y =? 0) && (0 <? x) then 0
  else nan.

Definition table_library : MathLibrary :=
  mkLibrary table_sin table_cos sqrt table_atan2.

End Double.
(* ------------------------------------------------------------------ *)
(** ** The optimisation engine: data model

    The engine itself ([algorithms/genetic_algorithm.py],
    [algorithms/distance_calculator.py], [algorithms/scenarios.py]) is
    reached by [main.js] only through [API.optimizeRoutes] and
    [API.runScenario]; its definitions below follow the design document. *)
(* ------------------------------------------------------------------ *)

(** Modelled from the spec: the Station record of the data model. *)
Record Station : Type := mkStation {
  station_id : nat;
  station_name : string;
  station_lat : R;
  station_lng : R;
  is_depot : bool
}.

Inductive CargoStatus : Type :=
| Pending
| Selected
| Deferred
| Assigned
| Delivered.

(** Modelled from the spec: the Cargo record; weight in whole kilograms,
    priority as the value the selector maximises. *)
Record Cargo : Type := mkCargo {
  cargo_id : nat;
  tracking_no : string;
  destination_station_id : nat;
  weight_kg : nat;
  priority : nat;
  status : CargoStatus
}.

(** Modelled from the spec: the Vehicle record. *)
Record Vehicle : Type := mkVehicle {
  vehicle_id : nat;
  capacity_kg : nat;
  cost_per_km : R;
  is_rental : bool;
  daily_fee : option R
}.

(** Modelled from the spec: the Route record of the output. *)
Record Route : Type := mkRoute {
  route_vehicle_id : nat;
  stops : list nat;
  assigned_cargo_ids : list nat;
  distance_km : R;
  cost : R
}.

Definition set_status (s : CargoStatus) (c : Cargo) : Cargo :=
  mkCargo (cargo_id c) (tracking_no c) (destination_station_id c)
          (weight_kg c) (priority c) s.

Definition is_pending (c : Cargo) : bool :=
  match status c with Pending => true | _ => false end.

Definition total_weight (cs : list Cargo) : nat :=
  fold_right (fun c acc => weight_kg c + acc)%nat 0%nat cs.

Definition total_priority (cs : list Cargo) : nat :=
  fold_right (fun c acc => priority c + acc)%nat 0%nat cs.

Definition fleet_capacity (fleet : list Vehicle) : nat :=
  fold_right (fun v acc => capacity_kg v + acc)%nat 0%nat fleet.

Definition base_fleet (fleet : list Vehicle) : list Vehicle :=
  filter (fun v => negb (is_rental v)) fleet.

Definition base_capacity (fleet : list Vehicle) : nat :=
  fleet_capacity (base_fleet fleet).

(** A choice of some of the items, each used at most once, order kept. *)
Inductive subseq {A : Type} : list A -> list A -> Prop :=
| subseq_nil : subseq [] []
| subseq_skip : forall x s l, subseq s l -> subseq s (x :: l)
| subseq_take : forall x s l, subseq s l -> subseq (x :: s) (x :: l).

(* ------------------------------------------------------------------ *)
(** ** Capacity Selector *)
(* ------------------------------------------------------------------ *)

(** [l[i] = x]; an index out of range is never written by the code below. *)
Fixpoint list_set {A : Type} (i : nat) (x : A) (l : list A) : list A :=
  match l, i with
  | [], _ => []
  | _ :: rest, O => x :: rest
  | y :: rest, S j => y :: list_set j x rest
  end.

(** Modelled from the spec: one item's sweep over the table, from the
    highest weight down to the item's own weight, updating in place;
    [keep[w]] records that the item was taken at bound [w].  The index
    visited with [k] steps left to go after it is [weight_kg c + k]. *)
Fixpoint relax_down (c : Cargo) (steps : nat) (table : list nat)
  (keep : list bool) : list nat * list bool :=
  match steps with
  | O => (table, keep)
  | S k =>
      let w := (weight_kg c + k)%nat in
      let cand := (nth (w - weight_kg c) table 0 + priority c)%nat in
      if (nth w table 0 <? cand)%nat
      then relax_down c k (list_set w cand table) (list_set w true keep)
      else relax_down c k table keep
  end.

Definition dp_item (c : Cargo) (capacity : nat) (table : list nat)
  : list nat * list bool :=
  relax_down c (capacity + 1 - weight_kg c) table (repeat false (capacity + 1)).

(** Modelled from the spec: the table is built by iterating the cargo
    items; each item's decision row is pushed for the back-tracking. *)
Fixpoint knapsack_fill (items : list Cargo) (capacity : nat) (table : list nat)
  (rows : list (Cargo * list bool)) : list nat * list (Cargo * list bool) :=
  match items with
  | [] => (table, rows)
  | c :: rest =>
      let (table', keep) := dp_item c capacity table in
      knapsack_fill rest capacity table' ((c, keep) :: rows)
  end.

(** Modelled from the spec: back-tracking of the chosen items, last item
    first; the result is (chosen, left out). *)
Fixpoint backtrack (rows : list (Cargo * list bool)) (w : nat)
  : list Cargo * list Cargo :=
  match rows with
  | [] => ([], [])
  | (c, keep) :: rest =>
      if nth w keep false
      then let (sel, def) := backtrack rest (w - weight_kg c) in (c :: sel, def)
      else let (sel, def) := backtrack rest w in (sel, c :: def)
  end.

Definition knapsack (items : list Cargo) (capacity : nat)
  : list Cargo * list Cargo :=
  let (_, rows) := knapsack_fill items capacity (repeat 0%nat (capacity + 1)) [] in
  backtrack rows capacity.

Inductive DeferReason : Type :=
| capacity_exceeded
| rental_required.

Record Selection : Type := mkSelection {
  selected : list Cargo;
  deferred : list (Cargo * list DeferReason);
  candidate_fleet : list Vehicle
}.

Definition has_rental (fleet : list Vehicle) : bool :=
  existsb is_rental fleet.

Definition defer_reasons (fleet : list Vehicle) : list DeferReason :=
  if has_rental fleet then [capacity_exceeded; rental_required]
  else [capacity_exceeded].

(** Modelled from the spec: [select(cargos, fleet)].  All pending cargo
    ships on the base fleet when it fits; otherwise the knapsack runs over
    the capacity of the base fleet plus the rental vehicle. *)
Definition select (cargos : list Cargo) (fleet : list Vehicle) : Selection :=
  let pending := filter is_pending cargos in
  if (total_weight pending <=? base_capacity fleet)%nat then
    mkSelection (map (set_status Selected) pending) [] (base_fleet fleet)
  else
    let (sel, def) := knapsack pending (fleet_capacity fleet) in
    mkSelection (map (set_status Selected) sel)
                (map (fun c => (set_status Deferred c, defer_reasons fleet)) def)
                fleet.

(** The value the table is specified to hold: the best total priority of a
    choice among [items] (most recently processed first) within weight [w]. *)
Fixpoint best_value (items : list Cargo) (w : nat) : nat :=
  match items with
  | [] => 0%nat
  | c :: rest =>
      if (weight_kg c <=? w)%nat
      then Nat.max (best_value rest w)
                   (best_value rest (w - weight_kg c) + priority c)
      else best_value rest w
  end.

(** The fleet of the project description and small loads for closed examples. *)
Definition readme_fleet : list Vehicle :=
  [mkVehicle 1 500 1 false None;
   mkVehicle 2 750 (12 / 10) false None;
   mkVehicle 3 1000 (15 / 10) false None;
   mkVehicle 4 500 1 true (Some 200%R)].

Definition parcel (id dest kg prio : nat) : Cargo :=
  mkCargo id EmptyString dest kg prio Pending.

(** Ten parcels of 300 kg (3000 kg, over the 2750 kg of fleet plus rental). *)
Definition overflow_load : list Cargo :=
  map (fun i => parcel i (1 + i mod 12) 300 (1 + i mod 3)) (seq 1 10).

(** What the table and the decision rows hold while the items are
    processed: the table the best value for every weight bound, a row the
    bounds at which taking its item beats leaving it. *)
Definition table_ok (capacity : nat) (items : list Cargo) (table : list nat)
  : Prop :=
  List.length table = (capacity + 1)%nat /\
  forall w, (w <= capacity)%nat -> nth w table 0%nat = best_value items w.

Definition row_ok (capacity : nat) (c : Cargo) (items : list Cargo)
  (keep : list bool) : Prop :=
  forall w, (w <= capacity)%nat ->
    nth w keep false
    = andb (weight_kg c <=? w)%nat
           (best_value items w <? best_value items (w - weight_kg c) + priority c)%nat.

Fixpoint rows_ok (capacity : nat) (rows : list (Cargo * list bool)) : Prop :=
  match rows with
  | [] => True
  | (c, keep) :: rest => row_ok capacity c (map fst rest) keep /\ rows_ok capacity rest
  end.

(* ------------------------------------------------------------------ *)
(** ** Distance Oracle *)
(* ------------------------------------------------------------------ *)

(** Modelled from the spec: the station graph of the oracle.  Nodes are
    positions in the station list.  An explicit road graph gives, for a
    pair of nodes, the length in km of the road that joins them, if there
    is one; lacking it the graph is complete and an edge weighs the
    great-circle distance of its ends times the road factor. *)
Record RoadGraph : Type := mkGraph {
  graph_stations : list Station;
  explicit_roads : option (nat -> nat -> option R)
}.

Definition complete_graph (stations : list Station) : RoadGraph :=
  mkGraph stations None.

Definition road_graph (stations : list Station)
  (roads : nat -> nat -> option R) : RoadGraph :=
  mkGraph stations (Some roads).

Definition nowhere : Station := mkStation 0 EmptyString 0 0 false.

Definition station_at (g : RoadGraph) (i : nat) : Station :=
  nth i (graph_stations g) nowhere.

Definition node_count (g : RoadGraph) : nat := List.length (graph_stations g).

Definition great_circle (a b : Station) : R :=
  haversineDistance (station_lat a) (station_lng a)
                    (station_lat b) (station_lng b).

Definition road (g : RoadGraph) (u v : nat) : option R :=
  match explicit_roads g with
  | Some roads => roads u v
  | None => Some (road_factor * great_circle (station_at g u) (station_at g v))%R
  end.

Definition adjacent (g : RoadGraph) (u v : nat) : bool :=
  match road g u v with
  | Some _ => true
  | None => false
  end.

Definition edge_cost (g : RoadGraph) (u v : nat) : R :=
  match road g u v with
  | Some km => km
  | None => 0%R
  end.

(** Modelled from the spec: the heuristic, Haversine distance to the
    destination scaled by the road factor. *)
Definition heuristic (g : RoadGraph) (goal u : nat) : R :=
  (road_factor * great_circle (station_at g u) (station_at g goal))%R.

Definition neighbours (g : RoadGraph) (u : nat) : list nat :=
  filter (adjacent g u) (seq 0 (node_count g)).

(** An open-set entry: a node, the cost [g] of the way found to it, and
    that way, last node first. *)
Record Entry : Type := mkEntry {
  entry_node : nat;
  entry_g : R;
  entry_path : list nat
}.

Definition entry_f (g : RoadGraph) (goal : nat) (e : Entry) : R :=
  (entry_g e + heuristic g goal (entry_node e))%R.

(** Modelled from the spec: the order of the open set, by [g + h], ties
    broken by lower [h]. *)
Definition prefer (g : RoadGraph) (goal : nat) (a b : Entry) : bool :=
  if Rlt_dec (entry_f g goal a) (entry_f g goal b) then true
  else if Rlt_dec (entry_f g goal b) (entry_f g goal a) then false
  else if Rlt_dec (heuristic g goal (entry_node b))
                  (heuristic g goal (entry_node a)) then false
  else true.

Fixpoint extract_min (g : RoadGraph) (goal : nat) (open : list Entry)
  : option (Entry * list Entry) :=
  match open with
  | [] => None
  | e :: rest =>
      match extract_min g goal rest with
      | None => Some (e, [])
      | Some (m, rest') =>
          if prefer g goal e m then Some (e, m :: rest')
          else Some (m, e :: rest')
      end
  end.

Inductive SearchResult : Type :=
| Found (path : list nat) (total : R)
| NoPathFound
| BudgetExceeded.

Definition in_closed (u : nat) (closed : list nat) : bool :=
  existsb (Nat.eqb u) closed.

Definition successors (g : RoadGraph) (e : Entry) (closed : list nat)
  : list Entry :=
  map (fun v => mkEntry v (entry_g e + edge_cost g (entry_node e) v)%R
                        (v :: entry_path e))
      (filter (fun v => negb (in_closed v closed)) (neighbours g (entry_node e))).

(** Modelled from the spec: the A* loop.  The best open entry is taken; the
    goal ends the search; a node already closed is not expanded again;
    otherwise the node is closed and its successors join the open set.  An
    empty open set is [NoPathFound]. *)
Fixpoint astar_loop (g : RoadGraph) (goal : nat) (budget : nat)
  (open : list Entry) (closed : list nat) : SearchResult :=
  match budget with
  | O => BudgetExceeded
  | S budget' =>
      match extract_min g goal open with
      | None => NoPathFound
      | Some (e, rest) =>
          if Nat.eqb (entry_node e) goal then
            Found (rev (entry_path e)) (entry_g e)
          else if in_closed (entry_node e) closed then
            astar_loop g goal budget' rest closed
          else
            let closed' := entry_node e :: closed in
            astar_loop g goal budget' (rest ++ successors g e closed') closed'
      end
  end.

(** Every node is expanded at most once and pushes at most one entry per
    node, so this many iterations always suffice. *)
Definition search_budget (g : RoadGraph) : nat :=
  (2 + node_count g * node_count g)%nat.

Definition astar (g : RoadGraph) (start goal : nat) : SearchResult :=
  astar_loop g goal (search_budget g) [mkEntry start 0 [start]] [].

(** Modelled from the spec: the oracle's answer; when the search finds no
    path the direct scaled Haversine estimate is used and flagged. *)
Record OracleAnswer : Type := mkOracleAnswer {
  oracle_km : R;
  oracle_estimated : bool
}.

Definition oracle_distance (g : RoadGraph) (a b : nat) : OracleAnswer :=
  match astar g a b with
  | Found _ total => mkOracleAnswer total false
  | _ => mkOracleAnswer (heuristic g b a) true
  end.

(** Paths of the graph, first node first. *)
Fixpoint path_ok (g : RoadGraph) (p : list nat) : Prop :=
  match p with
  | [] => False
  | [x] => (x < node_count g)%nat
  | u :: ((v :: _) as rest) =>
      (u < node_count g)%nat /\ adjacent g u v = true /\ path_ok g rest
  end.

Fixpoint path_cost (g : RoadGraph) (p : list nat) : R :=
  match p with
  | u :: ((v :: _) as rest) => (edge_cost g u v + path_cost g rest)%R
  | _ => 0%R
  end.

Definition path_from_to (g : RoadGraph) (p : list nat) (a b : nat) : Prop :=
  path_ok g p /\ hd_error p = Some a /\ last p a = b.

(** Walks with their cost, grown at the far end. *)
Inductive walk (g : RoadGraph) (a : nat) : nat -> R -> Prop :=
| walk_here : (a < node_count g)%nat -> walk g a a 0%R
| walk_step : forall u v c,
    walk g a u c -> adjacent g u v = true -> (v < node_count g)%nat ->
    walk g a v (c + edge_cost g u v)%R.

(** Three districts of the project description. *)
Definition izmit : Station :=
  mkStation 1 "Izmit" (407656 / 10000) (299406 / 10000) true.
Definition gebze : Station :=
  mkStation 2 "Gebze" (408027 / 10000) (294307 / 10000) false.
Definition darica : Station :=
  mkStation 3 "Darica" (407694 / 10000) (293753 / 10000) false.

(** Roads given in both directions. *)
Definition both_ways (roads : list (nat * nat * R)) (u v : nat) : option R :=
  match find (fun r => (Nat.eqb (fst (fst r)) u && Nat.eqb (snd (fst r)) v)
                       || (Nat.eqb (fst (fst r)) v && Nat.eqb (snd (fst r)) u))
             roads with
  | Some r => Some (snd r)
  | None => None
  end.

(** Three stations on the meridian of 30 degrees east, at latitudes 0, 2
    and 11, and the length of one degree of arc. *)
Definition degree_km : R := (6371 * PI / 180)%R.

Definition on_meridian (id : nat) (lat : R) : Station :=
  mkStation id EmptyString lat 30 false.

Definition meridian_stations : list Station :=
  [on_meridian 1 0; on_meridian 2 2; on_meridian 3 11].

(** Every road at least 1.35 times the great-circle distance of its
    ends. *)
Definition winding_roads : RoadGraph :=
  road_graph meridian_stations
    (both_ways [(0%nat, 1%nat, 3 * degree_km)%R;
                (1%nat, 2%nat, 13 * degree_km)%R;
                (0%nat, 2%nat, 15 * degree_km)%R]).

(** The road between the second and the third station runs along the
    meridian: it is as long as the great-circle arc, 9 degrees. *)
Definition straight_road : RoadGraph :=
  road_graph meridian_stations
    (both_ways [(0%nat, 1%nat, 3 * degree_km)%R;
                (1%nat, 2%nat, 9 * degree_km)%R;
                (0%nat, 2%nat, 1485 / 100 * degree_km)%R]).

(** Every road of the graph is at least the road factor times the
    great-circle distance of its ends. *)
Definition roads_scaled (g : RoadGraph) : Prop :=
  forall u v km,
    road g u v = Some km ->
    (road_factor * great_circle (station_at g u) (station_at g v) <= km)%R.

(** The unit vector of a station on the sphere and the inner product of
    two of them: the cosine of the central angle. *)
Definition sphere_x (s : Station) : R :=
  (cos (radians (station_lat s)) * cos (radians (station_lng s)))%R.
Definition sphere_y (s : Station) : R :=
  (cos (radians (station_lat s)) * sin (radians (station_lng s)))%R.
Definition sphere_z (s : Station) : R :=
  sin (radians (station_lat s)).

Definition sphere_dot (a b : Station) : R :=
  (sphere_x a * sphere_x b + sphere_y a * sphere_y b + sphere_z a * sphere_z b)%R.

(** What the search maintains.  Every open entry carries a real path from
    the start with its cost; the start and every successor of a closed node
    are closed or still open with a cost no worse than any walk through
    that closed node; the goal is never closed. *)
Definition entry_ok (g : RoadGraph) (start : nat) (e : Entry) : Prop :=
  path_from_to g (rev (entry_path e)) start (entry_node e) /\
  path_cost g (rev (entry_path e)) = entry_g e.

Record astar_inv (g : RoadGraph) (start goal : nat) (open : list Entry)
  (closed : list nat) : Prop := mkAstarInv {
  inv_entries : forall e, In e open -> entry_ok g start e;
  inv_start :
    in_closed start closed = true \/
    exists e, In e open /\ entry_node e = start /\ (entry_g e <= 0)%R;
  inv_frontier :
    forall x v,
      in_closed x closed = true -> adjacent g x v = true ->
      (v < node_count g)%nat -> in_closed v closed = false ->
      exists e, In e open /\ entry_node e = v /\
                forall c, walk g start x c -> (entry_g e <= c + edge_cost g x v)%R;
  inv_goal : in_closed goal closed = false;
  inv_closed : NoDup closed /\ forall x, In x closed -> (x < node_count g)%nat
}.

(** What a search result has to be. *)
Definition search_correct (g : RoadGraph) (start goal : nat) (r : SearchResult)
  : Prop :=
  match r with
  | Found p c =>
      path_from_to g p start goal /\ path_cost g p = c /\
      forall c', walk g start goal c' -> (c <= c')%R
  | NoPathFound => forall c', ~ walk g start goal c'
  | BudgetExceeded => False
  end.

(* ------------------------------------------------------------------ *)
(** ** Route Optimizer: genetic algorithm for the CVRP *)
(* ------------------------------------------------------------------ *)

(** Modelled from the spec: the generator owned by a run.  Its state is an
    integer set from the seed; the stepping function is part of the
    configuration, the spec fixing no algorithm. *)
Definition Rng : Type := Z.

Definition Rand (A : Type) : Type := Rng -> A * Rng.

Definition rret {A} (a : A) : Rand A := fun s => (a, s).

Definition rbind {A B} (m : Rand A) (k : A -> Rand B) : Rand B :=
  fun s => let (a, s') := m s in k a s'.

Declare Scope rand_scope.
Delimit Scope rand_scope with rand.
Notation "x <- m ;; k" := (rbind m (fun x => k))
  (at level 61, m at next level, right associativity) : rand_scope.

(** Modelled from the spec: the configuration value passed to a run
    (population 100, 500 generations, mutation 0.1, crossover 0.8, 10
    elites in the project description). *)
Record GAConfig : Type := mkConfig {
  population_size : nat;
  max_generations : nat;
  mutation_rate : R;
  crossover_rate : R;
  elite_count : nat;
  patience : nat;
  tournament_size : nat;
  two_opt_limit : nat;
  penalty_per_kg : R;
  rng_step : Z -> Z
}.

Definition draw_below (cfg : GAConfig) (bound : nat) : Rand nat :=
  fun s => let s' := rng_step cfg s in
           (Z.to_nat (s' mod Z.of_nat (Nat.max 1 bound)), s').

(** A draw in [0,1). *)
Definition draw_unit (cfg : GAConfig) : Rand R :=
  fun s => let s' := rng_step cfg s in
           ((IZR (s' mod 2147483648) / 2147483648)%R, s').

Fixpoint draw_many {A} (k : nat) (m : Rand A) : Rand (list A) :=
  match k with
  | O => rret []
  | S k' => (x <- m ;; xs <- draw_many k' m ;; rret (x :: xs))%rand
  end.

(** Modelled from the spec: a candidate solution, one ordered delivery
    sequence per vehicle of the candidate fleet, in fleet order. *)
Definition Chromosome : Type := list (list Cargo).

Definition valid_chromosome (cargos : list Cargo) (vehicles : nat)
  (ch : Chromosome) : Prop :=
  List.length ch = vehicles /\ Permutation (List.concat ch) cargos.

(** Modelled from the spec: the two operators the design describes by
    what they must achieve, not by how.  The initial individuals are
    random partitions of the selected cargo over the vehicles; crossover
    recombines two parents.  The loop below is written over any such pair;
    [reference_operators] further down is one. *)
Record Operators : Type := mkOperators {
  initial_individual : list Cargo -> nat -> Rand Chromosome;
  crossover : Chromosome -> Chromosome -> Rand Chromosome
}.

(** No cargo is assigned twice and none is dropped: what the spec asks of
    the initial individuals and of crossover, for cargo with distinct ids. *)
Record operators_valid (ops : Operators) : Prop := mkOperatorsValid {
  initial_valid :
    forall cargos vehicles s,
      NoDup (map cargo_id cargos) -> (0 < vehicles)%nat ->
      valid_chromosome cargos vehicles
        (fst (initial_individual ops cargos vehicles s));
  crossover_valid :
    forall cargos vehicles p1 p2 s,
      NoDup (map cargo_id cargos) ->
      valid_chromosome cargos vehicles p1 ->
      valid_chromosome cargos vehicles p2 ->
      valid_chromosome cargos vehicles (fst (crossover ops p1 p2 s))
}.

(** *** Routes of an individual and their cost *)

(** Modelled from the spec: the stops of a route, depot, the destinations
    in delivery order (each station once), depot. *)
Definition route_stops (depot : nat) (seq : list Cargo) : list nat :=
  (depot :: nodup Nat.eq_dec (map destination_station_id seq) ++ [depot])%list.

Fixpoint stops_distance (dist : nat -> nat -> R) (stops : list nat) : R :=
  match stops with
  | a :: ((b :: _) as rest) => (dist a b + stops_distance dist rest)%R
  | _ => 0%R
  end.

Definition route_distance (dist : nat -> nat -> R) (depot : nat)
  (seq : list Cargo) : R :=
  stops_distance dist (route_stops depot seq).

Definition excess_kg (v : Vehicle) (seq : list Cargo) : nat :=
  (total_weight seq - capacity_kg v)%nat.

Definition rental_fee (v : Vehicle) : R :=
  if is_rental v then match daily_fee v with Some f => f | None => 0%R end
  else 0%R.

Definition is_empty {A} (l : list A) : bool :=
  match l with [] => true | _ => false end.

(** Modelled from the spec: the cost of a vehicle's route, distance times
    cost per distance unit plus the rental fee; a vehicle without cargo
    yields no route and no cost. *)
Definition route_cost (dist : nat -> nat -> R) (depot : nat) (v : Vehicle)
  (seq : list Cargo) : R :=
  if is_empty seq then 0%R
  else (route_distance dist depot seq * cost_per_km v + rental_fee v)%R.

Fixpoint sum_R (l : list R) : R :=
  match l with
  | [] => 0%R
  | x :: rest => (x + sum_R rest)%R
  end.

Definition total_excess (fleet : list Vehicle) (ch : Chromosome) : nat :=
  fold_right Nat.add 0%nat (map (fun p => excess_kg (fst p) (snd p)) (combine fleet ch)).

(** Modelled from the spec: fitness, the total cost plus a penalty per
    kilogram of capacity violation; lower is better. *)
Definition fitness (cfg : GAConfig) (dist : nat -> nat -> R) (depot : nat)
  (fleet : list Vehicle) (ch : Chromosome) : R :=
  (sum_R (map (fun p => route_cost dist depot (fst p) (snd p)) (combine fleet ch))
   + penalty_per_kg cfg * INR (total_excess fleet ch))%R.

(** *** Ranking *)

Fixpoint insert_by {A} (key : A -> R) (x : A) (l : list A) : list A :=
  match l with
  | [] => [x]
  | y :: rest =>
      if Rle_dec (key x) (key y) then x :: l else y :: insert_by key x rest
  end.

Definition sort_by {A} (key : A -> R) (l : list A) : list A :=
  fold_right (insert_by key) [] l.

(** *** Local refinement (2-opt) *)

(** Reversal of the stretch [i .. j) of a sequence. *)
Definition reverse_segment {A} (i j : nat) (l : list A) : list A :=
  (firstn i l ++ rev (firstn (j - i) (skipn i l))
   ++ skipn (j - i) (skipn i l))%list.

Definition segment_choices (n : nat) : list (nat * nat) :=
  filter (fun ij => (fst ij <? snd ij)%nat)
         (list_prod (seq 0 n) (seq 1 n)).

Definition improves (dist : nat -> nat -> R) (depot : nat)
  (seq : list Cargo) (ij : nat * nat) : bool :=
  if Rlt_dec (route_distance dist depot (reverse_segment (fst ij) (snd ij) seq))
             (route_distance dist depot seq)
  then true else false.

(** Modelled from the spec: one 2-opt move, the first reversal that
    strictly shortens the route, if there is one. *)
Definition two_opt_move (dist : nat -> nat -> R) (depot : nat)
  (seq : list Cargo) : option (list Cargo) :=
  match find (improves dist depot seq) (segment_choices (List.length seq)) with
  | Some ij => Some (reverse_segment (fst ij) (snd ij) seq)
  | None => None
  end.

(** Modelled from the spec: 2-opt, moves repeated until none improves
    (at most [limit] of them). *)
Fixpoint two_opt (dist : nat -> nat -> R) (depot : nat) (limit : nat)
  (seq : list Cargo) : list Cargo :=
  match limit with
  | O => seq
  | S k =>
      match two_opt_move dist depot seq with
      | Some seq' => two_opt dist depot k seq'
      | None => seq
      end
  end.

Definition refine (cfg : GAConfig) (dist : nat -> nat -> R) (depot : nat)
  (ch : Chromosome) : Chromosome :=
  map (two_opt dist depot (two_opt_limit cfg)) ch.

(** *** Selection and mutation *)

Definition pick {A} (cfg : GAConfig) (l : list A) (d : A) : Rand A :=
  (i <- draw_below cfg (List.length l) ;; rret (nth i l d))%rand.

(** Modelled from the spec: tournament selection, the fittest of a small
    group drawn at random. *)
Definition tournament (cfg : GAConfig) (key : Chromosome -> R)
  (pop : list Chromosome) : Rand Chromosome :=
  (group <- draw_many (Nat.max 1 (tournament_size cfg)) (pick cfg pop []) ;;
   rret (hd [] (sort_by key group)))%rand.

(** [l] with the items at positions [i] and [j] exchanged. *)
Definition swap_at {A} (i j : nat) (l : list A) : list A :=
  match nth_error l i, nth_error l j with
  | Some x, Some y => list_set j x (list_set i y l)
  | _, _ => l
  end.

Definition remove_at {A} (i : nat) (l : list A) : list A :=
  (firstn i l ++ skipn (S i) l)%list.

(** The item at position [i] of sequence [a] moved to the end of sequence
    [b] (nothing happens when there is no such item or [a = b]). *)
Definition move_between (a b i : nat) (ch : Chromosome) : Chromosome :=
  if Nat.eqb a b then ch
  else
    match nth_error (nth a ch []) i with
    | Some c =>
        if (b <? List.length ch)%nat then
          list_set b (nth b ch [] ++ [c])%list
                   (list_set a (remove_at i (nth a ch [])) ch)
        else ch
    | None => ch
    end.

(** Modelled from the spec: mutation, either two stops of one route change
    places or one cargo item moves to another route. *)
Definition mutate (cfg : GAConfig) (ch : Chromosome) : Rand Chromosome :=
  (kind <- draw_below cfg 2 ;;
   a <- draw_below cfg (List.length ch) ;;
   if Nat.eqb kind 0 then
     i <- draw_below cfg (List.length (nth a ch [])) ;;
     j <- draw_below cfg (List.length (nth a ch [])) ;;
     rret (list_set a (swap_at i j (nth a ch [])) ch)
   else
     b <- draw_below cfg (List.length ch) ;;
     i <- draw_below cfg (List.length (nth a ch [])) ;;
     rret (move_between a b i ch))%rand.

(** *** The evolutionary loop *)

Definition below (x rate : R) : bool :=
  if Rlt_dec x rate then true else false.

(** Modelled from the spec: one child, from two parents chosen by
    tournament, crossover with probability [crossover_rate], mutation with
    probability [mutation_rate]. *)
Definition breed (ops : Operators) (cfg : GAConfig) (key : Chromosome -> R)
  (pop : list Chromosome) : Rand Chromosome :=
  (p1 <- tournament cfg key pop ;;
   p2 <- tournament cfg key pop ;;
   u <- draw_unit cfg ;;
   child <- (if below u (crossover_rate cfg) then crossover ops p1 p2
             else rret p1) ;;
   u' <- draw_unit cfg ;;
   if below u' (mutation_rate cfg) then mutate cfg child else rret child)%rand.

Definition elites (cfg : GAConfig) (key : Chromosome -> R)
  (pop : list Chromosome) : list Chromosome :=
  firstn (elite_count cfg) (sort_by key pop).

(** Modelled from the spec: elitism and breeding.  The top [elite_count]
    individuals by fitness are carried unchanged into the next population;
    the rest of it is bred. *)
Definition carry_and_breed (ops : Operators) (cfg : GAConfig)
  (key : Chromosome -> R) (pop : list Chromosome) : Rand (list Chromosome) :=
  (offspring <- draw_many (population_size cfg - elite_count cfg)
                          (breed ops cfg key pop) ;;
   rret (elites cfg key pop ++ offspring)%list)%rand.

(** Modelled from the spec: local refinement, 2-opt applied to the routes
    of the elite individuals, the first [elite_count] of the population
    just formed. *)
Definition refine_elites (cfg : GAConfig) (dist : nat -> nat -> R) (depot : nat)
  (pop : list Chromosome) : list Chromosome :=
  (map (refine cfg dist depot) (firstn (elite_count cfg) pop)
   ++ skipn (elite_count cfg) pop)%list.

(** Modelled from the spec: one generation. *)
Definition next_generation (ops : Operators) (cfg : GAConfig)
  (dist : nat -> nat -> R) (depot : nat) (fleet : list Vehicle)
  (pop : list Chromosome) : Rand (list Chromosome) :=
  (carried <- carry_and_breed ops cfg (fitness cfg dist depot fleet) pop ;;
   rret (refine_elites cfg dist depot carried))%rand.

Definition best_fitness (key : Chromosome -> R) (pop : list Chromosome) : R :=
  match sort_by key pop with
  | best :: _ => key best
  | [] => 0%R
  end.

(** Modelled from the spec: the loop, for [max_generations] generations or
    until the best fitness has not improved for [patience] generations in
    a row. *)
Fixpoint evolve (ops : Operators) (cfg : GAConfig) (dist : nat -> nat -> R)
  (depot : nat) (fleet : list Vehicle) (gens stale : nat)
  (pop : list Chromosome) : Rand (list Chromosome) :=
  match gens with
  | O => rret pop
  | S gens' =>
      if (patience cfg <=? stale)%nat then rret pop
      else
        (pop' <- next_generation ops cfg dist depot fleet pop ;;
         let key := fitness cfg dist depot fleet in
         let stale' := if below (best_fitness key pop') (best_fitness key pop)
                       then 0%nat else S stale in
         evolve ops cfg dist depot fleet gens' stale' pop')%rand
  end.

(** *** Materialising the best individual *)

Definition make_route (dist : nat -> nat -> R) (depot : nat) (v : Vehicle)
  (seq : list Cargo) : Route :=
  mkRoute (vehicle_id v) (route_stops depot seq) (map cargo_id seq)
          (route_distance dist depot seq) (route_cost dist depot v seq).

(** Modelled from the spec: the Route records of an individual; a vehicle
    with no assigned cargo yields no route. *)
Definition materialise (dist : nat -> nat -> R) (depot : nat)
  (fleet : list Vehicle) (ch : Chromosome) : list Route :=
  map (fun p => make_route dist depot (fst p) (snd p))
      (filter (fun p => negb (is_empty (snd p))) (combine fleet ch)).

Definition seed_rng (seed : nat) : Rng := Z.of_nat seed.

(** The best individual the run ends with. *)
Definition optimize_best (ops : Operators) (cfg : GAConfig)
  (dist : nat -> nat -> R) (depot : nat) (selected_cargos : list Cargo)
  (fleet : list Vehicle) : Rand Chromosome :=
  (pop0 <- draw_many (population_size cfg)
                     (initial_individual ops selected_cargos (List.length fleet)) ;;
   pop <- evolve ops cfg dist depot fleet (max_generations cfg) 0 pop0 ;;
   rret (hd [] (sort_by (fitness cfg dist depot fleet) pop)))%rand.

(** Modelled from the spec: [optimize(selected_cargos, fleet,
    distance_oracle, config)] for a given seed. *)
Definition optimize (ops : Operators) (cfg : GAConfig) (dist : nat -> nat -> R)
  (depot : nat) (selected_cargos : list Cargo) (fleet : list Vehicle)
  (seed : nat) : list Route :=
  materialise dist depot fleet
    (fst (optimize_best ops cfg dist depot selected_cargos fleet (seed_rng seed))).

(* ------------------------------------------------------------------ *)
(** ** The pipeline: snapshot, selection, optimisation, output *)
(* ------------------------------------------------------------------ *)

(** Modelled from the spec: the input snapshot of the external interface. *)
Record Snapshot : Type := mkSnapshot {
  snap_stations : list Station;
  snap_cargos : list Cargo;
  snap_vehicles : list Vehicle;
  snap_date : nat
}.

Record Totals : Type := mkTotals {
  total_distance_km : R;
  total_cost : R
}.

(** Modelled from the spec: the output of the external interface. *)
Record Output : Type := mkOutput {
  routes : list Route;
  deferred_cargo : list (nat * list DeferReason);
  totals : Totals
}.

Inductive PipelineResult : Type :=
| ValidationFailure
| Completed (out : Output).

Definition known_station (stations : list Station) (id : nat) : bool :=
  existsb (fun s => Nat.eqb (station_id s) id) stations.

Definition nonneg (x : R) : bool := if Rle_dec 0 x then true else false.

Definition vehicle_ok (v : Vehicle) : bool :=
  andb (nonneg (cost_per_km v))
       (match daily_fee v with Some f => nonneg f | None => true end).

(** Modelled from the spec: validation at the boundary.  Cargo of
    non-positive weight or for an unknown station, an empty fleet and
    numbers out of range are rejected before optimisation starts. *)
Definition validate (snap : Snapshot) : bool :=
  andb (forallb (fun c => andb (0 <? weight_kg c)%nat
                               (known_station (snap_stations snap)
                                              (destination_station_id c)))
                (snap_cargos snap))
       (andb (negb (is_empty (snap_vehicles snap)))
             (forallb vehicle_ok (snap_vehicles snap))).

Definition route_totals (rs : list Route) : Totals :=
  mkTotals (sum_R (map distance_km rs)) (sum_R (map cost rs)).

(** Modelled from the spec: a full run, Capacity Selector then Route
    Optimizer, from the depot of the snapshot. *)
Definition run_pipeline (ops : Operators) (cfg : GAConfig)
  (dist : nat -> nat -> R) (seed : nat) (snap : Snapshot) : PipelineResult :=
  if validate snap then
    match find is_depot (snap_stations snap) with
    | None => ValidationFailure
    | Some depot =>
        let sel := select (snap_cargos snap) (snap_vehicles snap) in
        let rs := optimize ops cfg dist (station_id depot) (selected sel)
                           (candidate_fleet sel) seed in
        Completed (mkOutput rs
                     (map (fun d => (cargo_id (fst d), snd d)) (deferred sel))
                     (route_totals rs))
    end
  else ValidationFailure.

(** How many routes hold a cargo id. *)
Definition routes_holding (id : nat) (rs : list Route) : list Route :=
  filter (fun r => existsb (Nat.eqb id) (assigned_cargo_ids r)) rs.

(** Ranking order, vehicles with sensible costs, populations the loop can
    work on (not empty, every individual a partition of the cargo over the
    vehicles). *)
Definition key_le {A : Type} (key : A -> R) (a b : A) : Prop :=
  (key a <= key b)%R.

Definition fleet_ok (fleet : list Vehicle) : Prop :=
  Forall (fun v => (0 <= cost_per_km v)%R) fleet.

Definition population_ok (cargos : list Cargo) (vehicles : nat)
  (pop : list Chromosome) : Prop :=
  pop <> [] /\ Forall (valid_chromosome cargos vehicles) pop.

(* ------------------------------------------------------------------ *)
(** ** The plan behind the routes, the initial individuals and the
       crossover of the run *)
(* ------------------------------------------------------------------ *)






Definition lcg_step (s : Z) : Z := ((1103515245 * s + 12345) mod 2147483648)%Z.

Definition default_config : GAConfig :=
  mkConfig 100 500 (1 / 10) (8 / 10) 10 50 3 100 1000 lcg_step.

(** Modelled from the spec: an initial individual, a random partition of
    the cargo over the vehicles.  The cargo is dealt to the vehicles in
    turn, starting from a vehicle drawn at random. *)
Fixpoint deal (offset : nat) (cargos : list Cargo) (ch : Chromosome)
  : Chromosome :=
  match cargos with
  | [] => ch
  | c :: rest =>
      let i := (offset mod List.length ch)%nat in
      deal (S offset) rest (list_set i (nth i ch [] ++ [c])%list ch)
  end.

Definition round_robin (cfg : GAConfig) (cargos : list Cargo) (vehicles : nat)
  : Rand Chromosome :=
  (offset <- draw_below cfg vehicles ;;
   rret (deal offset cargos (repeat [] vehicles)))%rand.

Fixpoint merge_routes (a b : Chromosome) : Chromosome :=
  match a, b with
  | x :: a', y :: b' => (x ++ y)%list :: merge_routes a' b'
  | [], _ => b
  | _, [] => a
  end.

Definition holds_id (ids : list nat) (c : Cargo) : bool :=
  existsb (Nat.eqb (cargo_id c)) ids.

(** Modelled from the spec: crossover, an order-preserving recombination
    that merges the stop sequences of two parents.  The first [k] routes of
    one parent are kept whole, [k] drawn at random; the other parent
    supplies the remaining cargo, in its own routes and order. *)
Definition cut_crossover (cfg : GAConfig) (p1 p2 : Chromosome)
  : Rand Chromosome :=
  (k <- draw_below cfg (S (List.length p1)) ;;
   let kept := firstn k p1 in
   let taken := map cargo_id (List.concat kept) in
   rret (merge_routes kept
           (map (filter (fun c => negb (holds_id taken c))) p2)))%rand.

Definition reference_operators (cfg : GAConfig) : Operators :=
  mkOperators (round_robin cfg) (cut_crossover cfg).

(** The direct estimate between two stations given by id: scaled Haversine. *)
Definition find_station (stations : list Station) (id : nat) : Station :=
  match find (fun s => Nat.eqb (station_id s) id) stations with
  | Some s => s
  | None => nowhere
  end.

Definition direct_distance (stations : list Station) (a b : nat) : R :=
  (road_factor * great_circle (find_station stations a) (find_station stations b))%R.



(** Three parcels of 700 kg for the base fleet of 500, 750 and 1000 kg. *)
Definition heavy_trio : list Cargo :=
  [parcel 1 2 700 1; parcel 2 3 700 1; parcel 3 2 700 1].


(** Five parcels of 700 kg for the whole fleet: 3500 kg against 2250 kg
    without and 2750 kg with the rental vehicle. *)
Definition crowded_load : list Cargo :=
  [parcel 1 2 700 3; parcel 2 3 700 1; parcel 3 2 700 2; parcel 4 3 700 1;
   parcel 5 2 700 3].

Definition crowded_snapshot : Snapshot :=
  mkSnapshot [izmit; gebze; darica] crowded_load readme_fleet 1.

Definition crowded_routes : list Route :=
  optimize (reference_operators default_config) default_config
    (direct_distance [izmit; gebze; darica]) (station_id izmit)
    (selected (select crowded_load readme_fleet))
    (candidate_fleet (select crowded_load readme_fleet)) 42.

Definition crowded_output : Output :=
  mkOutput crowded_routes
    [(4%nat, [capacity_exceeded; rental_required]);
     (2%nat, [capacity_exceeded; rental_required])]
    (route_totals crowded_routes).

(* ------------------------------------------------------------------ *)
(** ** The rest of [main.js]: the page helpers and the API wrappers *)
(* ------------------------------------------------------------------ *)

(** *** The document, as far as [showLoading] reads and changes it *)

(** A node of the page: a text node, or an element with its tag, its [id]
    (empty when it has none), its class and its children in document
    order. *)
Inductive DomNode : Type :=
| DomText (text : string)
| DomElement (tag : string) (el_id : string) (el_class : string)
             (children : list DomNode).

(** The children of [<head>] and of [<body>]; the three elements [<html>],
    [<head>] and [<body>] themselves carry no [id] the source looks for. *)
Record Document : Type := mkDocument {
  doc_head : list DomNode;
  doc_body : list DomNode
}.

Definition has_id (id : string) (n : DomNode) : bool :=
  match n with
  | DomText _ => false
  | DomElement _ i _ _ => String.eqb i id
  end.

(** The first element with the given id, in tree order. *)
Fixpoint find_in_node (id : string) (n : DomNode) : option DomNode :=
  match n with
  | DomText _ => None
  | DomElement _ i _ ch =>
      if String.eqb i id then Some n
      else
        (fix first (l : list DomNode) : option DomNode :=
           match l with
           | [] => None
           | x :: rest =>
               match find_in_node id x with
               | Some y => Some y
               | None => first rest
               end
           end) ch
  end.

Fixpoint find_in_forest (id : string) (l : list DomNode) : option DomNode :=
  match l with
  | [] => None
  | x :: rest =>
      match find_in_node id x with
      | Some y => Some y
      | None => find_in_forest id rest
      end
  end.

(** [document.getElementById(id)]; [None] is [null]. *)
Definition getElementById (id : string) (d : Document) : option DomNode :=
  match find_in_forest id (doc_head d) with
  | Some n => Some n
  | None => find_in_forest id (doc_body d)
  end.

(** [e.remove()] for the element [e] that [getElementById id] returned: the
    first element with that id, in tree order, leaves the tree with all its
    descendants. *)
Fixpoint remove_in_node (id : string) (n : DomNode) : DomNode :=
  match n with
  | DomText s => DomText s
  | DomElement t i c ch =>
      DomElement t i c
        ((fix go (l : list DomNode) : list DomNode :=
            match l with
            | [] => []
            | x :: rest =>
                if has_id id x then rest
                else
                  match find_in_node id x with
                  | Some _ => remove_in_node id x :: rest
                  | None => x :: go rest
                  end
            end) ch)
  end.

Fixpoint remove_in_forest (id : string) (l : list DomNode) : list DomNode :=
  match l with
  | [] => []
  | x :: rest =>
      if has_id id x then rest
      else
        match find_in_node id x with
        | Some _ => remove_in_node id x :: rest
        | None => x :: remove_in_forest id rest
        end
  end.

Definition remove_found (id : string) (d : Document) : Document :=
  match find_in_forest id (doc_head d) with
  | Some _ => mkDocument (remove_in_forest id (doc_head d)) (doc_body d)
  | None => mkDocument (doc_head d) (remove_in_forest id (doc_body d))
  end.

(** [document.body.appendChild(n)] for a node [n] that was just created. *)
Definition body_appendChild (n : DomNode) (d : Document) : Document :=
  mkDocument (doc_head d) (doc_body d ++ [n])%list.

(** ** [showLoading] *)

(** The element the function builds: [id], [className], and the one child
    that the assignment to [innerHTML] parses. *)
Definition loading_overlay : DomNode :=
  DomElement "div" "loadingOverlay" "loading-overlay"
    [DomElement "div" EmptyString "loading-spinner" []].

(** [show] is the argument as passed; [JUndefined] stands for a call without
    argument, which takes the default [true]. *)
Definition showLoading (show : JSVal) (d : Document) : Document :=
  let show := truthy (match show with JUndefined => JBool true | v => v end) in
  let overlay := getElementById "loadingOverlay" d in
  let found := match overlay with Some _ => true | None => false end in
  if andb show (negb found) then body_appendChild loading_overlay d
  else if andb (negb show) found then remove_found "loadingOverlay" d
  else d.

(** Whether a call asks for the overlay: the truthiness of the argument
    after the default has been applied. *)
Definition loading_requested (show : JSVal) : bool :=
  truthy (match show with JUndefined => JBool true | v => v end).

(** How many elements of a tree carry the id. *)
Fixpoint count_in_node (id : string) (n : DomNode) : nat :=
  match n with
  | DomText _ => 0
  | DomElement _ i _ ch =>
      (if String.eqb i id then 1 else 0)
      + (fix total (l : list DomNode) : nat :=
           match l with
           | [] => 0
           | x :: rest => count_in_node id x + total rest
           end) ch
  end%nat.

Fixpoint count_in_forest (id : string) (l : list DomNode) : nat :=
  match l with
  | [] => 0
  | x :: rest => count_in_node id x + count_in_forest id rest
  end%nat.

Definition overlay_count (d : Document) : nat :=
  (count_in_forest "loadingOverlay" (doc_head d)
   + count_in_forest "loadingOverlay" (doc_body d))%nat.

(** The tree without the elements that carry the id (and without what is
    below them). *)
Fixpoint prune_node (id : string) (n : DomNode) : DomNode :=
  match n with
  | DomText s => DomText s
  | DomElement t i c ch =>
      DomElement t i c
        ((fix keep (l : list DomNode) : list DomNode :=
            match l with
            | [] => []
            | x :: rest =>
                if has_id id x then keep rest else prune_node id x :: keep rest
            end) ch)
  end.

Fixpoint prune_forest (id : string) (l : list DomNode) : list DomNode :=
  match l with
  | [] => []
  | x :: rest =>
      if has_id id x then prune_forest id rest
      else prune_node id x :: prune_forest id rest
  end.

Definition page_content (d : Document) : Document :=
  mkDocument (prune_forest "loadingOverlay" (doc_head d))
             (prune_forest "loadingOverlay" (doc_body d)).

(** A run of calls, the first argument first. *)
Definition showLoading_calls (calls : list JSVal) (d : Document) : Document :=
  fold_left (fun doc show => showLoading show doc) calls d.

(** A page with a navigation bar and no overlay, for closed examples. *)
Definition plain_page : Document :=
  mkDocument [DomElement "title" EmptyString EmptyString [DomText "Kargo"]]
             [DomElement "nav" "navbar" "navbar" [];
              DomElement "div" "map" EmptyString []].

(** ** [createCustomMarker] *)

(** The options object handed to [L.divIcon]. *)
Record DivIcon : Type := mkDivIcon {
  icon_className : string;
  icon_html : string;
  iconSize : R * R;
  iconAnchor : R * R
}.

Definition dquote : string := String (ascii_of_nat 34) EmptyString.
Definition newline : string := String (ascii_of_nat 10) EmptyString.

(** [s.charAt(0)].  A string of the embedding is a sequence of 8-bit
    characters; it stands for the JavaScript string with the same
    characters when all of them are 7-bit (ASCII), which is where its
    positions and those of the UTF-16 code units agree. *)
Definition is_seven_bit (c : ascii) : bool := (nat_of_ascii c <? 128)%nat.

Definition charAt0 (s : string) : string :=
  match s with
  | EmptyString => EmptyString
  | String c _ => String c EmptyString
  end.

(** [v.charAt(0)]: of the values of the embedding only strings have the
    method. *)
Definition js_charAt0 (v : JSVal) : Outcome string :=
  match v with
  | JUndefined | JNull => Thrown TypeError
  | JStr s => Ret (charAt0 s)
  | _ => Thrown TypeError
  end.

(** [station.name ? station.name.charAt(0) : 'D'] *)
Definition marker_label (station : JSVal) : Outcome string :=
  bindO (get_prop station "name") (fun name =>
  if truthy name then
    bindO (get_prop station "name") js_charAt0
  else Ret "D").

(** The template literal of the source, line by line: the opening tag with
    its style, then the label and the closing tag. *)
Definition marker_open (isDepot : bool) (color : string) (size : Z) : string :=
  "<div style=" ++ dquote ++ newline ++
  "            background: " ++ color ++ ";" ++ newline ++
  "            width: " ++ Z_toString size ++ "px;" ++ newline ++
  "            height: " ++ Z_toString size ++ "px;" ++ newline ++
  "            border-radius: 50%;" ++ newline ++
  "            display: flex;" ++ newline ++
  "            align-items: center;" ++ newline ++
  "            justify-content: center;" ++ newline ++
  "            color: white;" ++ newline ++
  "            font-weight: bold;" ++ newline ++
  "            font-size: " ++ (if isDepot then "1.2rem" else "0.9rem") ++ ";"
    ++ newline ++
  "            border: " ++ Z_toString (if isDepot then 4 else 3)
    ++ "px solid white;" ++ newline ++
  "            box-shadow: 0 " ++ Z_toString (if isDepot then 4 else 3)
    ++ "px " ++ Z_toString (if isDepot then 15 else 10)
    ++ "px rgba(0,0,0,0.3);" ++ newline ++
  "        " ++ dquote ++ ">".

Definition marker_html (isDepot : bool) (color : string) (size : Z)
  (label : string) : string :=
  marker_open isDepot color size ++ label ++ "</div>".

(** [isDepot] is the argument as passed; [JUndefined] takes the default
    [false]. *)
Definition createCustomMarker (station : JSVal) (isDepot : JSVal)
  : Outcome DivIcon :=
  let isDepot := truthy (match isDepot with JUndefined => JBool false | v => v end) in
  let color := if isDepot then "#e74c3c" else "#3498db" in
  let size := if isDepot then 45%Z else 35%Z in
  bindO (marker_label station) (fun label =>
  Ret (mkDivIcon "custom-marker" (marker_html isDepot color size label)
         (IZR size, IZR size) ((IZR size / 2)%R, (IZR size / 2)%R))).

(** The parameter [isDepot = false] as the condition the body tests. *)
Definition depot_flag (isDepot : JSVal) : bool :=
  truthy (match isDepot with JUndefined => JBool false | v => v end).

(** ** The [API] object: [trackCargo], a plain GET *)

Definition API_BASE : string := EmptyString.

(** [const response = await fetch(url); return response.json();] *)
Definition API_get (path : string) : JS JSVal :=
  fetch_json (API_BASE ++ path).

(** [trackingNo] is the argument after its conversion to a string by the
    template literal. *)
Definition API_trackCargo (trackingNo : string) : JS JSVal :=
  API_get ("/api/cargos/track/" ++ trackingNo).

(** ** What the proofs about the page's own functions speak of *)

(** The exception that [getOSRMRoute] catches, if any, as the answer of
    the network decides it. *)
Definition osrm_caught (rt : JSRuntime) (ans : FetchOutcome) : option JSError :=
  match ans with
  | FetchRejects => Some NetworkError
  | BodyNotJson => Some SyntaxError
  | BodyJson data =>
      match osrm_response_ok rt data with
      | Thrown e => Some e
      | Ret false => None
      | Ret true =>
          match osrm_result rt data with
          | Thrown e => Some e
          | Ret _ => None
          end
      end
  end.

Definition osrm_error_entry (e : JSError) : LogEntry :=
  mkLog LogError "OSRM routing error:" (Some e).

(** The world with further console entries and nothing else changed. *)
Definition with_logs (w : World) (logs : list LogEntry) : World :=
  mkWorld (console w ++ logs)%list (network w) (leaflet_layers w) (clock w)
          (rand_seq w) (rand_pos w).

(** A GeoJSON position [[lng, lat]] of two numbers, and the Leaflet point
    [[lat, lng]] the page makes of it. *)
Definition lnglat_position (p : R * R) : list JSVal :=
  [JNum (fst p); JNum (snd p)].

Definition leaflet_latlng (p : R * R) : JSVal :=
  JArr [JNum (snd p); JNum (fst p)].

(** The road polyline of the success branch of [drawOSRMRoute]. *)
Definition road_polyline (points : list JSVal) (color : option string)
  (weight : option R) : Polyline :=
  mkPolyline points (or_default color default_color)
             (or_default weight default_weight) (8 / 10) (Some 1%R) None.

(** The last [k] decimal digits of [n], padded with zeros, in front of
    [acc]. *)
Fixpoint padded_digits (k : nat) (n : Z) (acc : string) : string :=
  match k with
  | O => acc
  | S k' => padded_digits k' (n / 10) (String (digit_char (n mod 10)) acc)
  end.

(** The part of a draw of [Math.random] that reaches the tracking number. *)
Definition random_part (r : Fraction36) : string :=
  toUpperCase (js_substring 2 6 (toString36 r)).

(** Worlds whose clocks are 1000 seconds apart, with the same draw. *)
Definition later_world : World :=
  mkWorld [] (fun _ => FetchRejects) [] 1762147000123 (fun _ => sample_fraction) 0.

(** An answer with code 'Ok' whose first route lacks its geometry. *)
Definition broken_answer : JSVal :=
  JObj [("code", JStr "Ok"); ("routes", JArr [JObj [("distance", JNum 1)]])].

Definition broken_world : World :=
  mkWorld [] (fun _ => BodyJson broken_answer) [] 0 (fun _ => []) 0.

(** An answer of a server that found no route. *)
Definition noroute_answer : JSVal :=
  JObj [("code", JStr "NoRoute"); ("message", JStr "Impossible route")].

Definition noroute_world : World :=
  mkWorld [] (fun _ => BodyJson noroute_answer) [] 0 (fun _ => []) 0.

(** The value of an upper-case base-36 digit character. *)
Definition base36_value (c : ascii) : nat :=
  let n := nat_of_ascii c in
  if (n <? 65)%nat then (n - 48)%nat else (n - 55)%nat.

(** Stations as the page receives them from the server, for closed
    examples: one with a name, one without. *)
Definition gebze_station : JSVal :=
  JObj [("id", JNum 2); ("name", JStr "Gebze"); ("latitude", JNum (408027 / 10000));
        ("longitude", JNum (294307 / 10000))].

Definition nameless_station : JSVal :=
  JObj [("id", JNum 7); ("name", JNull)].

Definition numbered_station : JSVal :=
  JObj [("id", JNum 8); ("name", JNum 8)].

(** What Leaflet is handed for a point, and what a distance can be. *)
Definition is_latlng_pair (p : JSVal) : Prop := exists a b, p = JArr [a; b].

Definition is_js_number (v : JSVal) : Prop := v = JNaN \/ exists x, v = JNum x.
(* ================================================================== *)
(** * Part II - Properties *)
(* ================================================================== *)

(** ** [getOSRMRoute] *)

Lemma getOSRMRoute_value (rt : JSRuntime) (coords : list Coord) (w : World) :
  (2 <= List.length coords)%nat ->
  fst (getOSRMRoute rt (Some coords) w)
  = Ret (osrm_answer rt (network w (osrm_url rt coords))).
Proof.
  intros Hlen. unfold getOSRMRoute.
  destruct (Nat.ltb_spec (List.length coords) 2) as [Hlt | _]; [lia |].
  unfold bind, try_catch, fetch_json, lift, ret, console_log, osrm_answer.
  destruct (network w (osrm_url rt coords)) as [ | | data]; simpl; try reflexivity.
  destruct (osrm_response_ok rt data) as [[ | ] | e]; simpl; try reflexivity.
  destruct (osrm_result rt data) as [r | e]; reflexivity.
Qed.

Lemma getOSRMRoute_short (rt : JSRuntime) (coords : list Coord) (w : World) :
  (List.length coords < 2)%nat ->
  getOSRMRoute rt (Some coords) w = (Ret None, w).
Proof.
  intros Hlen. unfold getOSRMRoute.
  destruct (Nat.ltb_spec (List.length coords) 2); [reflexivity | lia].
Qed.

Lemma getOSRMRoute_returns (rt : JSRuntime) (coords : option (list Coord))
  (w : World) :
  exists r, fst (getOSRMRoute rt coords w) = Ret r.
Proof.
  destruct coords as [coords | ]; [ | exists None; reflexivity].
  destruct (Nat.ltb_spec (List.length coords) 2) as [Hlt | Hge].
  - exists None. now rewrite getOSRMRoute_short.
  - eexists. now apply getOSRMRoute_value.
Qed.

Lemma map_outcome_swap (positions : list (list JSVal)) :
  map_outcome swap_lnglat (map JArr positions) = Ret (map to_leaflet positions).
Proof.
  induction positions as [ | p ps IH]; simpl; [reflexivity |].
  now rewrite IH.
Qed.

Lemma js_gt_length_pos (rt : JSRuntime) (n : nat) :
  js_gt rt (JNum (INR (S n))) 0 = true.
Proof.
  unfold js_gt, ToNumber.
  destruct (Rlt_dec 0 (INR (S n))) as [_ | Hn]; [reflexivity | ].
  exfalso. apply Hn. apply lt_0_INR. lia.
Qed.

Lemma osrm_response_ok_success (rt : JSRuntime) (data r0 : JSVal)
  (rest : list JSVal) :
  response_code_ok data ->
  get_prop data "routes" = Ret (JArr (r0 :: rest)) ->
  osrm_response_ok rt data = Ret true.
Proof.
  unfold response_code_ok, osrm_response_ok. intros -> ->.
  cbn [bindO strict_eq_str truthy get_prop].
  change (String.eqb "Ok" "Ok") with true.
  change (String.eqb "length" "length") with true.
  cbv iota. cbn [List.length bindO]. now rewrite js_gt_length_pos.
Qed.

Lemma osrm_answer_success (rt : JSRuntime) (data : JSVal)
  (positions : list (list JSVal)) (metres : R) (dur : JSVal) :
  response_success data positions metres dur ->
  osrm_answer rt (BodyJson data)
  = Some (mkOSRMRoute (map to_leaflet positions) (JNum (metres / 1000)) dur).
Proof.
  intros (r0 & rest & geom & Hcode & Hroutes & Hgeom & Hcs & Hdist & Hdur).
  unfold osrm_answer.
  rewrite (osrm_response_ok_success rt Hcode Hroutes).
  unfold osrm_result. rewrite Hroutes.
  cbn [bindO get_index nth]. rewrite Hgeom. cbn [bindO]. rewrite Hcs.
  cbn [bindO js_array_map]. rewrite map_outcome_swap. cbn [bindO].
  rewrite Hdist. cbn [bindO]. rewrite Hdur. reflexivity.
Qed.

Lemma osrm_answer_not_ok (rt : JSRuntime) (data : JSVal) :
  ~ response_code_ok data -> osrm_answer rt (BodyJson data) = None.
Proof.
  intros Hcode. unfold osrm_answer, osrm_response_ok, response_code_ok in *.
  destruct (get_prop data "code") as [code | e]; simpl; [ | reflexivity].
  destruct code; simpl; try reflexivity.
  destruct (String.eqb_spec s "Ok") as [-> | _]; [ | reflexivity].
  now contradiction Hcode.
Qed.

Lemma osrm_answer_no_routes (rt : JSRuntime) (data : JSVal) :
  response_has_no_routes data -> osrm_answer rt (BodyJson data) = None.
Proof.
  intros Hr. unfold osrm_answer, osrm_response_ok.
  destruct (get_prop data "code") as [code | e]; simpl; [ | reflexivity].
  destruct (strict_eq_str code "Ok"); [ | reflexivity].
  destruct Hr as [Hr | [Hr | Hr]]; rewrite Hr; simpl; try reflexivity.
  unfold js_gt. simpl.
  destruct (Rlt_dec 0 0) as [Hlt | _]; [lra | reflexivity].
Qed.

Lemma sample_answer_success :
  response_success sample_answer
    [[JNum (299406 / 10000); JNum (407656 / 10000)];
     [JNum (294307 / 10000); JNum (408027 / 10000)]]
    48500 (JNum 2400).
Proof.
  unfold response_success, response_code_ok, sample_answer.
  do 3 eexists. repeat split; reflexivity.
Qed.

Example Z_toString_samples :
  Z_toString 1762146000123 = "1762146000123"%string /\
  Z_toString 0 = "0"%string /\ Z_toString (-42) = "-42"%string.
Proof. repeat split; vm_compute; reflexivity. Qed.

(** ** [drawOSRMRoute] *)

Lemma getOSRMRoute_frame (rt : JSRuntime) (coords : option (list Coord))
  (w : World) :
  exists logs,
    snd (getOSRMRoute rt coords w)
    = mkWorld (console w ++ logs) (network w) (leaflet_layers w) (clock w)
              (rand_seq w) (rand_pos w).
Proof.
  assert (Hsame : w = mkWorld (console w ++ []) (network w) (leaflet_layers w)
                              (clock w) (rand_seq w) (rand_pos w)).
  { destruct w; simpl. now rewrite app_nil_r. }
  destruct coords as [coords | ]; [ | exists []; exact Hsame].
  unfold getOSRMRoute.
  destruct (List.length coords <? 2)%nat; [exists []; exact Hsame | ].
  unfold bind, try_catch, fetch_json, lift, ret, console_log.
  destruct (network w (osrm_url rt coords)) as [ | | data]; cbn [fst snd];
    try (eexists; reflexivity).
  destruct (osrm_response_ok rt data) as [[ | ] | e]; cbn [fst snd];
    try (eexists; reflexivity); try (exists []; exact Hsame).
  destruct (osrm_result rt data) as [r | e]; cbn [fst snd];
    try (eexists; reflexivity); exists []; exact Hsame.
Qed.

Lemma osrm_answer_distance (rt : JSRuntime) (ans : FetchOutcome) (r : OSRMRoute) :
  osrm_answer rt ans = Some r -> distance r <> JNull.
Proof.
  unfold osrm_answer. destruct ans as [ | | data]; try discriminate.
  destruct (osrm_response_ok rt data) as [[ | ] | e]; try discriminate.
  unfold osrm_result.
  repeat match goal with
         | |- context [bindO ?x _] => destruct x; cbn [bindO]; try discriminate
         end.
  intros [= <-]. cbn [distance]. unfold js_div.
  destruct (ToNumber rt _); discriminate.
Qed.

Lemma getOSRMRoute_distance (rt : JSRuntime) (coords : list Coord) (w : World)
  (r : OSRMRoute) :
  fst (getOSRMRoute rt (Some coords) w) = Ret (Some r) -> distance r <> JNull.
Proof.
  destruct (Nat.ltb_spec (List.length coords) 2) as [Hlt | Hge].
  - rewrite getOSRMRoute_short by assumption. discriminate.
  - rewrite getOSRMRoute_value by assumption. intros [= H].
    eapply osrm_answer_distance; eassumption.
Qed.

(** C1 (as the code has it).  When routing fails, [drawOSRMRoute] does not
    abort: it logs a warning, draws the dashed straight line through the
    waypoints themselves and returns [distance: null, duration: null]; no
    distance estimate is computed.  A [null] distance is returned exactly
    when routing failed, which is how a caller tells the fallback from a
    road-derived result. *)
Theorem drawOSRMRoute_fallback (rt : JSRuntime) (map : nat)
  (waypoints : list Coord) (color : option string) (weight : option R)
  (w : World) :
  exists res w',
    drawOSRMRoute rt map waypoints color weight w = (Ret res, w') /\
    (osrm_failed (fst (getOSRMRoute rt (Some waypoints) w)) ->
       res = mkDrawResult (fallback_polyline waypoints color weight) JNull JNull /\
       leaflet_layers w'
       = (leaflet_layers w ++ [(map, fallback_polyline waypoints color weight)])%list /\
       In fallback_warning (console w')) /\
    (draw_distance res = JNull <->
     osrm_failed (fst (getOSRMRoute rt (Some waypoints) w))).
Proof.
  destruct (getOSRMRoute_returns rt (Some waypoints) w) as [o Ho].
  destruct (getOSRMRoute_frame rt (Some waypoints) w) as [logs Hw].
  pose proof (getOSRMRoute_distance rt waypoints w) as Hdist.
  unfold drawOSRMRoute, bind.
  destruct (getOSRMRoute rt (Some waypoints) w) as [o' w1].
  cbn [fst snd] in *. subst o' w1.
  assert (Hfallback :
    forall res w',
      res = mkDrawResult (fallback_polyline waypoints color weight) JNull JNull ->
      leaflet_layers w'
      = (leaflet_layers w ++ [(map, fallback_polyline waypoints color weight)])%list ->
      In fallback_warning (console w') ->
      osrm_failed (Ret o) ->
      (osrm_failed (Ret o) ->
       res = mkDrawResult (fallback_polyline waypoints color weight) JNull JNull /\
       leaflet_layers w'
       = (leaflet_layers w ++ [(map, fallback_polyline waypoints color weight)])%list /\
       In fallback_warning (console w')) /\
      (draw_distance res = JNull <-> osrm_failed (Ret o))).
  { intros res w' -> Hl Hc Hf. repeat split; auto. }
  destruct o as [r | ].
  - destruct (Nat.ltb_spec 0 (List.length (coordinates r))) as [Hpos | Hzero].
    + do 2 eexists. split; [reflexivity | ]. cbn [draw_distance].
      assert (Hnot : ~ osrm_failed (Ret (Some r))).
      { intros [H | (r' & [= <-] & Hnil)]; [discriminate | ].
        rewrite Hnil in Hpos. simpl in Hpos. lia. }
      split; [intros H; contradiction | ].
      split; [intros H; exfalso; eapply Hdist; eauto | intros H; contradiction].
    + do 2 eexists. split; [reflexivity | ].
      apply Hfallback; try reflexivity.
      * cbn. apply in_or_app. right. now left.
      * right. exists r. split; [reflexivity | ].
        destruct (coordinates r); [reflexivity | simpl in Hzero; lia].
  - do 2 eexists. split; [reflexivity | ].
    apply Hfallback; try reflexivity.
    + cbn. apply in_or_app. right. now left.
    + now left.
Qed.

(** C1 (as claimed) fails: without network the call for Izmit - Gebze
    returns a [null] distance, not the Haversine estimate times 1.35. *)
Lemma drawOSRMRoute_no_estimate :
  ~ (exists res w',
       drawOSRMRoute plain_runtime 0 izmit_gebze None None offline_world
       = (Ret res, w') /\
       draw_distance res = JNum (road_estimate_km izmit_gebze)).
Proof.
  intros (res & w' & Hrun & Hd).
  unfold drawOSRMRoute, bind, getOSRMRoute, try_catch, fetch_json in Hrun.
  cbn in Hrun. injection Hrun as <- _. cbn in Hd. discriminate.
Qed.

Lemma drawOSRMRoute_fallback_witness :
  osrm_failed (fst (getOSRMRoute plain_runtime (Some izmit_gebze) offline_world)) /\
  exists res w',
    drawOSRMRoute plain_runtime 0 izmit_gebze None None offline_world
    = (Ret res, w') /\
    res = mkDrawResult (fallback_polyline izmit_gebze None None) JNull JNull /\
    In fallback_warning (console w').
Proof.
  assert (Hfail : osrm_failed
            (fst (getOSRMRoute plain_runtime (Some izmit_gebze) offline_world))).
  { left. rewrite getOSRMRoute_value by (simpl; lia). reflexivity. }
  split; [exact Hfail | ].
  destruct (drawOSRMRoute_fallback plain_runtime 0 izmit_gebze None None
              offline_world) as (res & w' & Hrun & Hfb & _).
  destruct (Hfb Hfail) as (Hres & _ & Hlog).
  exists res, w'. repeat split; assumption.
Defined.

(** ** [haversineDistance] *)

Section Haversine.

Local Open Scope R_scope.

Lemma sin_half_sqr (t : R) : sin (t / 2) * sin (t / 2) = (1 - cos t) / 2.
Proof.
  replace (cos t) with (cos (2 * (t / 2))) by (f_equal; field).
  rewrite cos_2a_sin. field.
Qed.

Lemma hav_range (t : R) : 0 <= hav t <= 1.
Proof.
  unfold hav, Rsqr. rewrite sin_half_sqr.
  pose proof (COS_bound t) as [? ?]. lra.
Qed.

(** The term under the square roots, with angles already in radians. *)
Lemma haversine_a_radians (lat1 lon1 lat2 lon2 : R) :
  haversine_a lat1 lon1 lat2 lon2
  = hav (radians lat2 - radians lat1)
    + cos (radians lat1) * cos (radians lat2) * hav (radians lon2 - radians lon1).
Proof.
  unfold haversine_a, hav, radians, Rsqr.
  replace ((lat2 - lat1) * PI / 180 / 2)
    with ((lat2 * (PI / 180) - lat1 * (PI / 180)) / 2) by field.
  replace ((lon2 - lon1) * PI / 180 / 2)
    with ((lon2 * (PI / 180) - lon1 * (PI / 180)) / 2) by field.
  replace (lat1 * PI / 180) with (lat1 * (PI / 180)) by field.
  replace (lat2 * PI / 180) with (lat2 * (PI / 180)) by field.
  ring.
Qed.

Lemma hav_mix_range (x y t : R) :
  0 <= t <= 1 ->
  0 <= hav (y - x) + cos x * cos y * t <= 1.
Proof.
  intros [Ht0 Ht1]. unfold hav, Rsqr. rewrite sin_half_sqr, cos_minus.
  pose proof (sin2_cos2 x) as Hx. pose proof (sin2_cos2 y) as Hy.
  unfold Rsqr in Hx, Hy.
  set (cx := cos x) in *. set (sx := sin x) in *.
  set (cy := cos y) in *. set (sy := sin y) in *.
  pose proof (Rle_0_sqr (cx - cy)) as Q1. pose proof (Rle_0_sqr (sx - sy)) as Q2.
  pose proof (Rle_0_sqr (cx + cy)) as Q3. pose proof (Rle_0_sqr (sx + sy)) as Q4.
  unfold Rsqr in Q1, Q2, Q3, Q4.
  assert (H1 : 0 <= 1 - cy * cx - sy * sx) by nra.
  assert (H2 : 0 <= 1 + cy * cx - sy * sx) by nra.
  assert (H3 : 0 <= 1 + cy * cx + sy * sx) by nra.
  assert (H4 : 0 <= 1 - cy * cx + sy * sx) by nra.
  clear Q1 Q2 Q3 Q4 Hx Hy.
  split; nra.
Qed.

Lemma haversine_a_range (lat1 lon1 lat2 lon2 : R) :
  0 <= haversine_a lat1 lon1 lat2 lon2 <= 1.
Proof.
  rewrite haversine_a_radians. apply hav_mix_range, hav_range.
Qed.

Lemma atan2_sqrt_asin (a : R) :
  0 <= a <= 1 -> Math_atan2 (sqrt a) (sqrt (1 - a)) = asin (sqrt a).
Proof.
  intros [Ha0 Ha1]. unfold Math_atan2.
  destruct (Req_dec a 1) as [-> | Hne].
  - replace (1 - 1) with 0 by ring. rewrite sqrt_0, sqrt_1, asin_1.
    destruct (Rlt_dec 0 0) as [H | _]; [lra | ].
    destruct (Rlt_dec 0 1) as [_ | H]; [reflexivity | lra].
  - assert (Hpos : 0 < sqrt (1 - a)) by (apply sqrt_lt_R0; lra).
    destruct (Rlt_dec 0 (sqrt (1 - a))) as [_ | H]; [ | contradiction].
    assert (Hlt : sqrt a < 1).
    { rewrite <- sqrt_1. apply sqrt_lt_1_alt. lra. }
    pose proof (sqrt_pos a) as Hs.
    rewrite asin_atan by lra.
    rewrite Rsqr_sqrt by lra. reflexivity.
Qed.

Lemma haversineDistance_formula (lat1 lon1 lat2 lon2 : R) :
  haversineDistance lat1 lon1 lat2 lon2 = great_circle_km lat1 lon1 lat2 lon2.
Proof.
  unfold haversineDistance, great_circle_km, earth_radius_km. cbv zeta.
  rewrite atan2_sqrt_asin by apply haversine_a_range.
  rewrite haversine_a_radians. ring.
Qed.

End Haversine.

Section TrackingNumber.

Local Open Scope nat_scope.

Lemma string_length_app (s t : string) :
  String.length (s ++ t)%string = String.length s + String.length t.
Proof. induction s as [ | c s IH]; simpl; [reflexivity | now rewrite IH]. Qed.

Lemma string_forallb_app (p : ascii -> bool) (s t : string) :
  string_forallb p (s ++ t)%string
  = andb (string_forallb p s) (string_forallb p t).
Proof.
  induction s as [ | c s IH]; simpl; [reflexivity | ].
  now rewrite IH, andb_assoc.
Qed.

Lemma substring_length_le (n m : nat) (s : string) :
  String.length (substring n m s) <= m.
Proof.
  revert n m. induction s as [ | c s IH]; intros [ | n] [ | m]; simpl;
    try lia.
  - specialize (IH 0 m). lia.
  - apply (IH n 0).
  - apply (IH n (S m)).
Qed.

Lemma substring_length_exact (n m : nat) (s : string) :
  n + m <= String.length s -> String.length (substring n m s) = m.
Proof.
  revert n m. induction s as [ | c s IH]; intros [ | n] [ | m]; simpl;
    intros H; try lia.
  - rewrite (IH 0 m); lia.
  - apply (IH n 0). lia.
  - apply (IH n (S m)). lia.
Qed.

Lemma substring_forallb (p : ascii -> bool) (n m : nat) (s : string) :
  string_forallb p s = true -> string_forallb p (substring n m s) = true.
Proof.
  revert n m. induction s as [ | c s IH]; intros [ | n] [ | m]; simpl;
    intros H; try reflexivity.
  - apply andb_true_iff in H as [Hc Hs]. rewrite Hc. simpl. now apply IH.
  - apply andb_true_iff in H as [Hc Hs]. now apply IH.
  - apply andb_true_iff in H as [Hc Hs]. now apply IH.
Qed.

Lemma toUpperCase_length (s : string) :
  String.length (toUpperCase s) = String.length s.
Proof. induction s as [ | c s IH]; simpl; [reflexivity | now rewrite IH]. Qed.

Lemma digit_char_decimal (d : Z) :
  (0 <= d < 10)%Z -> is_decimal_digit (digit_char d) = true.
Proof.
  intros Hd. unfold is_decimal_digit, digit_char.
  rewrite nat_ascii_embedding by lia.
  apply andb_true_iff. split; apply Nat.leb_le; lia.
Qed.

Lemma digits_fuel_decimal (fuel : nat) (n : Z) (acc : string) :
  string_forallb is_decimal_digit acc = true ->
  string_forallb is_decimal_digit (digits_fuel fuel n acc) = true.
Proof.
  revert n acc. induction fuel as [ | f IH]; intros n acc Hacc; simpl;
    [assumption | ].
  assert (Hd : string_forallb is_decimal_digit
                 (String (digit_char (n mod 10)) acc) = true).
  { cbn [string_forallb]. rewrite Hacc, digit_char_decimal; [reflexivity | ].
    apply Z.mod_pos_bound. lia. }
  destruct (n <? 10)%Z; [exact Hd | now apply IH].
Qed.

Lemma digits_fuel_length_ge (fuel : nat) (n : Z) (acc : string) :
  String.length acc <= String.length (digits_fuel fuel n acc).
Proof.
  revert n acc. induction fuel as [ | f IH]; intros n acc; simpl; [lia | ].
  destruct (n <? 10)%Z; simpl; [lia | ].
  specialize (IH (n / 10)%Z (String (digit_char (n mod 10)) acc)).
  simpl in IH. lia.
Qed.

Lemma digits_fuel_length_pow (k fuel : nat) (n : Z) (acc : string) :
  (10 ^ Z.of_nat k <= n)%Z -> k < fuel ->
  k + 1 + String.length acc <= String.length (digits_fuel fuel n acc).
Proof.
  revert fuel n acc. induction k as [ | k IH]; intros fuel n acc Hn Hk.
  - destruct fuel as [ | f]; [lia | ]. simpl.
    destruct (n <? 10)%Z; simpl; [lia | ].
    pose proof (digits_fuel_length_ge f (n / 10)
                  (String (digit_char (n mod 10)) acc)) as H.
    simpl in H. lia.
  - destruct fuel as [ | f]; [lia | ]. simpl.
    rewrite Nat2Z.inj_succ, Z.pow_succ_r in Hn by lia.
    assert (H10 : (10 <= n)%Z).
    { assert (0 < 10 ^ Z.of_nat k)%Z by (apply Z.pow_pos_nonneg; lia). lia. }
    destruct (Z.ltb_spec n 10) as [Hlt | _]; [lia | ].
    assert (Hdiv : (10 ^ Z.of_nat k <= n / 10)%Z).
    { apply Z.div_le_lower_bound; lia. }
    specialize (IH f (n / 10)%Z (String (digit_char (n mod 10)) acc) Hdiv).
    simpl in IH. lia.
Qed.

Lemma Z_toString_decimal (z : Z) :
  (0 <= z)%Z -> string_forallb is_decimal_digit (Z_toString z) = true.
Proof.
  intros Hz. unfold Z_toString.
  destruct (Z.ltb_spec z 0) as [Hneg | _]; [lia | ].
  now apply digits_fuel_decimal.
Qed.

Lemma Z_toString_six_digits (z : Z) :
  (100000 <= z)%Z -> 6 <= String.length (Z_toString z).
Proof.
  intros Hz. unfold Z_toString.
  destruct (Z.ltb_spec z 0) as [Hneg | _]; [lia | ].
  unfold decimal_digits.
  pose proof (@digits_fuel_length_pow 5 (S (Z.to_nat (Z.log2 z))) z EmptyString) as H.
  simpl String.length in H.
  assert (Hlog : (16 <= Z.log2 z)%Z).
  { change 16%Z with (Z.log2 100000). now apply Z.log2_le_mono. }
  apply H; [ | lia].
  change (10 ^ Z.of_nat 5)%Z with 100000%Z. exact Hz.
Qed.

Lemma timestamp_six_digits (now : Z) :
  (100000 <= now)%Z ->
  String.length (js_slice_last 6 (Z_toString now)) = 6 /\
  string_forallb is_decimal_digit (js_slice_last 6 (Z_toString now)) = true.
Proof.
  intros Hnow. pose proof (Z_toString_six_digits Hnow) as Hlen.
  unfold js_slice_last. split.
  - apply substring_length_exact. lia.
  - apply substring_forallb, Z_toString_decimal. lia.
Qed.

Lemma digit36_upper (d : Digit36) :
  is_upper_base36 (upper_ascii (digit36_char d)) = true.
Proof.
  destruct d as [n Hn]. unfold digit36_char. cbn [dval].
  apply Nat.ltb_lt in Hn.
  do 36 (destruct n as [ | n]; [reflexivity | ]). lia.
Qed.

Lemma digits36_upper (f : Fraction36) :
  string_forallb is_upper_base36 (toUpperCase (string_of_digits36 f)) = true.
Proof.
  induction f as [ | d f IH]; [reflexivity | ].
  cbn [string_of_digits36 toUpperCase string_forallb].
  now rewrite digit36_upper, IH.
Qed.

Lemma toUpperCase_substring (n m : nat) (s : string) :
  toUpperCase (substring n m s) = substring n m (toUpperCase s).
Proof.
  revert n m. induction s as [ | c s IH]; intros [ | n] [ | m]; simpl;
    try reflexivity.
  - now rewrite IH.
  - apply IH.
  - apply IH.
Qed.

Lemma random_fragment (r : Fraction36) :
  let frag := toUpperCase (js_substring 2 6 (toString36 r)) in
  String.length frag <= 4 /\ string_forallb is_upper_base36 frag = true.
Proof.
  cbv zeta. unfold js_substring. split.
  - rewrite toUpperCase_length. apply substring_length_le.
  - destruct r as [ | d r]; [reflexivity | ].
    unfold toString36.
    change (toUpperCase (substring 2 (6 - 2) ("0." ++ string_of_digits36 (d :: r))))
      with (toUpperCase (substring 0 4 (string_of_digits36 (d :: r)))).
    rewrite toUpperCase_substring. apply substring_forallb, digits36_upper.
Qed.

End TrackingNumber.

Section TrackingDigits.

Local Open Scope nat_scope.

Lemma substring_length (n m : nat) (s : string) :
  String.length (substring n m s) = Nat.min m (String.length s - n).
Proof.
  revert n m. induction s as [ | c s IH]; intros [ | n] [ | m]; simpl;
    try reflexivity.
  - rewrite (IH 0 m). now rewrite Nat.sub_0_r.
  - apply (IH n 0).
  - apply (IH n (S m)).
Qed.

Lemma string_forallb_weaken (p q : ascii -> bool) (s : string) :
  (forall c, p c = true -> q c = true) ->
  string_forallb p s = true -> string_forallb q s = true.
Proof.
  intros Hpq. induction s as [ | c s IH]; simpl; [reflexivity | ].
  intros H. apply andb_true_iff in H as [Hc Hs].
  now rewrite (Hpq c Hc), IH.
Qed.

Lemma decimal_is_base36 (c : ascii) :
  is_decimal_digit c = true -> is_upper_base36 c = true.
Proof. unfold is_decimal_digit, is_upper_base36. now intros ->. Qed.

Lemma string_app_assoc (s t u : string) :
  ((s ++ t) ++ u = s ++ (t ++ u))%string.
Proof. induction s as [ | c s IH]; simpl; [reflexivity | now rewrite IH]. Qed.

Lemma string_app_split (s1 s2 t1 t2 : string) :
  String.length s1 = String.length s2 ->
  (s1 ++ t1 = s2 ++ t2)%string -> s1 = s2 /\ t1 = t2.
Proof.
  revert s2. induction s1 as [ | c s1 IH]; intros [ | c2 s2] Hlen Heq;
    simpl in *; try discriminate.
  - now split.
  - injection Heq as -> Heq. injection Hlen as Hlen.
    destruct (IH s2 Hlen Heq) as [-> ->]. now split.
Qed.

Lemma substring_suffix (pre suf : string) :
  substring (String.length pre) (String.length suf) (pre ++ suf)%string = suf.
Proof.
  induction pre as [ | c pre IH]; simpl; [ | exact IH].
  induction suf as [ | c suf IH]; simpl; [reflexivity | now rewrite IH].
Qed.

Lemma js_slice_last_suffix (pre suf : string) :
  js_slice_last (String.length suf) (pre ++ suf)%string = suf.
Proof.
  unfold js_slice_last. rewrite string_length_app.
  replace (String.length pre + String.length suf - String.length suf)
    with (String.length pre) by lia.
  apply substring_suffix.
Qed.

Lemma digits_fuel_prefix (fuel : nat) (n : Z) (acc : string) :
  exists pre, digits_fuel fuel n acc = (pre ++ acc)%string.
Proof.
  revert n acc. induction fuel as [ | f IH]; intros n acc; simpl.
  - now exists EmptyString.
  - destruct (n <? 10)%Z.
    + now exists (String (digit_char (n mod 10)) EmptyString).
    + destruct (IH (n / 10)%Z (String (digit_char (n mod 10)) acc)) as [pre ->].
      exists (pre ++ String (digit_char (n mod 10)) EmptyString)%string.
      now rewrite string_app_assoc.
Qed.

Lemma padded_digits_acc (k : nat) (n : Z) (acc : string) :
  padded_digits k n acc = (padded_digits k n EmptyString ++ acc)%string.
Proof.
  revert n acc. induction k as [ | k IH]; intros n acc; simpl; [reflexivity | ].
  rewrite (IH (n / 10)%Z (String _ acc)),
          (IH (n / 10)%Z (String _ EmptyString)).
  now rewrite string_app_assoc.
Qed.

Lemma padded_digits_length (k : nat) (n : Z) :
  String.length (padded_digits k n EmptyString) = k.
Proof.
  revert n. induction k as [ | k IH]; intros n; simpl; [reflexivity | ].
  rewrite padded_digits_acc, string_length_app, IH. simpl. lia.
Qed.

Lemma digits_fuel_padded (k fuel : nat) (n : Z) (acc : string) :
  (10 ^ Z.of_nat k <= n)%Z -> k < fuel ->
  exists pre, digits_fuel fuel n acc = (pre ++ padded_digits (S k) n acc)%string.
Proof.
  revert fuel n acc. induction k as [ | k IH]; intros fuel n acc Hn Hk.
  - destruct fuel as [ | f]; [lia | ]. simpl.
    destruct (n <? 10)%Z; [now exists EmptyString | ].
    apply digits_fuel_prefix.
  - destruct fuel as [ | f]; [lia | ].
    assert (Hpow : (10 ^ Z.of_nat (S k) = 10 * 10 ^ Z.of_nat k)%Z).
    { rewrite Nat2Z.inj_succ, Z.pow_succ_r by lia. reflexivity. }
    assert (Hpos : (0 < 10 ^ Z.of_nat k)%Z) by (apply Z.pow_pos_nonneg; lia).
    cbn [digits_fuel].
    destruct (Z.ltb_spec n 10) as [Hlt | Hge]; [lia | ].
    assert (Hdiv : (10 ^ Z.of_nat k <= n / 10)%Z).
    { apply Z.div_le_lower_bound; lia. }
    destruct (IH f (n / 10)%Z (String (digit_char (n mod 10)) acc) Hdiv)
      as [pre Hpre]; [lia | ].
    exists pre. rewrite Hpre. reflexivity.
Qed.

Lemma mod_pow10_step (k : nat) (n m : Z) :
  (n mod 10 ^ Z.of_nat (S k) = m mod 10 ^ Z.of_nat (S k) <->
   n mod 10 = m mod 10 /\
   (n / 10) mod 10 ^ Z.of_nat k = (m / 10) mod 10 ^ Z.of_nat k)%Z.
Proof.
  assert (Hpos : (0 < 10 ^ Z.of_nat k)%Z) by (apply Z.pow_pos_nonneg; lia).
  rewrite Nat2Z.inj_succ, Z.pow_succ_r by lia.
  rewrite !Z.rem_mul_r by lia.
  pose proof (Z.mod_pos_bound n 10 ltac:(lia)).
  pose proof (Z.mod_pos_bound m 10 ltac:(lia)).
  lia.
Qed.

Lemma digit_char_inj (a b : Z) :
  (0 <= a < 10)%Z -> (0 <= b < 10)%Z -> digit_char a = digit_char b -> a = b.
Proof.
  intros Ha Hb H. unfold digit_char in H.
  apply (f_equal nat_of_ascii) in H.
  rewrite !nat_ascii_embedding in H by lia. lia.
Qed.

Lemma padded_digits_same (k : nat) (n m : Z) (acc : string) :
  (n mod 10 ^ Z.of_nat k = m mod 10 ^ Z.of_nat k)%Z ->
  padded_digits k n acc = padded_digits k m acc.
Proof.
  revert n m acc. induction k as [ | k IH]; intros n m acc H;
    [reflexivity | ].
  apply mod_pow10_step in H as [H0 H1]. cbn [padded_digits].
  rewrite H0. now apply IH.
Qed.

Lemma padded_digits_inj (k : nat) (n m : Z) :
  padded_digits k n EmptyString = padded_digits k m EmptyString ->
  (n mod 10 ^ Z.of_nat k = m mod 10 ^ Z.of_nat k)%Z.
Proof.
  revert n m. induction k as [ | k IH]; intros n m H.
  - now rewrite !Z.mod_1_r.
  - cbn [padded_digits] in H.
    rewrite (padded_digits_acc k (n / 10)), (padded_digits_acc k (m / 10)) in H.
    apply string_app_split in H as [Hhi Hlo];
      [ | now rewrite !padded_digits_length].
    apply mod_pow10_step. split; [ | now apply IH].
    injection Hlo as Hlo.
    apply digit_char_inj; [apply Z.mod_pos_bound; lia .. | exact Hlo].
Qed.

Lemma decimal_digits_nonempty (n : Z) : 1 <= String.length (decimal_digits n).
Proof.
  unfold decimal_digits. cbn [digits_fuel].
  destruct (n <? 10)%Z; [simpl; lia | ].
  pose proof (digits_fuel_length_ge (Z.to_nat (Z.log2 n)) (n / 10)
                (String (digit_char (n mod 10)) EmptyString)) as H.
  simpl in H. exact H.
Qed.

Lemma timestamp_padded (now : Z) :
  (100000 <= now)%Z ->
  js_slice_last 6 (Z_toString now) = padded_digits 6 now EmptyString.
Proof.
  intros Hnow. unfold Z_toString.
  destruct (Z.ltb_spec now 0) as [Hneg | _]; [lia | ].
  unfold decimal_digits.
  assert (Hlog : (16 <= Z.log2 now)%Z).
  { change 16%Z with (Z.log2 100000). now apply Z.log2_le_mono. }
  destruct (@digits_fuel_padded 5 (S (Z.to_nat (Z.log2 now))) now EmptyString)
    as [pre Hpre]; [exact Hnow | lia | ].
  rewrite Hpre.
  rewrite <- (padded_digits_length 6 now) at 1.
  apply js_slice_last_suffix.
Qed.

Lemma substring_digits36 (n : nat) (f : Fraction36) :
  substring 0 n (string_of_digits36 f) = string_of_digits36 (firstn n f).
Proof.
  revert n. induction f as [ | d f IH]; intros [ | n]; simpl; try reflexivity.
  now rewrite IH.
Qed.

Lemma random_part_digits (r : Fraction36) :
  random_part r = toUpperCase (string_of_digits36 (firstn 4 r)).
Proof.
  unfold random_part, js_substring. destruct r as [ | d r]; [reflexivity | ].
  change (substring 2 (6 - 2) (toString36 (d :: r)))
    with (substring 0 4 (string_of_digits36 (d :: r))).
  now rewrite substring_digits36.
Qed.

Lemma base36_value_digit (d : Digit36) :
  base36_value (upper_ascii (digit36_char d)) = dval d.
Proof.
  destruct d as [n Hn]. unfold digit36_char. cbn [dval].
  apply Nat.ltb_lt in Hn.
  do 36 (destruct n as [ | n]; [reflexivity | ]). lia.
Qed.

Lemma digits36_same (l1 l2 : Fraction36) :
  toUpperCase (string_of_digits36 l1) = toUpperCase (string_of_digits36 l2)
  <-> List.map dval l1 = List.map dval l2.
Proof.
  revert l2. induction l1 as [ | d1 l1 IH]; intros [ | d2 l2]; simpl;
    split; intros H; try reflexivity; try discriminate.
  - injection H as Hc Hs. apply (f_equal base36_value) in Hc.
    rewrite !base36_value_digit in Hc. f_equal; [exact Hc | now apply IH].
  - injection H as Hc Hs. apply IH in Hs. rewrite Hs.
    unfold digit36_char. now rewrite Hc.
Qed.

(** A call at a clock of six or more digits, in full. *)
Lemma generateTrackingNumber_run (w : World) :
  (100000 <= clock w)%Z ->
  generateTrackingNumber w
  = (Ret ("KOC" ++ padded_digits 6 (clock w) EmptyString
          ++ random_part (rand_seq w (rand_pos w)))%string,
     mkWorld (console w) (network w) (leaflet_layers w) (clock w) (rand_seq w)
             (S (rand_pos w))).
Proof.
  intros Hnow. unfold generateTrackingNumber, bind, Date_now, Math_random, ret.
  cbn [clock rand_seq rand_pos].
  now rewrite timestamp_padded.
Qed.

Lemma string_of_digits36_length (f : Fraction36) :
  String.length (string_of_digits36 f) = List.length f.
Proof. induction f as [ | d f IH]; simpl; [reflexivity | now rewrite IH]. Qed.

Lemma padded_six (now : Z) :
  padded_digits 6 now EmptyString = last_six_digits now.
Proof.
  unfold last_six_digits. cbn [padded_digits].
  rewrite !Z.div_div by lia. reflexivity.
Qed.

Lemma last_six_digits_decimal (now : Z) :
  String.length (last_six_digits now) = 6 /\
  string_forallb is_decimal_digit (last_six_digits now) = true.
Proof.
  split; [reflexivity | ].
  unfold last_six_digits. cbn [string_forallb].
  rewrite !digit_char_decimal by (apply Z.mod_pos_bound; lia).
  reflexivity.
Qed.

End TrackingDigits.

(** C10 (as the code has it).  When the clock reads at least 100000 ms (a
    timestamp of six or more digits), [generateTrackingNumber] returns "KOC",
    then exactly the last six decimal digits of that timestamp (the digits
    of the hundred-thousands down to the units of [Date.now()]), then an
    upper-case base-36 fragment of at most four characters: between 9 and 13
    characters in all. *)
Theorem generateTrackingNumber_shape (w : World) :
  (100000 <= clock w)%Z ->
  exists s w',
    generateTrackingNumber w = (Ret s, w') /\
    tracking_shape (clock w) s /\
    String.length (last_six_digits (clock w)) = 6%nat /\
    string_forallb is_decimal_digit (last_six_digits (clock w)) = true /\
    (9 <= String.length s <= 13)%nat.
Proof.
  intros Hclock.
  destruct (random_fragment (rand_seq w (rand_pos w))) as [Hflen Hfup].
  destruct (last_six_digits_decimal (clock w)) as [Hlen Hdig].
  rewrite (@generateTrackingNumber_run w Hclock), padded_six.
  do 2 eexists. split; [reflexivity | ]. split.
  - eexists. repeat split; eassumption.
  - split; [exact Hlen | ]. split; [exact Hdig | ].
    rewrite !string_length_app, Hlen. unfold random_part. simpl String.length.
    cbv zeta in Hflen. lia.
Qed.

Lemma generateTrackingNumber_shape_witness :
  (100000 <= clock sample_world)%Z /\
  exists s w',
    generateTrackingNumber sample_world = (Ret s, w') /\
    tracking_shape (clock sample_world) s /\
    String.length (last_six_digits (clock sample_world)) = 6%nat /\
    string_forallb is_decimal_digit (last_six_digits (clock sample_world)) = true /\
    (9 <= String.length s <= 13)%nat.
Proof.
  assert (H : (100000 <= clock sample_world)%Z) by (vm_compute; discriminate).
  split; [exact H | exact (generateTrackingNumber_shape sample_world H)].
Defined.

Example generateTrackingNumber_sample :
  fst (generateTrackingNumber sample_world) = Ret "KOC000123AZ07"%string /\
  last_six_digits (clock sample_world) = "000123"%string.
Proof. split; vm_compute; reflexivity. Qed.

(** C10 (as claimed) fails for a clock below 100000 ms: five milliseconds
    after the epoch the result is "KOC5", four characters long, with one
    digit of the timestamp and not six. *)
Lemma generateTrackingNumber_short_clock :
  fst (generateTrackingNumber epoch_world) = Ret "KOC5"%string /\
  ~ tracking_shape (clock epoch_world) "KOC5"%string /\
  (forall now, ~ tracking_shape now "KOC5"%string) /\
  ~ (9 <= String.length "KOC5"%string)%nat.
Proof.
  assert (Hno : forall now, ~ tracking_shape now "KOC5"%string).
  { intros now (frag & Heq & _).
    apply (f_equal String.length) in Heq.
    rewrite !string_length_app in Heq.
    rewrite (proj1 (last_six_digits_decimal now)) in Heq. simpl in Heq. lia. }
  split; [vm_compute; reflexivity | ]. split; [apply Hno | ].
  split; [exact Hno | ]. simpl. lia.
Qed.

(* ------------------------------------------------------------------ *)
(** ** [getOSRMRoute] on an arbitrary argument *)
(* ------------------------------------------------------------------ *)

Section DynamicRoute.

Variable rt : JSRuntime.

Lemma coord_text_indexable (c : JSVal) :
  indexable c = true -> Dynamic.coord_text rt c = Ret (entry_text rt c).
Proof.
  unfold entry_text, Dynamic.coord_text.
  destruct c; try discriminate; intros _; cbn [get_index bindO];
    try reflexivity.
  destruct (String.get 1 s); destruct (String.get 0 s); reflexivity.
Qed.

Lemma coord_text_nullish (c : JSVal) :
  indexable c = false -> Dynamic.coord_text rt c = Thrown TypeError.
Proof. destruct c; try discriminate; reflexivity. Qed.

Lemma map_coord_text (items : list JSVal) :
  forallb indexable items = true ->
  map_outcome (Dynamic.coord_text rt) items = Ret (map (entry_text rt) items).
Proof.
  induction items as [ | c items IH]; cbn [forallb map_outcome map];
    [reflexivity | ].
  intros H. apply andb_true_iff in H as [Hc Hrest].
  now rewrite (coord_text_indexable c Hc), (IH Hrest).
Qed.

Lemma map_coord_text_throws (items : list JSVal) :
  forallb indexable items = false ->
  map_outcome (Dynamic.coord_text rt) items = Thrown TypeError.
Proof.
  induction items as [ | c items IH]; cbn [forallb map_outcome];
    [discriminate | ].
  destruct (indexable c) eqn:Hc.
  - rewrite (coord_text_indexable c Hc). cbn [andb]. intros H.
    now rewrite (IH H).
  - intros _. now rewrite (coord_text_nullish c Hc).
Qed.

Lemma js_lt_length (n : nat) :
  Dynamic.js_lt rt (JNum (INR n)) 2 = (n <? 2)%nat.
Proof.
  unfold Dynamic.js_lt, ToNumber.
  destruct (Nat.ltb_spec n 2) as [Hlt | Hge];
    destruct (Rlt_dec (INR n) 2) as [Hr | Hr]; try reflexivity; exfalso.
  - apply Hr. change 2%R with (INR 2). now apply lt_INR.
  - change 2%R with (INR 2) in Hr. apply INR_lt in Hr. lia.
Qed.

(** A call on an array, in full. *)
Lemma dynamic_array_short (items : list JSVal) (w : World) :
  (List.length items < 2)%nat ->
  Dynamic.getOSRMRoute rt (JArr items) w = (Ret None, w).
Proof.
  intros Hlen. unfold Dynamic.getOSRMRoute, bind, lift, ret.
  cbn [truthy negb get_prop]. change (String.eqb "length" "length") with true.
  cbv iota. rewrite js_lt_length.
  destruct (Nat.ltb_spec (List.length items) 2); [reflexivity | lia].
Qed.

Lemma dynamic_array_run (items : list JSVal) (w : World) :
  (2 <= List.length items)%nat -> forallb indexable items = true ->
  Dynamic.getOSRMRoute rt (JArr items) w
  = (Ret (osrm_answer rt (network w (request_url rt items))),
     match osrm_caught rt (network w (request_url rt items)) with
     | Some e => with_logs w [osrm_error_entry e]
     | None => w
     end).
Proof.
  intros Hlen Hall. unfold Dynamic.getOSRMRoute, bind, lift.
  cbn [truthy negb get_prop]. change (String.eqb "length" "length") with true.
  cbv iota. rewrite js_lt_length.
  destruct (Nat.ltb_spec (List.length items) 2) as [Hlt | _]; [lia | ].
  unfold Dynamic.coordString. rewrite (map_coord_text items Hall).
  cbn [bindO]. fold (request_url rt items).
  unfold try_catch, fetch_json, bind, lift, ret, console_log, osrm_answer,
    osrm_caught.
  destruct (network w (request_url rt items)) as [ | | data]; try reflexivity.
  destruct (osrm_response_ok rt data) as [[ | ] | e]; try reflexivity.
  destruct (osrm_result rt data) as [r | e]; reflexivity.
Qed.

Lemma dynamic_array_throws (items : list JSVal) (w : World) :
  (2 <= List.length items)%nat -> forallb indexable items = false ->
  Dynamic.getOSRMRoute rt (JArr items) w = (Thrown TypeError, w).
Proof.
  intros Hlen Hsome. unfold Dynamic.getOSRMRoute, bind, lift.
  cbn [truthy negb get_prop]. change (String.eqb "length" "length") with true.
  cbv iota. rewrite js_lt_length.
  destruct (Nat.ltb_spec (List.length items) 2) as [Hlt | _]; [lia | ].
  unfold Dynamic.coordString. now rewrite (map_coord_text_throws items Hsome).
Qed.

(** The typed reading used elsewhere in this development is the dynamic
    one on a list of pairs of numbers, and on a missing argument. *)
Lemma entry_text_coord (c : Coord) :
  entry_text rt (js_of_coord c)
  = (NumberToString rt (snd c) ++ "," ++ NumberToString rt (fst c))%string.
Proof. reflexivity. Qed.

Lemma request_url_coords (coords : list Coord) :
  request_url rt (map js_of_coord coords) = osrm_url rt coords.
Proof.
  unfold request_url, osrm_url, Dynamic.osrm_url, coordString.
  now rewrite map_map.
Qed.

Lemma dynamic_typed_agree (coords : list Coord) (w : World) :
  Dynamic.getOSRMRoute rt (JArr (map js_of_coord coords)) w
  = getOSRMRoute rt (Some coords) w /\
  Dynamic.getOSRMRoute rt JNull w = getOSRMRoute rt None w /\
  Dynamic.getOSRMRoute rt JUndefined w = getOSRMRoute rt None w.
Proof.
  split; [ | split; reflexivity].
  destruct (Nat.ltb_spec (List.length coords) 2) as [Hlt | Hge].
  - rewrite dynamic_array_short by now rewrite length_map.
    now rewrite getOSRMRoute_short.
  - rewrite dynamic_array_run.
    + rewrite request_url_coords. symmetry.
      unfold getOSRMRoute.
      destruct (Nat.ltb_spec (List.length coords) 2) as [Hlt | _]; [lia | ].
      unfold bind, try_catch, fetch_json, lift, ret, console_log, osrm_answer,
        osrm_caught, with_logs, osrm_error_entry.
      destruct (network w (osrm_url rt coords)) as [ | | data]; try reflexivity.
      destruct (osrm_response_ok rt data) as [[ | ] | e]; try reflexivity.
      destruct (osrm_result rt data) as [r | e]; reflexivity.
    + now rewrite length_map.
    + clear Hge. induction coords as [ | c coords IH]; [reflexivity | exact IH].
Qed.

End DynamicRoute.

(** C9 (as the code has it).  [getOSRMRoute] returns [null], without any
    request, when the argument is missing (falsy) and when its [length] is
    below two.  Called with an array of two or more entries none of which is
    [null] or [undefined], it never throws: it returns [null] when the
    request or the JSON parsing fails and when the answer's code is not 'Ok'
    or it has no routes, and on a successful answer it returns the distance
    divided by 1000 (metres to kilometres) and every position turned from
    [[lng, lat]] into [[lat, lng]].  The building of the URL stands before
    the [try] block: a truthy argument whose [length] is not below two and
    that is not an array, or an array with a [null] or [undefined] entry,
    makes the call throw a TypeError to its caller, with nothing logged. *)
Theorem getOSRMRoute_contract (rt : JSRuntime) (coordinates : JSVal) (w : World) :
  (truthy coordinates = false ->
     Dynamic.getOSRMRoute rt coordinates w = (Ret None, w)) /\
  (forall len, get_prop coordinates "length" = Ret len ->
     Dynamic.js_lt rt len 2 = true ->
     Dynamic.getOSRMRoute rt coordinates w = (Ret None, w)) /\
  (forall items, coordinates = JArr items ->
     ((List.length items < 2)%nat ->
        Dynamic.getOSRMRoute rt coordinates w = (Ret None, w)) /\
     ((2 <= List.length items)%nat -> forallb indexable items = true ->
        let answer := network w (request_url rt items) in
        (exists r, fst (Dynamic.getOSRMRoute rt coordinates w) = Ret r) /\
        (answer = FetchRejects \/ answer = BodyNotJson ->
           fst (Dynamic.getOSRMRoute rt coordinates w) = Ret None) /\
        (forall data, answer = BodyJson data ->
           ~ response_code_ok data \/ response_has_no_routes data ->
           fst (Dynamic.getOSRMRoute rt coordinates w) = Ret None) /\
        (forall data positions metres dur, answer = BodyJson data ->
           response_success data positions metres dur ->
           fst (Dynamic.getOSRMRoute rt coordinates w)
           = Ret (Some (mkOSRMRoute (map to_leaflet positions)
                                    (JNum (metres / 1000)) dur)))) /\
     ((2 <= List.length items)%nat -> forallb indexable items = false ->
        Dynamic.getOSRMRoute rt coordinates w = (Thrown TypeError, w))) /\
  (truthy coordinates = true ->
   (forall items, coordinates <> JArr items) ->
   forall len, get_prop coordinates "length" = Ret len ->
     Dynamic.js_lt rt len 2 = false ->
     Dynamic.getOSRMRoute rt coordinates w = (Thrown TypeError, w)).
Proof.
  split.
  { intros Hf. unfold Dynamic.getOSRMRoute. now rewrite Hf. }
  split.
  { intros len Hlen Hlt. unfold Dynamic.getOSRMRoute, bind, lift, ret.
    destruct (truthy coordinates); [ | reflexivity].
    cbn [negb]. now rewrite Hlen, Hlt. }
  split.
  { intros items ->. split; [apply dynamic_array_short | ]. split.
    - intros Hlen Hall answer. subst answer.
      rewrite (@dynamic_array_run rt items w Hlen Hall). cbn [fst].
      split; [eexists; reflexivity | ]. split.
      + intros [-> | ->]; reflexivity.
      + split.
        * intros data -> [Hc | Hr]; f_equal.
          -- now apply osrm_answer_not_ok.
          -- now apply osrm_answer_no_routes.
        * intros data positions metres dur -> Hs. f_equal.
          now apply osrm_answer_success.
    - apply dynamic_array_throws. }
  intros Ht Hnot len Hlen Hlt.
  unfold Dynamic.getOSRMRoute, bind, lift. rewrite Ht. cbn [negb].
  rewrite Hlen, Hlt. unfold Dynamic.coordString.
  destruct coordinates; try reflexivity. now destruct (Hnot items).
Qed.

Lemma getOSRMRoute_contract_witness :
  fst (Dynamic.getOSRMRoute plain_runtime (JArr (map js_of_coord izmit_gebze))
         online_world)
  = Ret (Some (mkOSRMRoute
                 [JArr [JNum (407656 / 10000); JNum (299406 / 10000)];
                  JArr [JNum (408027 / 10000); JNum (294307 / 10000)]]
                 (JNum (48500 / 1000)) (JNum 2400))) /\
  Dynamic.getOSRMRoute plain_runtime JNull online_world = (Ret None, online_world) /\
  Dynamic.getOSRMRoute plain_runtime (JStr "x") online_world
  = (Ret None, online_world) /\
  Dynamic.getOSRMRoute plain_runtime (JBool true) online_world
  = (Thrown TypeError, online_world).
Proof.
  split; [ | split; [ | split]].
  - destruct (getOSRMRoute_contract plain_runtime
                (JArr (map js_of_coord izmit_gebze)) online_world)
      as (_ & _ & H & _).
    destruct (H (map js_of_coord izmit_gebze) eq_refl) as (_ & Hlong & _).
    destruct (Hlong (le_n 2) eq_refl) as (_ & _ & _ & Hok).
    exact (Hok sample_answer _ _ _ eq_refl sample_answer_success).
  - exact (proj1 (getOSRMRoute_contract plain_runtime JNull online_world) eq_refl).
  - apply (proj1 (proj2 (getOSRMRoute_contract plain_runtime (JStr "x")
                           online_world)) (JNum (INR 1)) eq_refl).
    apply (js_lt_length plain_runtime 1).
  - apply (proj2 (proj2 (proj2 (getOSRMRoute_contract plain_runtime (JBool true)
                                  online_world))) eq_refl)
      with (len := JUndefined); [discriminate | reflexivity | reflexivity].
Defined.

(** C9 (as claimed) fails: on a list whose second point is [null] the call
    throws a TypeError to its caller, from [coordinates.map] ahead of the
    [try] block, even where the server would answer with a route, and logs
    nothing. *)
Lemma getOSRMRoute_rejects_null_entry :
  Dynamic.getOSRMRoute plain_runtime pair_and_null online_world
  = (Thrown TypeError, online_world) /\
  ~ (exists r,
       fst (Dynamic.getOSRMRoute plain_runtime pair_and_null online_world)
       = Ret r).
Proof.
  assert (H : Dynamic.getOSRMRoute plain_runtime pair_and_null online_world
              = (Thrown TypeError, online_world)).
  { apply dynamic_array_throws; [cbn; lia | reflexivity]. }
  split; [exact H | ]. rewrite H. intros [r Hr]. discriminate.
Qed.

(* ------------------------------------------------------------------ *)
(** ** [haversineDistance] over exact reals and over doubles *)
(* ------------------------------------------------------------------ *)

Section DoubleArithmetic.

Import PrimFloat SpecFloat FloatOps FloatAxioms.

Lemma SFcompare_same (s : spec_float) :
  s <> S754_nan -> SFcompare s s = Some Eq.
Proof.
  destruct s as [sg | sg | | sg m e]; intros Hs; cbn [SFcompare].
  - reflexivity.
  - now destruct sg.
  - now destruct Hs.
  - rewrite Z.compare_refl.
    assert (Hm : Pos.compare_cont Eq m m = Eq) by apply Pos.compare_cont_refl.
    destruct sg; rewrite Hm; reflexivity.
Qed.

Lemma is_nan_Prim2SF (x : float) :
  is_nan x = true <-> Prim2SF x = S754_nan.
Proof.
  unfold is_nan. rewrite eqb_spec. unfold SFeqb. split.
  - intros H. destruct (Prim2SF x) as [sg | sg | | sg m e] eqn:Hx;
      try reflexivity; exfalso;
      rewrite SFcompare_same in H by discriminate; discriminate.
  - intros ->. reflexivity.
Qed.

Lemma is_nan_mul_r (k x : float) :
  is_nan x = true -> is_nan (PrimFloat.mul k x) = true.
Proof.
  rewrite !is_nan_Prim2SF, mul_spec. intros ->. unfold SF64mul.
  destruct (Prim2SF k); reflexivity.
Qed.

End DoubleArithmetic.

Section Antipodes.

Local Open Scope R_scope.

(** The formula at a pair of antipodes is half the circumference. *)
Lemma great_circle_antipodes (lat : R) :
  great_circle_km (- lat) (-180) lat 0 = 6371 * PI.
Proof.
  unfold great_circle_km, earth_radius_km. cbv zeta.
  replace (radians lat - radians (- lat)) with (2 * radians lat)
    by (unfold radians; ring).
  replace (radians 0 - radians (-180)) with PI by (unfold radians; field).
  replace (cos (radians (- lat))) with (cos (radians lat))
    by (rewrite <- cos_neg; f_equal; unfold radians; ring).
  unfold hav. replace (2 * radians lat / 2) with (radians lat) by field.
  rewrite sin_PI2.
  pose proof (sin2_cos2 (radians lat)) as H. unfold Rsqr in *.
  replace (sin (radians lat) * sin (radians lat)
           + cos (radians lat) * cos (radians lat) * (1 * 1)) with 1 by lra.
  rewrite sqrt_1, asin_1. field.
Qed.

End Antipodes.

(** C2 (as the code has it).  Over exact real arithmetic the body of
    [haversineDistance] is the standard Haversine formula with Earth radius
    6371 km, for every pair of coordinates.  A call is a pure function of
    its four arguments, whatever the arithmetic: it returns the value of
    the body and leaves the world as it was.  Over the doubles of the
    engine the value is the same expression under rounding, and it is NaN
    as soon as rounding has put the term [a] above 1, so that [1 - a] is
    below zero: [Math.sqrt] then gives NaN and NaN goes through
    [Math.atan2] and the two products. *)
Theorem haversineDistance_pure_great_circle :
  (forall lat1 lon1 lat2 lon2 : R,
     haversineDistance_in exact_arithmetic lat1 lon1 lat2 lon2
     = great_circle_km lat1 lon1 lat2 lon2) /\
  (forall (A : Arithmetic) (lat1 lon1 lat2 lon2 : number A) (w : World),
     haversineDistance_call A lat1 lon1 lat2 lon2 w
     = (Ret (haversineDistance_in A lat1 lon1 lat2 lon2), w)) /\
  (forall (m : Double.MathLibrary) (lat1 lon1 lat2 lon2 : PrimFloat.float),
     Double.ecma_library m ->
     PrimFloat.ltb
       (PrimFloat.sub (PrimFloat.of_uint63 (Uint63.of_Z 1))
                      (Double.haversine_a m lat1 lon1 lat2 lon2))
       (PrimFloat.of_uint63 (Uint63.of_Z 0))
     = true ->
     PrimFloat.is_nan (Double.haversineDistance m lat1 lon1 lat2 lon2) = true).
Proof.
  split; [ | split].
  - intros lat1 lon1 lat2 lon2.
    change (haversineDistance_in exact_arithmetic lat1 lon1 lat2 lon2)
      with (haversineDistance lat1 lon1 lat2 lon2).
    apply haversineDistance_formula.
  - reflexivity.
  - intros m lat1 lon1 lat2 lon2 Hm Hneg.
    unfold Double.haversineDistance, haversineDistance_in. cbv zeta.
    cbn [Double.arithmetic num_mul num_atan2 num_sqrt num_sub literal].
    apply is_nan_mul_r, is_nan_mul_r.
    apply (Double.atan2_of_nan Hm). right.
    apply (Double.sqrt_below_zero Hm). exact Hneg.
Qed.

Lemma table_library_ecma : Double.ecma_library Double.table_library.
Proof.
  split.
  - intros x Hx. cbn [Double.table_library Double.lib_sqrt].
    apply is_nan_Prim2SF. rewrite FloatAxioms.sqrt_spec.
    rewrite FloatAxioms.ltb_spec in Hx. unfold SpecFloat.SFltb in Hx.
    change (FloatOps.Prim2SF (PrimFloat.of_uint63 (Uint63.of_Z 0))) with (SpecFloat.S754_zero false) in Hx.
    unfold FloatAxioms.SF64sqrt.
    destruct (FloatOps.Prim2SF x) as [sg | sg | | sg mx ex];
      cbn [SpecFloat.SFcompare] in Hx; try discriminate.
    + destruct sg; [reflexivity | discriminate].
    + destruct sg; [reflexivity | discriminate].
  - intros y x H. cbn [Double.table_library Double.lib_atan2].
    unfold Double.table_atan2.
    destruct H as [-> | ->]; [reflexivity | ].
    rewrite orb_true_r. reflexivity.
Qed.

Lemma haversineDistance_pure_great_circle_witness :
  PrimFloat.is_nan
    (Double.haversineDistance Double.table_library
       (PrimFloat.opp (PrimFloat.of_uint63 (Uint63.of_Z 12)))
       (PrimFloat.opp (PrimFloat.of_uint63 (Uint63.of_Z 180)))
       (PrimFloat.of_uint63 (Uint63.of_Z 12))
       (PrimFloat.of_uint63 (Uint63.of_Z 0)))
  = true.
Proof.
  apply (proj2 (proj2 haversineDistance_pure_great_circle)).
  - exact table_library_ecma.
  - vm_compute. reflexivity.
Defined.

(** C2 (as claimed) fails on doubles.  For the antipodes (-12, -180) and
    (12, 0) the formula gives half the circumference, [6371 * PI] km; with
    the sine and cosine rounded to the nearest double the term [a] comes
    out as [1 + 2^-52], [1 - a] as [-2^-52], and the function returns
    NaN. *)
Lemma haversineDistance_antipodes_nan :
  great_circle_km (-12) (-180) 12 0 = (6371 * PI)%R /\
  Double.haversine_a Double.table_library
    (PrimFloat.opp (PrimFloat.of_uint63 (Uint63.of_Z 12)))
    (PrimFloat.opp (PrimFloat.of_uint63 (Uint63.of_Z 180)))
    (PrimFloat.of_uint63 (Uint63.of_Z 12))
    (PrimFloat.of_uint63 (Uint63.of_Z 0))
  = PrimFloat.next_up (PrimFloat.of_uint63 (Uint63.of_Z 1)) /\
  PrimFloat.is_nan
    (Double.haversineDistance Double.table_library
       (PrimFloat.opp (PrimFloat.of_uint63 (Uint63.of_Z 12)))
       (PrimFloat.opp (PrimFloat.of_uint63 (Uint63.of_Z 180)))
       (PrimFloat.of_uint63 (Uint63.of_Z 12))
       (PrimFloat.of_uint63 (Uint63.of_Z 0)))
  = true.
Proof.
  split; [exact (great_circle_antipodes 12) | ].
  split; vm_compute; reflexivity.
Qed.

(* ------------------------------------------------------------------ *)
(** ** Distance Oracle: the great-circle distance is a metric bound *)
(* ------------------------------------------------------------------ *)

Section SphereGeometry.

Local Open Scope R_scope.

Lemma hav_cos (t : R) : hav t = (1 - cos t) / 2.
Proof. unfold hav, Rsqr. apply sin_half_sqr. Qed.

Lemma great_circle_a_dot (a b : Station) :
  haversine_a (station_lat a) (station_lng a) (station_lat b) (station_lng b)
  = (1 - sphere_dot a b) / 2.
Proof.
  rewrite haversine_a_radians, !hav_cos, !cos_minus.
  unfold sphere_dot, sphere_x, sphere_y, sphere_z. field.
Qed.

Lemma sphere_dot_range (a b : Station) : -1 <= sphere_dot a b <= 1.
Proof.
  pose proof (haversine_a_range (station_lat a) (station_lng a)
                (station_lat b) (station_lng b)) as H.
  rewrite great_circle_a_dot in H. lra.
Qed.

Lemma sphere_unit (a : Station) : sphere_dot a a = 1.
Proof.
  unfold sphere_dot, sphere_x, sphere_y, sphere_z.
  pose proof (sin2_cos2 (radians (station_lat a))) as H1.
  pose proof (sin2_cos2 (radians (station_lng a))) as H2.
  unfold Rsqr in H1, H2.
  set (c := cos (radians (station_lat a))) in *.
  set (s := sin (radians (station_lat a))) in *.
  set (cl := cos (radians (station_lng a))) in *.
  set (sl := sin (radians (station_lng a))) in *.
  replace (c * cl * (c * cl) + c * sl * (c * sl) + s * s)
    with (c * c * (sl * sl + cl * cl) + s * s) by ring.
  rewrite H2. lra.
Qed.

Lemma asin_sqrt_nonneg (x : R) : 0 <= x <= 1 -> 0 <= asin x <= PI / 2.
Proof.
  intros Hx. pose proof (asin_bound x) as [Hlo Hhi]. split; [ | exact Hhi].
  destruct (Rle_or_lt 0 (asin x)) as [H | H]; [exact H | exfalso].
  assert (Hs : sin (asin x) < 0).
  { apply sin_lt_0_var; [ | exact H]. pose proof PI_RGT_0. lra. }
  rewrite sin_asin in Hs by lra. lra.
Qed.

Lemma double_asin_acos (a : R) :
  0 <= a <= 1 -> 2 * asin (sqrt a) = acos (1 - 2 * a).
Proof.
  intros Ha.
  assert (Hs : 0 <= sqrt a <= 1).
  { split; [apply sqrt_pos | ]. rewrite <- sqrt_1. apply sqrt_le_1_alt. lra. }
  pose proof (asin_sqrt_nonneg Hs) as Hb.
  rewrite <- (acos_cos (2 * asin (sqrt a))) by lra.
  f_equal. rewrite cos_2a_sin, sin_asin by lra.
  rewrite Rmult_assoc, sqrt_sqrt by lra. reflexivity.
Qed.

(** The distance is the Earth radius times the central angle. *)
Lemma great_circle_angle (a b : Station) :
  great_circle a b = earth_radius_km * acos (sphere_dot a b).
Proof.
  unfold great_circle. rewrite haversineDistance_formula.
  unfold great_circle_km. cbv zeta. rewrite <- haversine_a_radians.
  match goal with
  | |- 2 * earth_radius_km * asin ?x = _ =>
      replace (2 * earth_radius_km * asin x)
        with (earth_radius_km * (2 * asin x)) by ring
  end.
  rewrite double_asin_acos by apply haversine_a_range.
  rewrite great_circle_a_dot.
  replace (1 - 2 * ((1 - sphere_dot a b) / 2)) with (sphere_dot a b) by field.
  reflexivity.
Qed.

(** Gram determinant of three vectors, as a square. *)
Lemma gram_identity (u1 u2 u3 v1 v2 v3 w1 w2 w3 : R) :
  let uu := u1 * u1 + u2 * u2 + u3 * u3 in
  let vv := v1 * v1 + v2 * v2 + v3 * v3 in
  let ww := w1 * w1 + w2 * w2 + w3 * w3 in
  let p := u1 * v1 + u2 * v2 + u3 * v3 in
  let q := v1 * w1 + v2 * w2 + v3 * w3 in
  let r := u1 * w1 + u2 * w2 + u3 * w3 in
  let det := u1 * (v2 * w3 - v3 * w2) - u2 * (v1 * w3 - v3 * w1)
             + u3 * (v1 * w2 - v2 * w1) in
  uu * vv * ww + 2 * p * q * r - p * p * ww - q * q * uu - r * r * vv
  = det * det.
Proof. cbv zeta. ring. Qed.

Lemma gram_unit (a b c : Station) :
  let p := sphere_dot a b in
  let q := sphere_dot b c in
  let r := sphere_dot a c in
  0 <= (1 - p * p) * (1 - q * q) - (p * q - r) * (p * q - r).
Proof.
  cbv zeta.
  pose proof (gram_identity (sphere_x a) (sphere_y a) (sphere_z a)
                (sphere_x b) (sphere_y b) (sphere_z b)
                (sphere_x c) (sphere_y c) (sphere_z c)) as G.
  cbv zeta in G.
  pose proof (sphere_unit a) as Ua. pose proof (sphere_unit b) as Ub.
  pose proof (sphere_unit c) as Uc.
  unfold sphere_dot in *. rewrite Ua, Ub, Uc in G.
  match type of G with _ = ?d * ?d => pose proof (Rle_0_sqr d) as D end.
  unfold Rsqr in D. rewrite <- G in D. lra.
Qed.

(** Triangle inequality of the central angle. *)
Lemma central_angle_triangle (a b c : Station) :
  acos (sphere_dot a c) <= acos (sphere_dot a b) + acos (sphere_dot b c).
Proof.
  pose proof (sphere_dot_range a b) as Hp.
  pose proof (sphere_dot_range b c) as Hq.
  pose proof (sphere_dot_range a c) as Hr.
  pose proof (acos_bound (sphere_dot a b)) as HA.
  pose proof (acos_bound (sphere_dot b c)) as HB.
  pose proof (acos_bound (sphere_dot a c)) as HC.
  set (A := acos (sphere_dot a b)) in *.
  set (B := acos (sphere_dot b c)) in *.
  set (C := acos (sphere_dot a c)) in *.
  destruct (Rle_or_lt PI (A + B)) as [Hbig | Hsmall]; [lra | ].
  destruct (Rle_or_lt C (A + B)) as [Hle | Hgt]; [exact Hle | exfalso].
  assert (Hcos : cos C < cos (A + B)).
  { apply cos_decreasing_1; lra. }
  rewrite cos_plus in Hcos. unfold A, B, C in Hcos.
  rewrite !cos_acos, !sin_acos in Hcos by assumption.
  pose proof (gram_unit a b c) as G. cbv zeta in G.
  set (p := sphere_dot a b) in *. set (q := sphere_dot b c) in *.
  set (r := sphere_dot a c) in *.
  assert (Hsp : 0 <= 1 - p * p) by nra.
  assert (Hsq : 0 <= 1 - q * q) by nra.
  unfold Rsqr in Hcos.
  pose proof (sqrt_pos (1 - p * p)) as Sp.
  pose proof (sqrt_pos (1 - q * q)) as Sq.
  pose proof (sqrt_sqrt (1 - p * p) Hsp) as Ep.
  pose proof (sqrt_sqrt (1 - q * q) Hsq) as Eq.
  set (sp := sqrt (1 - p * p)) in *. set (sq := sqrt (1 - q * q)) in *.
  assert (Hprod : 0 <= sp * sq) by (apply Rmult_le_pos; assumption).
  assert (Hlt : sp * sq < p * q - r) by lra.
  assert (Hsqr : (sp * sq) * (sp * sq) < (p * q - r) * (p * q - r)) by nra.
  replace ((sp * sq) * (sp * sq)) with ((sp * sp) * (sq * sq)) in Hsqr by ring.
  rewrite Ep, Eq in Hsqr. lra.
Qed.

Lemma great_circle_triangle (a b c : Station) :
  great_circle a c <= great_circle a b + great_circle b c.
Proof.
  rewrite !great_circle_angle. unfold earth_radius_km.
  pose proof (central_angle_triangle a b c). lra.
Qed.

Lemma great_circle_self (a : Station) : great_circle a a = 0.
Proof.
  rewrite great_circle_angle, sphere_unit, acos_1. ring.
Qed.

Lemma abs_sin_quarter (y : R) :
  Rabs y <= PI / 2 -> Rabs (sin y) = sin (Rabs y).
Proof.
  intros Hy. pose proof PI_RGT_0 as Hpi.
  destruct (Rle_or_lt 0 y) as [Hpos | Hneg].
  - rewrite (Rabs_pos_eq y) in * by assumption.
    apply Rabs_pos_eq, sin_ge_0; lra.
  - rewrite (Rabs_left y) in * by assumption.
    rewrite sin_neg. apply Rabs_left1.
    assert (H : 0 <= sin (- y)) by (apply sin_ge_0; lra).
    rewrite sin_neg in H. lra.
Qed.

Lemma asin_sqrt_hav (t : R) :
  Rabs t <= PI -> 2 * asin (sqrt (hav t)) = Rabs t.
Proof.
  intros Ht. pose proof PI_RGT_0 as Hpi. unfold hav.
  rewrite sqrt_Rsqr_abs.
  assert (Hhalf : Rabs (t / 2) = Rabs t / 2).
  { unfold Rdiv. rewrite Rabs_mult, (Rabs_pos_eq (/ 2)) by lra. reflexivity. }
  rewrite abs_sin_quarter by (rewrite Hhalf; lra).
  rewrite asin_sin.
  - rewrite Hhalf. field.
  - rewrite Hhalf. pose proof (Rabs_pos t). lra.
Qed.

Lemma arc_of_hav (t : R) :
  Rabs t <= PI -> 2 * 6371 * asin (sqrt (hav t)) = 6371 * Rabs t.
Proof.
  intros Ht. rewrite <- (@asin_sqrt_hav t Ht). ring.
Qed.

Lemma radians_diff_abs (x y : R) :
  Rabs (radians y - radians x) = Rabs (y - x) * PI / 180.
Proof.
  pose proof PI_RGT_0 as Hpi. unfold radians.
  replace (y * (PI / 180) - x * (PI / 180)) with ((y - x) * (PI / 180)) by ring.
  rewrite Rabs_mult, (Rabs_pos_eq (PI / 180)) by lra. field.
Qed.

Lemma hav_zero : hav 0 = 0.
Proof. unfold hav, Rsqr. replace (0 / 2) with 0 by field. rewrite sin_0. ring. Qed.

(** Along a meridian the distance is the length of the arc. *)
Lemma great_circle_meridian (i j : nat) (x y : R) :
  Rabs (y - x) <= 180 ->
  great_circle (on_meridian i x) (on_meridian j y) = Rabs (y - x) * degree_km.
Proof.
  intros Hxy. pose proof PI_RGT_0 as Hpi.
  assert (Hrad : Rabs (radians y - radians x) <= PI).
  { rewrite radians_diff_abs.
    assert (Rabs (y - x) * PI <= 180 * PI)
      by (apply Rmult_le_compat_r; lra).
    lra. }
  unfold great_circle, on_meridian. cbn [station_lat station_lng].
  rewrite haversineDistance_formula. unfold great_circle_km, earth_radius_km.
  cbv zeta. replace (radians 30 - radians 30) with 0 by ring.
  rewrite hav_zero.
  match goal with
  | |- _ * asin (sqrt ?e) = _ =>
      replace e with (hav (radians y - radians x)) by ring
  end.
  rewrite arc_of_hav, radians_diff_abs by assumption.
  unfold degree_km. field.
Qed.

End SphereGeometry.

(* ------------------------------------------------------------------ *)
(** ** Distance Oracle: A* *)
(* ------------------------------------------------------------------ *)

Section AStar.

Variable g : RoadGraph.
Variables start goal : nat.

Local Open Scope R_scope.

Lemma road_factor_pos : 0 < road_factor.
Proof. unfold road_factor. lra. Qed.

Hypothesis roads_long : roads_scaled g.

(** Consistency of the heuristic along an edge. *)
Lemma heuristic_consistent (u v : nat) :
  adjacent g u v = true ->
  heuristic g goal u <= edge_cost g u v + heuristic g goal v.
Proof.
  unfold adjacent, edge_cost. intros Hadj.
  destruct (road g u v) as [km | ] eqn:Hroad; [ | discriminate].
  pose proof (roads_long _ _ Hroad) as Hkm.
  pose proof (great_circle_triangle (station_at g u) (station_at g v)
                (station_at g goal)) as Htri.
  unfold heuristic. pose proof road_factor_pos as Hf.
  assert (road_factor * great_circle (station_at g u) (station_at g goal)
          <= road_factor * (great_circle (station_at g u) (station_at g v)
                            + great_circle (station_at g v) (station_at g goal)))
    by (apply Rmult_le_compat_l; lra).
  lra.
Qed.

Lemma heuristic_goal : heuristic g goal goal = 0.
Proof. unfold heuristic. rewrite great_circle_self. ring. Qed.

Lemma walk_cost_eq (a b : nat) (c c' : R) :
  walk g a b c -> c = c' -> walk g a b c'.
Proof. intros H <-. exact H. Qed.

Lemma walk_valid_end (a b : nat) (c : R) :
  walk g a b c -> (b < node_count g)%nat.
Proof. intros H. destruct H; assumption. Qed.

Lemma walk_cons (a u b : nat) (c : R) :
  (a < node_count g)%nat -> adjacent g a u = true ->
  walk g u b c -> walk g a b (edge_cost g a u + c).
Proof.
  intros Ha Hadj H. induction H as [Hu | x v c H IH Hxv Hv].
  - eapply walk_cost_eq.
    + eapply walk_step; [apply walk_here; exact Ha | exact Hadj | exact Hu].
    + ring.
  - eapply walk_cost_eq.
    + eapply walk_step; [exact IH | exact Hxv | exact Hv].
    + ring.
Qed.

Lemma heuristic_along_walk (u b : nat) (c : R) :
  walk g u b c -> heuristic g goal u <= c + heuristic g goal b.
Proof.
  intros H. induction H as [Hu | x v c H IH Hxv Hv]; [lra | ].
  pose proof (@heuristic_consistent x v Hxv). lra.
Qed.

Lemma last_default {A} (l : list A) (x d d' : A) :
  last (x :: l) d = last (x :: l) d'.
Proof.
  revert x. induction l as [ | y l IH]; intros x; [reflexivity | ].
  change (last (y :: l) d = last (y :: l) d'). apply IH.
Qed.

Lemma path_walk (p : list nat) :
  forall a b, path_from_to g p a b -> walk g a b (path_cost g p).
Proof.
  induction p as [ | u p IH]; intros a b (Hok & Hhd & Hlast).
  - contradiction.
  - injection Hhd as <-. destruct p as [ | v p].
    + simpl in *. subst b. apply walk_here. exact Hok.
    + destruct Hok as (Hu & Hadj & Hok).
      change (path_cost g (u :: v :: p))
        with (edge_cost g u v + path_cost g (v :: p)).
      apply walk_cons; [exact Hu | exact Hadj | ].
      apply IH. repeat split; [exact Hok | ].
      change (last (u :: v :: p) u) with (last (v :: p) u) in Hlast.
      rewrite <- Hlast. apply last_default.
Qed.

Lemma path_ok_last (p : list nat) (d : nat) :
  path_ok g p -> (last p d < node_count g)%nat.
Proof.
  induction p as [ | u p IH]; [contradiction | ].
  destruct p as [ | v p]; [trivial | ].
  intros (_ & _ & Hok). apply IH. exact Hok.
Qed.

Lemma path_snoc (p : list nat) (d u v : nat) :
  path_ok g p -> last p d = u -> adjacent g u v = true ->
  (v < node_count g)%nat ->
  path_ok g (p ++ [v]) /\
  path_cost g (p ++ [v]) = path_cost g p + edge_cost g u v.
Proof.
  intros Hok Hlast Hadj Hv. revert Hok Hlast.
  induction p as [ | x p IH]; [contradiction | ].
  destruct p as [ | y p].
  - simpl. intros Hx <-. repeat split; try assumption. ring.
  - intros (Hx & Hxy & Hok) Hlast.
    change (last (x :: y :: p) d) with (last (y :: p) d) in Hlast.
    destruct (IH Hok Hlast) as [Hok' Hcost].
    change ((x :: y :: p) ++ [v])%list with (x :: (y :: p) ++ [v])%list.
    change ((y :: p) ++ [v])%list with (y :: (p ++ [v]))%list in *.
    split.
    + repeat split; assumption.
    + change (path_cost g (x :: y :: p ++ [v]))
        with (edge_cost g x y + path_cost g (y :: p ++ [v])).
      rewrite Hcost.
      change (path_cost g (x :: y :: p))
        with (edge_cost g x y + path_cost g (y :: p)).
      ring.
Qed.

Lemma in_closed_true (u : nat) (closed : list nat) :
  in_closed u closed = true <-> In u closed.
Proof.
  unfold in_closed. rewrite existsb_exists. split.
  - intros (x & Hx & Heq). apply Nat.eqb_eq in Heq. now subst.
  - intros H. exists u. split; [exact H | apply Nat.eqb_refl].
Qed.

Lemma in_closed_false (u : nat) (closed : list nat) :
  in_closed u closed = false <-> ~ In u closed.
Proof.
  rewrite <- in_closed_true. destruct (in_closed u closed); split;
    intros H; try reflexivity; try discriminate; try (intros K; discriminate).
  exfalso. now apply H.
Qed.

Lemma in_closed_cons (x u : nat) (closed : list nat) :
  in_closed x (u :: closed) = orb (Nat.eqb x u) (in_closed x closed).
Proof. reflexivity. Qed.

Lemma prefer_true (a b : Entry) :
  prefer g goal a b = true -> entry_f g goal a <= entry_f g goal b.
Proof.
  unfold prefer.
  destruct (Rlt_dec (entry_f g goal a) (entry_f g goal b)) as [H | H]; [lra | ].
  destruct (Rlt_dec (entry_f g goal b) (entry_f g goal a)) as [K | K];
    [discriminate | lra].
Qed.

Lemma prefer_false (a b : Entry) :
  prefer g goal a b = false -> entry_f g goal b <= entry_f g goal a.
Proof.
  unfold prefer.
  destruct (Rlt_dec (entry_f g goal a) (entry_f g goal b)) as [H | H];
    [discriminate | lra].
Qed.

Lemma extract_min_spec (open : list Entry) :
  match extract_min g goal open with
  | None => open = []
  | Some (m, rest) =>
      Permutation open (m :: rest) /\
      forall x, In x open -> entry_f g goal m <= entry_f g goal x
  end.
Proof.
  induction open as [ | e open IH]; [reflexivity | ].
  cbn [extract_min].
  destruct (extract_min g goal open) as [[m rest] | ].
  - destruct IH as [Hperm Hmin].
    destruct (prefer g goal e m) eqn:Hp.
    + split; [now constructor | ].
      apply prefer_true in Hp.
      intros x [<- | Hx]; [lra | ]. specialize (Hmin x Hx). lra.
    + split.
      * eapply Permutation_trans; [apply perm_skip; exact Hperm | apply perm_swap].
      * apply prefer_false in Hp.
        intros x [<- | Hx]; [exact Hp | now apply Hmin].
  - subst open. split; [apply Permutation_refl | ].
    intros x [<- | []]. lra.
Qed.

End AStar.

Section AStarSearch.

Variable g : RoadGraph.
Variables start goal : nat.
Hypothesis roads_long : roads_scaled g.

Local Open Scope R_scope.

Lemma in_successors (e e' : Entry) (closed : list nat) :
  In e' (successors g e closed) <->
  exists v, e' = mkEntry v (entry_g e + edge_cost g (entry_node e) v)
                         (v :: entry_path e) /\
            adjacent g (entry_node e) v = true /\
            (v < node_count g)%nat /\ in_closed v closed = false.
Proof.
  unfold successors, neighbours. rewrite in_map_iff. split.
  - intros (v & <- & Hv). apply filter_In in Hv as [Hv Hnc].
    apply filter_In in Hv as [Hseq Hadj]. apply in_seq in Hseq.
    exists v. repeat split; try assumption; try lia.
    now apply negb_true_iff in Hnc.
  - intros (v & -> & Hadj & Hv & Hnc). exists v. split; [reflexivity | ].
    apply filter_In. split; [ | now rewrite Hnc].
    apply filter_In. split; [apply in_seq; lia | exact Hadj].
Qed.

Lemma successors_length (e : Entry) (closed : list nat) :
  (List.length (successors g e closed) <= node_count g)%nat.
Proof.
  unfold successors, neighbours. rewrite length_map.
  eapply Nat.le_trans; [apply filter_length_le | ].
  eapply Nat.le_trans; [apply filter_length_le | ].
  rewrite length_seq. apply Nat.le_refl.
Qed.

Lemma closed_bound (closed : list nat) :
  NoDup closed -> (forall x, In x closed -> (x < node_count g)%nat) ->
  (List.length closed <= node_count g)%nat.
Proof.
  intros Hnd Hval. rewrite <- (length_seq (node_count g) 0).
  apply NoDup_incl_length; [exact Hnd | ].
  intros x Hx. apply in_seq. specialize (Hval x Hx). lia.
Qed.

Lemma entry_node_valid (e : Entry) :
  entry_ok g start e -> (entry_node e < node_count g)%nat.
Proof.
  intros [(Hok & _ & Hlast) _]. rewrite <- Hlast. now apply path_ok_last.
Qed.

(** On any walk from the start that ends outside the closed set some open
    entry lies, reached no dearer than the walk reaches it. *)
Lemma frontier_entry (open : list Entry) (closed : list nat) (u : nat) (c : R) :
  astar_inv g start goal open closed -> walk g start u c ->
  in_closed u closed = true \/
  exists e c2, In e open /\ walk g (entry_node e) u c2 /\ entry_g e + c2 <= c.
Proof.
  intros Hinv H. induction H as [Hs | x v c H IH Hxv Hv].
  - destruct (inv_start Hinv) as [Hc | (e & He & Hn & Hg)]; [now left | ].
    right. exists e, 0. split; [exact He | ]. split; [ | lra].
    rewrite Hn. now apply walk_here.
  - destruct (in_closed v closed) eqn:Hvc; [now left | right].
    destruct IH as [Hxc | (e & c2 & He & Hw & Hle)].
    + destruct (@inv_frontier _ _ _ _ _ Hinv x v Hxc Hxv Hv Hvc) as (e & He & Hn & Hg).
      exists e, 0. split; [exact He | ]. split.
      * rewrite Hn. now apply walk_here.
      * specialize (Hg c H). lra.
    + exists e, (c2 + edge_cost g x v). split; [exact He | ]. split.
      * now apply walk_step.
      * lra.
Qed.

(** The entry taken from the open set is at least as cheap as any walk to
    its node (the heuristic is consistent). *)
Lemma popped_optimal (open : list Entry) (closed : list nat) (e : Entry) :
  astar_inv g start goal open closed ->
  (forall x, In x open -> entry_f g goal e <= entry_f g goal x) ->
  in_closed (entry_node e) closed = false ->
  forall c, walk g start (entry_node e) c -> entry_g e <= c.
Proof.
  intros Hinv Hmin Hnc c Hw.
  destruct (frontier_entry Hinv Hw) as [Hc | (e' & c2 & He' & Hw' & Hle)].
  - congruence.
  - specialize (Hmin e' He'). unfold entry_f in Hmin.
    pose proof (heuristic_along_walk goal roads_long Hw'). lra.
Qed.

Lemma initial_inv :
  (start < node_count g)%nat ->
  astar_inv g start goal [mkEntry start 0 [start]] [].
Proof.
  intros Hs. constructor.
  - intros e [<- | []]. split; [ | reflexivity].
    repeat split. exact Hs.
  - right. eexists. split; [now left | ]. split; [reflexivity | simpl; lra].
  - intros x v Hx. discriminate.
  - reflexivity.
  - split; [constructor | intros x []].
Qed.

Lemma inv_skip (open rest : list Entry) (closed : list nat) (e : Entry) :
  astar_inv g start goal open closed ->
  Permutation open (e :: rest) ->
  in_closed (entry_node e) closed = true ->
  astar_inv g start goal rest closed.
Proof.
  intros Hinv Hperm Hc.
  assert (Hrest : forall x, In x open -> entry_node x <> entry_node e ->
                            In x rest).
  { intros x Hx Hne. apply (Permutation_in _ Hperm) in Hx.
    destruct Hx as [<- | Hx]; [congruence | exact Hx]. }
  constructor.
  - intros x Hx. apply (@inv_entries _ _ _ _ _ Hinv).
    apply (Permutation_in _ (Permutation_sym Hperm)). now right.
  - destruct (inv_start Hinv) as [Hs | (e0 & He0 & Hn & Hg)]; [now left | ].
    destruct (in_closed start closed) eqn:Hsc; [now left | right].
    exists e0. split; [ | now split]. apply Hrest; [exact He0 | ].
    intros Heq. rewrite <- Heq, Hn in Hc. congruence.
  - intros x v Hx Hxv Hv Hvc.
    destruct (@inv_frontier _ _ _ _ _ Hinv x v Hx Hxv Hv Hvc) as (e0 & He0 & Hn & Hg).
    exists e0. split; [ | now split]. apply Hrest; [exact He0 | ].
    intros Heq. rewrite <- Heq, Hn in Hc. congruence.
  - exact (inv_goal Hinv).
  - exact (inv_closed Hinv).
Qed.

Lemma inv_expand (open rest : list Entry) (closed : list nat) (e : Entry) :
  astar_inv g start goal open closed ->
  Permutation open (e :: rest) ->
  (forall x, In x open -> entry_f g goal e <= entry_f g goal x) ->
  in_closed (entry_node e) closed = false ->
  entry_node e <> goal ->
  astar_inv g start goal
    (rest ++ successors g e (entry_node e :: closed))%list
    (entry_node e :: closed).
Proof.
  intros Hinv Hperm Hmin Hnc Hgoal.
  pose proof (@popped_optimal _ _ e Hinv Hmin Hnc) as Hopt.
  assert (He : In e open).
  { apply (Permutation_in _ (Permutation_sym Hperm)). now left. }
  pose proof (@inv_entries _ _ _ _ _ Hinv e He) as Heok.
  assert (Hrest : forall x, In x open -> entry_node x <> entry_node e ->
                            In x rest).
  { intros x Hx Hne. apply (Permutation_in _ Hperm) in Hx.
    destruct Hx as [<- | Hx]; [congruence | exact Hx]. }
  constructor.
  - intros x Hx. apply in_app_or in Hx as [Hx | Hx].
    + apply (@inv_entries _ _ _ _ _ Hinv).
      apply (Permutation_in _ (Permutation_sym Hperm)). now right.
    + apply in_successors in Hx as (v & -> & Hadj & Hv & Hvc).
      destruct Heok as [(Hok & Hhd & Hlast) Hcost].
      destruct (@path_snoc g _ start _ v Hok Hlast Hadj Hv) as [Hok' Hcost'].
      unfold entry_ok. cbn [entry_path entry_node entry_g rev].
      split; [ | rewrite Hcost', Hcost; reflexivity].
      split; [exact Hok' | ]. split.
      * destruct (rev (entry_path e)); [contradiction | exact Hhd].
      * apply last_last.
  - rewrite in_closed_cons.
    destruct (inv_start Hinv) as [Hs | (e0 & He0 & Hn & Hg)].
    + left. rewrite Hs. apply orb_true_r.
    + destruct (Nat.eqb_spec start (entry_node e)) as [Heq | Hne];
        [now left | right].
      exists e0. split; [ | now split]. apply in_or_app. left.
      apply Hrest; [exact He0 | congruence].
  - intros x v Hx Hxv Hv Hvc. rewrite in_closed_cons in Hx, Hvc.
    apply orb_false_iff in Hvc as [Hvu Hvc]. apply Nat.eqb_neq in Hvu.
    destruct (Nat.eqb_spec x (entry_node e)) as [-> | Hxu].
    + exists (mkEntry v (entry_g e + edge_cost g (entry_node e) v)
                      (v :: entry_path e)).
      split; [ | split; [reflexivity | ]].
      * apply in_or_app. right. apply in_successors.
        exists v. repeat split; try assumption.
        rewrite in_closed_cons. apply orb_false_iff. split; [ | exact Hvc].
        now apply Nat.eqb_neq.
      * intros c Hw. cbn [entry_g]. specialize (Hopt c Hw). lra.
    + cbn [orb] in Hx.
      destruct (@inv_frontier _ _ _ _ _ Hinv x v Hx Hxv Hv Hvc) as (e0 & He0 & Hn & Hg).
      exists e0. split; [ | now split]. apply in_or_app. left.
      apply Hrest; [exact He0 | congruence].
  - rewrite in_closed_cons. apply orb_false_iff. split.
    + apply Nat.eqb_neq. congruence.
    + exact (inv_goal Hinv).
  - destruct (inv_closed Hinv) as [Hnd Hval]. split.
    + constructor; [now apply in_closed_false | exact Hnd].
    + intros x [<- | Hx]; [now apply entry_node_valid | now apply Hval].
Qed.

(** The loop is correct from any state that satisfies the invariant, given
    a budget above the measure of the state. *)
Lemma astar_loop_correct (budget : nat) :
  forall (open : list Entry) (closed : list nat),
    astar_inv g start goal open closed ->
    (List.length open
     + (node_count g - List.length closed) * node_count g < budget)%nat ->
    search_correct g start goal (astar_loop g goal budget open closed).
Proof.
  induction budget as [ | budget IH]; intros open closed Hinv Hm;
    [exfalso; exact (Nat.nlt_0_r _ Hm) | ].
  cbn [astar_loop].
  pose proof (extract_min_spec g goal open) as Hex.
  destruct (extract_min g goal open) as [[e rest] | ].
  - destruct Hex as [Hperm Hmin].
    assert (He : In e open).
    { apply (Permutation_in _ (Permutation_sym Hperm)). now left. }
    pose proof (Permutation_length Hperm) as Hlen. cbn [List.length] in Hlen.
    destruct (Nat.eqb_spec (entry_node e) goal) as [Heq | Hne].
    + destruct (@inv_entries _ _ _ _ _ Hinv e He) as [Hpath Hcost].
      cbn [search_correct]. rewrite Heq in Hpath.
      split; [exact Hpath | ]. split; [exact Hcost | ].
      intros c' Hw. apply (@popped_optimal _ _ e Hinv Hmin).
      * rewrite Heq. exact (inv_goal Hinv).
      * rewrite Heq. exact Hw.
    + destruct (in_closed (entry_node e) closed) eqn:Hc.
      * apply IH; [eapply inv_skip; eassumption | lia].
      * pose proof (inv_expand Hinv Hperm Hmin Hc Hne) as Hinv'.
        apply IH; [exact Hinv' | ].
        destruct (inv_closed Hinv') as [Hnd Hval].
        pose proof (closed_bound Hnd Hval) as Hcb. cbn [List.length] in Hcb.
        pose proof (successors_length e (entry_node e :: closed)) as Hsl.
        rewrite length_app. cbn [List.length].
        set (n := node_count g) in *. set (k := List.length closed) in *.
        replace ((n - k) * n)%nat with ((n - S k) * n + n)%nat in Hm by nia.
        lia.
  - subst open. cbn [search_correct]. intros c' Hw.
    destruct (frontier_entry Hinv Hw) as [Hc | (e & c2 & [] & _)].
    rewrite (inv_goal Hinv) in Hc. discriminate.
Qed.

Lemma astar_correct :
  (start < node_count g)%nat ->
  search_correct g start goal (astar g start goal).
Proof.
  intros Hs. unfold astar. apply astar_loop_correct.
  - now apply initial_inv.
  - unfold search_budget. simpl. lia.
Qed.

End AStarSearch.

Lemma path_ok_hd (g : RoadGraph) (p : list nat) (a : nat) :
  path_ok g p -> hd_error p = Some a -> (a < node_count g)%nat.
Proof.
  destruct p as [ | u [ | v p]]; simpl; try contradiction.
  - intros H [= <-]. exact H.
  - intros (H & _) [= <-]. exact H.
Qed.

(** The heuristic never exceeds the cost of a path to the goal. *)
Lemma heuristic_admissible (g : RoadGraph) (goal u : nat) (p : list nat) :
  roads_scaled g ->
  path_from_to g p u goal -> (heuristic g goal u <= path_cost g p)%R.
Proof.
  intros Hg Hp. pose proof (heuristic_along_walk goal Hg (path_walk Hp)) as H.
  rewrite heuristic_goal in H. lra.
Qed.

Lemma complete_graph_scaled (stations : list Station) :
  roads_scaled (complete_graph stations).
Proof.
  intros u v km Hroad. unfold road in Hroad. cbn [complete_graph explicit_roads] in Hroad.
  injection Hroad as <-. apply Rle_refl.
Qed.

Section MeridianRoads.

Local Open Scope R_scope.

Lemma degree_km_pos : 0 < degree_km.
Proof. unfold degree_km. pose proof PI_RGT_0. lra. Qed.

Lemma meridian_0_1 :
  great_circle (on_meridian 1 0) (on_meridian 2 2) = 2 * degree_km.
Proof.
  rewrite great_circle_meridian; rewrite Rabs_pos_eq; lra.
Qed.

Lemma meridian_1_2 :
  great_circle (on_meridian 2 2) (on_meridian 3 11) = 9 * degree_km.
Proof.
  rewrite great_circle_meridian; rewrite Rabs_pos_eq; lra.
Qed.

Lemma meridian_0_2 :
  great_circle (on_meridian 1 0) (on_meridian 3 11) = 11 * degree_km.
Proof.
  rewrite great_circle_meridian; rewrite Rabs_pos_eq; lra.
Qed.

Lemma meridian_1_0 :
  great_circle (on_meridian 2 2) (on_meridian 1 0) = 2 * degree_km.
Proof.
  rewrite great_circle_meridian; [rewrite Rabs_left; lra | rewrite Rabs_left; lra].
Qed.

Lemma meridian_2_1 :
  great_circle (on_meridian 3 11) (on_meridian 2 2) = 9 * degree_km.
Proof.
  rewrite great_circle_meridian; [rewrite Rabs_left; lra | rewrite Rabs_left; lra].
Qed.

Lemma meridian_2_0 :
  great_circle (on_meridian 3 11) (on_meridian 1 0) = 11 * degree_km.
Proof.
  rewrite great_circle_meridian; [rewrite Rabs_left; lra | rewrite Rabs_left; lra].
Qed.

Lemma winding_roads_scaled : roads_scaled winding_roads.
Proof.
  pose proof degree_km_pos as Hd.
  intros u v km Hroad. unfold road_factor.
  destruct u as [ | [ | [ | u]]]; destruct v as [ | [ | [ | v]]];
    try discriminate Hroad; injection Hroad as <-;
    change (station_at winding_roads 0) with (on_meridian 1 0);
    change (station_at winding_roads 1) with (on_meridian 2 2);
    change (station_at winding_roads 2) with (on_meridian 3 11);
    rewrite ?meridian_0_1, ?meridian_1_2, ?meridian_0_2,
            ?meridian_1_0, ?meridian_2_1, ?meridian_2_0; lra.
Qed.

(** In [straight_road] every road is at least as long as the great-circle
    distance of its ends. *)
Lemma straight_road_above_arc (u v : nat) (km : R) :
  road straight_road u v = Some km ->
  great_circle (station_at straight_road u) (station_at straight_road v) <= km.
Proof.
  pose proof degree_km_pos as Hd. intros Hroad.
  destruct u as [ | [ | [ | u]]]; destruct v as [ | [ | [ | v]]];
    try discriminate Hroad; injection Hroad as <-;
    change (station_at straight_road 0) with (on_meridian 1 0);
    change (station_at straight_road 1) with (on_meridian 2 2);
    change (station_at straight_road 2) with (on_meridian 3 11);
    rewrite ?meridian_0_1, ?meridian_1_2, ?meridian_0_2,
            ?meridian_1_0, ?meridian_2_1, ?meridian_2_0; lra.
Qed.

Lemma straight_road_heuristic :
  heuristic straight_road 2 1 = 1215 / 100 * degree_km /\
  heuristic straight_road 2 2 = 0.
Proof.
  unfold heuristic, road_factor.
  change (station_at straight_road 1) with (on_meridian 2 2).
  change (station_at straight_road 2) with (on_meridian 3 11).
  rewrite meridian_1_2, great_circle_self. split; field.
Qed.

Lemma straight_road_prefer :
  prefer straight_road 2
    (mkEntry 1 (0 + edge_cost straight_road 0 1) [1; 0]%nat)
    (mkEntry 2 (0 + edge_cost straight_road 0 2) [2; 0]%nat) = false.
Proof.
  pose proof degree_km_pos as Hd.
  destruct straight_road_heuristic as [H1 H2].
  unfold prefer, entry_f. cbn [entry_g entry_node]. rewrite H1, H2.
  change (edge_cost straight_road 0 1) with (3 * degree_km).
  change (edge_cost straight_road 0 2) with (1485 / 100 * degree_km).
  destruct (Rlt_dec _ _) as [H | H]; [lra | ].
  destruct (Rlt_dec _ _) as [K | K]; [reflexivity | lra].
Qed.

Lemma straight_road_search :
  astar straight_road 0 2 = Found [0; 2]%nat (0 + edge_cost straight_road 0 2).
Proof.
  unfold astar.
  change (search_budget straight_road) with 11%nat.
  cbn [astar_loop extract_min entry_node Nat.eqb in_closed existsb app].
  change (successors straight_road (mkEntry 0 0 [0%nat]) [0%nat])
    with [mkEntry 1 (0 + edge_cost straight_road 0 1) [1; 0]%nat;
          mkEntry 2 (0 + edge_cost straight_road 0 2) [2; 0]%nat].
  cbn [extract_min]. rewrite straight_road_prefer.
  reflexivity.
Qed.

End MeridianRoads.

(** C3 (as the design has it).  In the default complete graph every edge
    weighs 1.35 times the great-circle distance of its ends.  In any graph
    whose roads are all at least that long, the heuristic (1.35 times the
    Haversine distance to the destination) never exceeds the cost of any
    path to the destination, so not that of the cheapest one either, and
    whenever a path from start to goal exists A* returns a path of least
    cost. *)
Theorem astar_admissible_optimal :
  (forall stations, roads_scaled (complete_graph stations)) /\
  (forall (g : RoadGraph) (start goal : nat),
     roads_scaled g ->
     (forall u p, path_from_to g p u goal ->
                  (heuristic g goal u <= path_cost g p)%R) /\
     ((exists p, path_from_to g p start goal) ->
      exists best total,
        astar g start goal = Found best total /\
        path_from_to g best start goal /\
        path_cost g best = total /\
        forall p, path_from_to g p start goal -> (total <= path_cost g p)%R)).
Proof.
  split; [exact complete_graph_scaled | ].
  intros g start goal Hg.
  split; [intros u p; now apply heuristic_admissible | ].
  intros (p0 & Hp0).
  assert (Hs : (start < node_count g)%nat).
  { destruct Hp0 as (Hok & Hhd & _). eapply path_ok_hd; eassumption. }
  pose proof (@astar_correct g start goal Hg Hs) as Hc.
  destruct (astar g start goal) as [best total | | ]; cbn [search_correct] in Hc.
  - destruct Hc as (Hpath & Hcost & Hopt).
    exists best, total. repeat split; try apply Hpath; try assumption.
    intros p Hp. apply Hopt. now apply path_walk.
  - exfalso. apply (Hc (path_cost g p0)). now apply path_walk.
  - contradiction.
Qed.

Lemma astar_admissible_optimal_witness :
  roads_scaled winding_roads /\
  (exists p, path_from_to winding_roads p 0 2) /\
  exists best total,
    astar winding_roads 0 2 = Found best total /\
    path_from_to winding_roads best 0 2 /\
    path_cost winding_roads best = total /\
    forall p, path_from_to winding_roads p 0 2 ->
              (total <= path_cost winding_roads p)%R.
Proof.
  assert (H : exists p, path_from_to winding_roads p 0 2).
  { exists [0; 2]%nat. repeat split; try reflexivity;
      apply Nat.ltb_lt; reflexivity. }
  split; [exact winding_roads_scaled | ]. split; [exact H | ].
  exact (proj2 (proj2 astar_admissible_optimal winding_roads 0 2
                  winding_roads_scaled) H).
Defined.

(** C3 (as claimed) fails once the graph has roads of its own.  In
    [straight_road] every road is at least as long as the great-circle
    distance of its ends, which is the reason the design gives for
    admissibility.  Yet the heuristic at the second station, 12.15 degrees
    of arc, exceeds the 9 degrees of the road from there to the
    destination; and A* from the first station returns the direct road of
    14.85 degrees although the way through the second station is 12
    degrees long. *)
Lemma astar_straight_road_suboptimal :
  (forall u v km,
     road straight_road u v = Some km ->
     (great_circle (station_at straight_road u) (station_at straight_road v)
      <= km)%R) /\
  path_from_to straight_road [1; 2]%nat 1 2 /\
  (path_cost straight_road [1; 2]%nat < heuristic straight_road 2 1)%R /\
  exists total,
    astar straight_road 0 2 = Found [0; 2]%nat total /\
    path_from_to straight_road [0; 1; 2]%nat 0 2 /\
    (path_cost straight_road [0; 1; 2]%nat < total)%R.
Proof.
  pose proof degree_km_pos as Hd.
  split; [exact straight_road_above_arc | ].
  split; [repeat split; try reflexivity; apply Nat.ltb_lt; reflexivity | ].
  split.
  - rewrite (proj1 straight_road_heuristic).
    change (path_cost straight_road [1; 2]%nat) with (9 * degree_km + 0)%R.
    lra.
  - exists (0 + edge_cost straight_road 0 2)%R.
    split; [exact straight_road_search | ].
    split; [repeat split; try reflexivity; apply Nat.ltb_lt; reflexivity | ].
    change (edge_cost straight_road 0 2) with (1485 / 100 * degree_km)%R.
    change (path_cost straight_road [0; 1; 2]%nat)
      with (3 * degree_km + (9 * degree_km + 0))%R.
    lra.
Qed.

(* ------------------------------------------------------------------ *)
(** ** Capacity Selector *)
(* ------------------------------------------------------------------ *)

Section Knapsack.

Local Open Scope nat_scope.

Lemma list_set_length {A} (i : nat) (x : A) (l : list A) :
  List.length (list_set i x l) = List.length l.
Proof.
  revert i. induction l as [ | y l IH]; intros [ | i]; simpl; auto.
Qed.

Lemma list_set_same {A} (i : nat) (x d : A) (l : list A) :
  i < List.length l -> nth i (list_set i x l) d = x.
Proof.
  revert i. induction l as [ | y l IH]; intros [ | i]; simpl; intros H;
    try lia; auto. apply IH. lia.
Qed.

Lemma list_set_other {A} (i j : nat) (x d : A) (l : list A) :
  i <> j -> nth j (list_set i x l) d = nth j l d.
Proof.
  revert i j. induction l as [ | y l IH]; intros [ | i] [ | j]; simpl;
    intros H; try reflexivity; try lia. apply IH. lia.
Qed.

Lemma total_weight_app (a b : list Cargo) :
  total_weight (a ++ b) = total_weight a + total_weight b.
Proof. induction a as [ | c a IH]; simpl; [reflexivity | rewrite IH; lia]. Qed.

Lemma total_priority_app (a b : list Cargo) :
  total_priority (a ++ b) = total_priority a + total_priority b.
Proof. induction a as [ | c a IH]; simpl; [reflexivity | rewrite IH; lia]. Qed.

Lemma total_weight_rev (a : list Cargo) : total_weight (rev a) = total_weight a.
Proof.
  induction a as [ | c a IH]; simpl; [reflexivity | ].
  rewrite total_weight_app, IH. simpl. lia.
Qed.

Lemma total_priority_rev (a : list Cargo) :
  total_priority (rev a) = total_priority a.
Proof.
  induction a as [ | c a IH]; simpl; [reflexivity | ].
  rewrite total_priority_app, IH. simpl. lia.
Qed.

Lemma total_weight_set_status (s : CargoStatus) (a : list Cargo) :
  total_weight (map (set_status s) a) = total_weight a.
Proof. induction a as [ | c a IH]; simpl; [reflexivity | now rewrite IH]. Qed.

Lemma total_priority_set_status (s : CargoStatus) (a : list Cargo) :
  total_priority (map (set_status s) a) = total_priority a.
Proof. induction a as [ | c a IH]; simpl; [reflexivity | now rewrite IH]. Qed.

Lemma subseq_refl {A} (l : list A) : subseq l l.
Proof. induction l; constructor; assumption. Qed.

Lemma subseq_nil_l {A} (l : list A) : subseq [] l.
Proof. induction l; constructor; assumption. Qed.

Lemma subseq_app {A} (s1 l1 s2 l2 : list A) :
  subseq s1 l1 -> subseq s2 l2 -> subseq (s1 ++ s2) (l1 ++ l2).
Proof.
  intros H1 H2. induction H1; simpl; try constructor; assumption.
Qed.

Lemma subseq_rev {A} (s l : list A) : subseq s l -> subseq (rev s) (rev l).
Proof.
  intros H. induction H; simpl.
  - constructor.
  - rewrite <- (app_nil_r (rev s)). apply subseq_app; [assumption | ].
    apply subseq_skip. constructor.
  - apply subseq_app; [assumption | apply subseq_refl].
Qed.

(** No choice among the items beats [best_value] within its weight bound. *)
Lemma best_value_optimal (items s : list Cargo) :
  subseq s items ->
  forall w, total_weight s <= w -> total_priority s <= best_value items w.
Proof.
  intros H. induction H as [ | c s l H IH | c s l H IH]; intros w Hw; simpl.
  - lia.
  - specialize (IH w Hw). destruct (weight_kg c <=? w); lia.
  - simpl in Hw.
    destruct (Nat.leb_spec (weight_kg c) w) as [Hc | Hc]; [ | lia].
    specialize (IH (w - weight_kg c)). lia.
Qed.

Variable capacity : nat.

(** The in-place sweep: cells outside [weight .. weight + steps) keep their
    content; a visited cell gets the better of leaving and taking the item,
    read from cells the sweep has not reached yet. *)
Lemma relax_down_spec (c : Cargo) (n steps : nat) :
  forall (table : list nat) (keep : list bool),
    List.length table = n -> List.length keep = n ->
    steps = 0 \/ weight_kg c + steps <= n ->
    (forall w, weight_kg c <= w < weight_kg c + steps -> nth w keep false = false) ->
    let res := relax_down c steps table keep in
    List.length (fst res) = n /\ List.length (snd res) = n /\
    forall w, w < n ->
      ((w < weight_kg c \/ weight_kg c + steps <= w) ->
         nth w (fst res) 0 = nth w table 0 /\
         nth w (snd res) false = nth w keep false) /\
      (weight_kg c <= w < weight_kg c + steps ->
         nth w (fst res) 0
         = Nat.max (nth w table 0) (nth (w - weight_kg c) table 0 + priority c) /\
         nth w (snd res) false
         = (nth w table 0 <? nth (w - weight_kg c) table 0 + priority c)).
Proof.
  induction steps as [ | k IH]; intros table keep Ht Hk Hfit Hclean; cbn zeta.
  - simpl. repeat split; try assumption; lia.
  - destruct Hfit as [Hfit | Hfit]; [discriminate | ].
    cbn [relax_down]. cbv zeta.
    set (w0 := weight_kg c + k).
    set (cand := nth (w0 - weight_kg c) table 0 + priority c).
    assert (Hw0 : w0 < n) by (unfold w0; lia).
    assert (Hfit' : k = 0 \/ weight_kg c + k <= n) by (right; lia).
    destruct (Nat.ltb_spec (nth w0 table 0) cand) as [Hlt | Hge].
    + specialize (IH (list_set w0 cand table) (list_set w0 true keep)).
      rewrite !list_set_length in IH. specialize (IH Ht Hk Hfit').
      cbn zeta in IH. destruct IH as (L1 & L2 & IH).
      { intros w Hw. rewrite list_set_other by (unfold w0; lia).
        apply Hclean. lia. }
      split; [exact L1 | ]. split; [exact L2 | ].
      intros w Hw. destruct (IH w Hw) as [Hout Hin]. split.
      * intros Hrange.
        destruct Hout as [E1 E2]; [unfold w0 in *; lia | ].
        rewrite E1, E2, !list_set_other by (unfold w0; lia). split; reflexivity.
      * intros Hrange. destruct (Nat.eq_dec w w0) as [-> | Hne].
        -- destruct Hout as [E1 E2]; [unfold w0; lia | ].
           rewrite E1, E2, !list_set_same by lia.
           fold cand. split; [lia | ].
           symmetry. apply Nat.ltb_lt. exact Hlt.
        -- destruct Hin as [E1 E2]; [unfold w0 in *; lia | ].
           rewrite E1, E2, !list_set_other by (unfold w0 in *; lia).
           split; reflexivity.
    + specialize (IH table keep Ht Hk Hfit').
      cbn zeta in IH. destruct IH as (L1 & L2 & IH).
      { intros w Hw. apply Hclean. lia. }
      split; [exact L1 | ]. split; [exact L2 | ].
      intros w Hw. destruct (IH w Hw) as [Hout Hin]. split.
      * intros Hrange. apply Hout. unfold w0 in *. lia.
      * intros Hrange. destruct (Nat.eq_dec w w0) as [-> | Hne].
        -- destruct Hout as [E1 E2]; [unfold w0; lia | ].
           rewrite E1, E2. fold cand. split; [lia | ].
           rewrite Hclean by (unfold w0; lia).
           symmetry. apply Nat.ltb_ge. exact Hge.
        -- apply Hin. unfold w0 in *. lia.
Qed.

Lemma dp_item_spec (c : Cargo) (items : list Cargo) (table : list nat) :
  table_ok capacity items table ->
  table_ok capacity (c :: items) (fst (dp_item c capacity table)) /\
  row_ok capacity c items (snd (dp_item c capacity table)).
Proof.
  intros [Hlen Htab]. unfold dp_item.
  assert (Hfit : capacity + 1 - weight_kg c = 0 \/
                 weight_kg c + (capacity + 1 - weight_kg c) <= capacity + 1)
    by lia.
  pose proof (@relax_down_spec c (capacity + 1) (capacity + 1 - weight_kg c)
                table (repeat false (capacity + 1)) Hlen
                (repeat_length _ _) Hfit
                (fun w _ => nth_repeat false (capacity + 1) w)) as H.
  cbn zeta in H. destruct H as (L1 & L2 & H).
  split; [split; [exact L1 | ] | ].
  - intros w Hw. destruct (H w ltac:(lia)) as [Hout Hin]. simpl.
    destruct (Nat.leb_spec (weight_kg c) w) as [Hc | Hc].
    + destruct Hin as [E _]; [lia | ].
      rewrite E, !Htab by lia. reflexivity.
    + destruct Hout as [E _]; [lia | ]. rewrite E. apply Htab. exact Hw.
  - intros w Hw. destruct (H w ltac:(lia)) as [Hout Hin].
    destruct (Nat.leb_spec (weight_kg c) w) as [Hc | Hc].
    + destruct Hin as [_ E]; [lia | ].
      rewrite E, !Htab by lia. reflexivity.
    + destruct Hout as [_ E]; [lia | ]. rewrite E.
      apply nth_repeat.
Qed.

Lemma knapsack_fill_spec (items : list Cargo) :
  forall (table : list nat) (rows : list (Cargo * list bool)),
    rows_ok capacity rows -> table_ok capacity (map fst rows) table ->
    let res := knapsack_fill items capacity table rows in
    rows_ok capacity (snd res) /\ table_ok capacity (map fst (snd res)) (fst res) /\
    map fst (snd res) = (rev items ++ map fst rows)%list.
Proof.
  induction items as [ | c items IH]; intros table rows Hrows Htab; cbn zeta.
  - simpl. auto.
  - cbn [knapsack_fill].
    destruct (dp_item_spec c Htab) as [Htab' Hrow].
    destruct (dp_item c capacity table) as [table' keep]. cbn [fst snd] in *.
    specialize (IH table' ((c, keep) :: rows)).
    cbn zeta in IH. destruct IH as (R1 & R2 & R3).
    + simpl. split; assumption.
    + exact Htab'.
    + split; [exact R1 | ]. split; [exact R2 | ].
      rewrite R3. simpl. now rewrite <- app_assoc.
Qed.

Lemma backtrack_spec (rows : list (Cargo * list bool)) :
  rows_ok capacity rows ->
  forall w, w <= capacity ->
    let res := backtrack rows w in
    total_weight (fst res) <= w /\
    total_priority (fst res) = best_value (map fst rows) w /\
    Permutation (fst res ++ snd res) (map fst rows).
Proof.
  induction rows as [ | [c keep] rows IH]; intros Hrows w Hw; cbn zeta.
  - simpl. repeat split; auto. lia.
  - destruct Hrows as [Hrow Hrows]. cbn [backtrack map fst best_value].
    rewrite (Hrow w Hw).
    destruct (Nat.leb_spec (weight_kg c) w) as [Hc | Hc]; cbn [andb].
    + destruct (Nat.ltb_spec (best_value (map fst rows) w)
                  (best_value (map fst rows) (w - weight_kg c) + priority c))
        as [Hlt | Hge].
      * specialize (IH Hrows (w - weight_kg c) ltac:(lia)). cbn zeta in IH.
        destruct (backtrack rows (w - weight_kg c)) as [sel def].
        cbn [fst snd] in *. destruct IH as (W & P & Q).
        simpl. repeat split; try lia. now constructor.
      * specialize (IH Hrows w Hw). cbn zeta in IH.
        destruct (backtrack rows w) as [sel def].
        cbn [fst snd] in *. destruct IH as (W & P & Q).
        repeat split; try lia.
        apply Permutation_sym, Permutation_cons_app, Permutation_sym. exact Q.
    + specialize (IH Hrows w Hw). cbn zeta in IH.
      destruct (backtrack rows w) as [sel def].
      cbn [fst snd] in *. destruct IH as (W & P & Q).
      repeat split; try lia.
      apply Permutation_sym, Permutation_cons_app, Permutation_sym. exact Q.
Qed.

Lemma table_ok_initial : table_ok capacity [] (repeat 0 (capacity + 1)).
Proof.
  split; [apply repeat_length | ]. intros w _. simpl. apply nth_repeat.
Qed.

Lemma knapsack_spec (items : list Cargo) :
  let res := knapsack items capacity in
  total_weight (fst res) <= capacity /\
  (forall s, subseq s items -> total_weight s <= capacity ->
             total_priority s <= total_priority (fst res)) /\
  Permutation (fst res ++ snd res) items.
Proof.
  cbn zeta. unfold knapsack.
  pose proof (@knapsack_fill_spec items (repeat 0 (capacity + 1)) []
                I table_ok_initial) as H.
  cbn zeta in H.
  destruct (knapsack_fill items capacity (repeat 0 (capacity + 1)) [])
    as [table rows].
  cbn [fst snd] in H. destruct H as (Hrows & _ & Hfst).
  simpl in Hfst. rewrite app_nil_r in Hfst.
  pose proof (backtrack_spec rows Hrows (le_n capacity)) as B.
  cbn zeta in B. destruct B as (W & P & Q). rewrite Hfst in P, Q.
  split; [exact W | ]. split.
  - intros s Hs Hw. rewrite P.
    rewrite <- (total_priority_rev s).
    apply best_value_optimal; [now apply subseq_rev | ].
    now rewrite total_weight_rev.
  - eapply Permutation_trans; [exact Q | apply Permutation_sym, Permutation_rev].
Qed.

End Knapsack.

Lemma select_overflow (cargos : list Cargo) (fleet : list Vehicle) :
  (base_capacity fleet < total_weight (filter is_pending cargos))%nat ->
  selected (select cargos fleet)
  = map (set_status Selected)
        (fst (knapsack (filter is_pending cargos) (fleet_capacity fleet))) /\
  map fst (deferred (select cargos fleet))
  = map (set_status Deferred)
        (snd (knapsack (filter is_pending cargos) (fleet_capacity fleet))).
Proof.
  intros Hover. unfold select.
  destruct (Nat.leb_spec (total_weight (filter is_pending cargos))
              (base_capacity fleet)) as [Hle | _]; [lia | ].
  destruct (knapsack (filter is_pending cargos) (fleet_capacity fleet))
    as [sel def].
  cbn [selected deferred fst snd]. split; [reflexivity | ].
  rewrite map_map. reflexivity.
Qed.

(** C8. When the pending cargo outweighs the base fleet, the cargo the
    Capacity Selector chooses weighs no more than the capacity bound (base
    fleet plus rental), and no choice among the pending cargo of equal or
    lower total weight has a greater total priority. *)
Theorem select_knapsack_optimal (cargos : list Cargo) (fleet : list Vehicle) :
  (base_capacity fleet < total_weight (filter is_pending cargos))%nat ->
  let chosen := selected (select cargos fleet) in
  (total_weight chosen <= fleet_capacity fleet)%nat /\
  forall s : list Cargo,
    subseq s (filter is_pending cargos) ->
    (total_weight s <= total_weight chosen)%nat ->
    (total_priority s <= total_priority chosen)%nat.
Proof.
  intros Hover chosen. subst chosen.
  destruct (select_overflow cargos fleet Hover) as [-> _].
  rewrite total_weight_set_status, total_priority_set_status.
  destruct (knapsack_spec (fleet_capacity fleet) (filter is_pending cargos))
    as (W & O & _).
  split; [exact W | ].
  intros s Hs Hw. apply O; [exact Hs | lia].
Qed.

Lemma select_knapsack_optimal_witness :
  (base_capacity readme_fleet < total_weight (filter is_pending overflow_load))%nat /\
  let chosen := selected (select overflow_load readme_fleet) in
  (total_weight chosen <= fleet_capacity readme_fleet)%nat /\
  forall s : list Cargo,
    subseq s (filter is_pending overflow_load) ->
    (total_weight s <= total_weight chosen)%nat ->
    (total_priority s <= total_priority chosen)%nat.
Proof.
  assert (H : (base_capacity readme_fleet
               < total_weight (filter is_pending overflow_load))%nat).
  { apply Nat.ltb_lt. vm_compute. reflexivity. }
  split; [exact H | exact (select_knapsack_optimal overflow_load readme_fleet H)].
Defined.

Example knapsack_small :
  let res := knapsack [parcel 1 1 3 4; parcel 2 1 4 5; parcel 3 1 5 6;
                       parcel 4 1 2 3] 7 in
  map cargo_id (fst res) = [2; 1]%nat /\ map cargo_id (snd res) = [4; 3]%nat /\
  total_weight (fst res) = 7%nat /\ total_priority (fst res) = 9%nat.
Proof. vm_compute. repeat split. Qed.

(* ------------------------------------------------------------------ *)
(** ** Route Optimizer *)
(* ------------------------------------------------------------------ *)

Local Open Scope list_scope.

Section Ranking.

Context {A : Type}.
Variable key : A -> R.

Local Open Scope R_scope.

Lemma insert_by_perm (x : A) (l : list A) :
  Permutation (insert_by key x l) (x :: l).
Proof.
  induction l as [ | y l IH]; simpl; [apply Permutation_refl | ].
  destruct (Rle_dec (key x) (key y)); [apply Permutation_refl | ].
  eapply Permutation_trans; [apply perm_skip; exact IH | apply perm_swap].
Qed.

Lemma sort_by_perm (l : list A) : Permutation (sort_by key l) l.
Proof.
  induction l as [ | x l IH]; simpl; [constructor | ].
  eapply Permutation_trans; [apply insert_by_perm | now constructor].
Qed.

Lemma insert_by_sorted (x : A) (l : list A) :
  StronglySorted (key_le key) l -> StronglySorted (key_le key) (insert_by key x l).
Proof.
  induction l as [ | y l IH]; intros Hs; simpl.
  - constructor; constructor.
  - inversion Hs as [ | ? ? Hl Hy]; subst.
    destruct (Rle_dec (key x) (key y)) as [Hle | Hgt].
    + constructor; [exact Hs | ].
      constructor; [exact Hle | ].
      eapply Forall_impl; [ | exact Hy]. unfold key_le. intros z Hz. lra.
    + constructor; [now apply IH | ].
      apply (Permutation_Forall (Permutation_sym (insert_by_perm x l))).
      constructor; [unfold key_le; lra | exact Hy].
Qed.

Lemma sort_by_sorted (l : list A) : StronglySorted (key_le key) (sort_by key l).
Proof.
  induction l as [ | x l IH]; simpl; [constructor | now apply insert_by_sorted].
Qed.

(** The first of the ranking is a best element. *)
Lemma sort_by_head (l : list A) (x : A) (rest : list A) :
  sort_by key l = x :: rest ->
  In x l /\ forall y, In y l -> key x <= key y.
Proof.
  intros Hsort. pose proof (sort_by_perm l) as Hperm.
  pose proof (sort_by_sorted l) as Hs. rewrite Hsort in Hperm, Hs.
  split.
  - apply (Permutation_in _ Hperm). now left.
  - intros y Hy. apply (Permutation_in _ (Permutation_sym Hperm)) in Hy.
    inversion Hs as [ | ? ? _ Hall]; subst.
    destruct Hy as [<- | Hy]; [lra | ].
    rewrite Forall_forall in Hall. now apply Hall.
Qed.

Lemma sort_by_nonempty (l : list A) :
  l <> [] -> exists x rest, sort_by key l = x :: rest.
Proof.
  intros Hne. destruct (sort_by key l) as [ | x rest] eqn:E.
  - exfalso. apply Hne. pose proof (sort_by_perm l) as H. rewrite E in H.
    now apply Permutation_nil.
  - now exists x, rest.
Qed.

Lemma sort_by_hd_in (l : list A) (d : A) :
  l <> [] -> In (hd d (sort_by key l)) l.
Proof.
  intros Hne. destruct (sort_by_nonempty Hne) as (x & rest & E).
  rewrite E. simpl. now apply (sort_by_head l E).
Qed.

End Ranking.

Section Drawing.

Variable cfg : GAConfig.

Lemma draw_below_bound (bound : nat) (s : Rng) :
  (fst (draw_below cfg bound s) < Nat.max 1 bound)%nat.
Proof.
  unfold draw_below. cbn [fst].
  assert (H : (0 < Z.of_nat (Nat.max 1 bound))%Z) by lia.
  pose proof (Z.mod_pos_bound (rng_step cfg s) _ H). lia.
Qed.

Lemma pick_in {A} (l : list A) (d : A) (s : Rng) :
  l <> [] -> In (fst (pick cfg l d s)) l.
Proof.
  intros Hne. unfold pick, rbind, rret.
  pose proof (draw_below_bound (List.length l) s) as Hb.
  destruct (draw_below cfg (List.length l) s) as [i s']. cbn [fst] in *.
  apply nth_In. destruct l; [contradiction | simpl in *; lia].
Qed.

Lemma draw_many_spec {A} (P : A -> Prop) (m : Rand A) :
  (forall s, P (fst (m s))) ->
  forall k s, Forall P (fst (draw_many k m s)) /\
              List.length (fst (draw_many k m s)) = k.
Proof.
  intros Hm. induction k as [ | k IH]; intros s; simpl.
  - split; [constructor | reflexivity].
  - unfold rbind, rret. specialize (Hm s).
    destruct (m s) as [x s1]. specialize (IH s1).
    destruct (draw_many k m s1) as [xs s2]. cbn [fst] in *.
    destruct IH as [IH1 IH2]. split; [now constructor | simpl; now rewrite IH2].
Qed.

Lemma tournament_in (key : Chromosome -> R) (pop : list Chromosome) (s : Rng) :
  pop <> [] -> In (fst (tournament cfg key pop s)) pop.
Proof.
  intros Hne. unfold tournament, rbind, rret.
  pose proof (@draw_many_spec _ (fun c => In c pop) (pick cfg pop [])
                (fun s0 => pick_in [] s0 Hne)
                (Nat.max 1 (tournament_size cfg)) s) as [Hall Hlen].
  destruct (draw_many (Nat.max 1 (tournament_size cfg)) (pick cfg pop []) s)
    as [group s']. cbn [fst] in *.
  assert (Hg : group <> []).
  { pose proof (Nat.le_max_l 1 (tournament_size cfg)) as Hmax.
    destruct group; [cbn [List.length] in Hlen; lia | discriminate]. }
  rewrite Forall_forall in Hall. apply Hall.
  now apply sort_by_hd_in.
Qed.

End Drawing.

Section Mutation.

Local Open Scope nat_scope.

Lemma list_set_beyond {A} (i : nat) (x : A) (l : list A) :
  List.length l <= i -> list_set i x l = l.
Proof.
  revert i. induction l as [ | y l IH]; intros [ | i]; simpl; intros H;
    try reflexivity; try lia. f_equal. apply IH. lia.
Qed.

Lemma nth_error_list_set_same {A} (i : nat) (x : A) (l : list A) :
  i < List.length l -> nth_error (list_set i x l) i = Some x.
Proof.
  revert i. induction l as [ | y l IH]; intros [ | i]; simpl; intros H;
    try lia; try reflexivity. apply IH. lia.
Qed.

Lemma nth_error_list_set_other {A} (i j : nat) (x : A) (l : list A) :
  i <> j -> nth_error (list_set i x l) j = nth_error l j.
Proof.
  revert i j. induction l as [ | y l IH]; intros [ | i] [ | j]; simpl;
    intros H; try reflexivity; try lia. apply IH. lia.
Qed.

(** Writing [y] over [z] trades one for the other. *)
Lemma list_set_perm {A} (i : nat) (y z : A) (l : list A) :
  nth_error l i = Some z -> Permutation (y :: l) (z :: list_set i y l).
Proof.
  revert i. induction l as [ | x l IH]; intros [ | i]; simpl; intros H;
    try discriminate.
  - injection H as ->. apply perm_swap.
  - eapply Permutation_trans; [apply perm_swap | ].
    eapply Permutation_trans; [apply perm_skip, IH; exact H | apply perm_swap].
Qed.

Lemma swap_at_perm {A} (i j : nat) (l : list A) :
  Permutation (swap_at i j l) l.
Proof.
  unfold swap_at.
  destruct (nth_error l i) as [x | ] eqn:Hi; [ | apply Permutation_refl].
  destruct (nth_error l j) as [y | ] eqn:Hj; [ | apply Permutation_refl].
  assert (Hlen : i < List.length l) by (apply nth_error_Some; congruence).
  assert (Hj' : nth_error (list_set i y l) j = Some y).
  { destruct (Nat.eq_dec i j) as [<- | Hne].
    - now apply nth_error_list_set_same.
    - now rewrite nth_error_list_set_other. }
  pose proof (list_set_perm i y l Hi) as P1.
  pose proof (list_set_perm j x (list_set i y l) Hj') as P2.
  apply Permutation_sym, (Permutation_cons_inv (a := y)).
  eapply Permutation_trans; [exact P1 | exact P2].
Qed.

Lemma remove_at_perm {A} (i : nat) (c : A) (l : list A) :
  nth_error l i = Some c -> Permutation l (c :: remove_at i l).
Proof.
  revert i. induction l as [ | x l IH]; intros [ | i]; simpl; intros H;
    try discriminate.
  - injection H as ->. apply Permutation_refl.
  - unfold remove_at in *. simpl.
    eapply Permutation_trans; [apply perm_skip, IH; exact H | apply perm_swap].
Qed.

Lemma concat_replace_perm {A} (ch : list (list A)) (a : nat) (s' : list A) :
  Permutation s' (nth a ch []) ->
  Permutation (List.concat (list_set a s' ch)) (List.concat ch).
Proof.
  revert a. induction ch as [ | s ch IH]; intros [ | a]; simpl; intros H;
    try apply Permutation_refl.
  - now apply Permutation_app_tail.
  - apply Permutation_app_head. now apply IH.
Qed.

Lemma concat_list_set_perm {A} (ch : list (list A)) (a : nat) (s' : list A) :
  a < List.length ch ->
  Permutation (s' ++ List.concat ch)
              (nth a ch [] ++ List.concat (list_set a s' ch)).
Proof.
  revert a. induction ch as [ | s ch IH]; intros [ | a]; simpl; intros H;
    try lia.
  - apply Permutation_app_swap_app.
  - assert (Ha : a < List.length ch) by (apply Nat.succ_lt_mono; exact H).
    specialize (IH a Ha).
    eapply Permutation_trans; [apply Permutation_app_swap_app | ].
    eapply Permutation_trans;
      [apply Permutation_app_head; exact IH | apply Permutation_app_swap_app].
Qed.

Lemma move_between_perm (a b i : nat) (ch : Chromosome) :
  List.length (move_between a b i ch) = List.length ch /\
  Permutation (List.concat (move_between a b i ch)) (List.concat ch).
Proof.
  unfold move_between.
  destruct (Nat.eqb_spec a b) as [Hab | Hab]; [split; reflexivity | ].
  destruct (nth_error (nth a ch []) i) as [c | ] eqn:Hc; [ | split; reflexivity].
  destruct (Nat.ltb_spec b (List.length ch)) as [Hb | Hb]; [ | split; reflexivity].
  split; [now rewrite !list_set_length | ].
  assert (Ha : a < List.length ch).
  { destruct (Nat.lt_ge_cases a (List.length ch)) as [H | H]; [exact H | ].
    rewrite nth_overflow in Hc by exact H. destruct i; discriminate. }
  set (ch1 := list_set a (remove_at i (nth a ch [])) ch).
  pose proof (concat_list_set_perm ch (remove_at i (nth a ch [])) Ha) as P1.
  fold ch1 in P1.
  assert (Hb1 : b < List.length ch1) by (unfold ch1; now rewrite list_set_length).
  assert (Hnb : nth b ch1 [] = nth b ch []).
  { unfold ch1. apply list_set_other. exact Hab. }
  pose proof (concat_list_set_perm ch1 (nth b ch [] ++ [c]) Hb1) as P2.
  rewrite Hnb in P2.
  pose proof (remove_at_perm i (nth a ch []) Hc) as P3.
  assert (Q1 : Permutation (List.concat ch) (c :: List.concat ch1)).
  { apply (Permutation_app_inv_l (remove_at i (nth a ch []))).
    eapply Permutation_trans; [exact P1 | ].
    eapply Permutation_trans; [apply Permutation_app_tail; exact P3 | ].
    simpl. apply Permutation_middle. }
  assert (Q2 : Permutation (List.concat (list_set b (nth b ch [] ++ [c]) ch1))
                           (c :: List.concat ch1)).
  { apply (Permutation_app_inv_l (nth b ch [])).
    eapply Permutation_trans; [apply Permutation_sym; exact P2 | ].
    rewrite <- app_assoc. apply Permutation_app_head. simpl.
    apply Permutation_refl. }
  eapply Permutation_trans; [exact Q2 | apply Permutation_sym; exact Q1].
Qed.

Lemma mutate_valid (cfg : GAConfig) (cargos : list Cargo) (vehicles : nat)
  (ch : Chromosome) (s : Rng) :
  valid_chromosome cargos vehicles ch ->
  valid_chromosome cargos vehicles (fst (mutate cfg ch s)).
Proof.
  intros [Hlen Hperm]. unfold mutate, rbind, rret.
  destruct (draw_below cfg 2 s) as [kind s1].
  destruct (draw_below cfg (List.length ch) s1) as [a s2].
  destruct (Nat.eqb kind 0).
  - destruct (draw_below cfg (List.length (nth a ch [])) s2) as [i s3].
    destruct (draw_below cfg (List.length (nth a ch [])) s3) as [j s4].
    cbn [fst]. split; [now rewrite list_set_length | ].
    eapply Permutation_trans; [ | exact Hperm].
    apply concat_replace_perm, swap_at_perm.
  - destruct (draw_below cfg (List.length ch) s2) as [b s3].
    destruct (draw_below cfg (List.length (nth a ch [])) s3) as [i s4].
    cbn [fst].
    destruct (move_between_perm a b i ch) as [L P].
    split; [now rewrite L | ].
    eapply Permutation_trans; [exact P | exact Hperm].
Qed.

End Mutation.

Section TwoOpt.

Variable dist : nat -> nat -> R.
Variable depot : nat.

Local Open Scope R_scope.

Lemma total_weight_perm (a b : list Cargo) :
  Permutation a b -> total_weight a = total_weight b.
Proof.
  intros H. induction H; simpl; lia.
Qed.

Lemma reverse_segment_perm {A} (i j : nat) (l : list A) :
  Permutation (reverse_segment i j l) l.
Proof.
  unfold reverse_segment.
  rewrite <- (firstn_skipn i l) at 4.
  apply Permutation_app_head.
  rewrite <- (firstn_skipn (j - i) (skipn i l)) at 3.
  apply Permutation_app_tail, Permutation_sym, Permutation_rev.
Qed.

Lemma two_opt_move_spec (seq seq' : list Cargo) :
  two_opt_move dist depot seq = Some seq' ->
  Permutation seq' seq /\
  route_distance dist depot seq' < route_distance dist depot seq.
Proof.
  unfold two_opt_move.
  destruct (find (improves dist depot seq) (segment_choices (List.length seq)))
    as [[i j] | ] eqn:Hfind; [ | discriminate].
  intros [= <-]. apply find_some in Hfind as [_ Himp].
  split; [apply reverse_segment_perm | ].
  unfold improves in Himp. cbn [fst snd] in *.
  destruct (Rlt_dec _ _) as [Hlt | _]; [exact Hlt | discriminate].
Qed.

(** 2-opt reorders a route and never lengthens it. *)
Lemma two_opt_spec (limit : nat) :
  forall seq,
    Permutation (two_opt dist depot limit seq) seq /\
    route_distance dist depot (two_opt dist depot limit seq)
    <= route_distance dist depot seq.
Proof.
  induction limit as [ | k IH]; intros seq; simpl.
  - split; [apply Permutation_refl | lra].
  - destruct (two_opt_move dist depot seq) as [seq' | ] eqn:Hmove.
    + destruct (@two_opt_move_spec seq seq' Hmove) as [P D].
      destruct (IH seq') as [P' D']. split.
      * eapply Permutation_trans; eassumption.
      * lra.
    + split; [apply Permutation_refl | lra].
Qed.

Lemma is_empty_perm {A} (a b : list A) :
  Permutation a b -> is_empty a = is_empty b.
Proof.
  intros H. destruct a, b; try reflexivity.
  - apply Permutation_nil in H. discriminate.
  - apply Permutation_sym, Permutation_nil in H. discriminate.
Qed.

Lemma route_cost_two_opt (limit : nat) (v : Vehicle) (seq : list Cargo) :
  0 <= cost_per_km v ->
  route_cost dist depot v (two_opt dist depot limit seq)
  <= route_cost dist depot v seq.
Proof.
  intros Hv. destruct (two_opt_spec limit seq) as [P D].
  unfold route_cost. rewrite (is_empty_perm P).
  destruct (is_empty seq); [lra | ].
  apply Rplus_le_compat_r. now apply Rmult_le_compat_r.
Qed.

Lemma excess_two_opt (limit : nat) (v : Vehicle) (seq : list Cargo) :
  excess_kg v (two_opt dist depot limit seq) = excess_kg v seq.
Proof.
  unfold excess_kg.
  now rewrite (total_weight_perm (proj1 (two_opt_spec limit seq))).
Qed.

Lemma fitness_refine (cfg : GAConfig) (fleet : list Vehicle) (ch : Chromosome) :
  fleet_ok fleet ->
  fitness cfg dist depot fleet (refine cfg dist depot ch)
  <= fitness cfg dist depot fleet ch.
Proof.
  intros Hf. unfold fitness, refine.
  assert (H : sum_R (map (fun p => route_cost dist depot (fst p) (snd p))
                         (combine fleet
                            (map (two_opt dist depot (two_opt_limit cfg)) ch)))
              <= sum_R (map (fun p => route_cost dist depot (fst p) (snd p))
                            (combine fleet ch)) /\
              total_excess fleet (map (two_opt dist depot (two_opt_limit cfg)) ch)
              = total_excess fleet ch).
  { revert ch. induction Hf as [ | v fleet Hv Hf IH]; intros ch.
    - split; [simpl; lra | reflexivity].
    - destruct ch as [ | seq ch]; [split; [simpl; lra | reflexivity] | ].
      destruct (IH ch) as [IH1 IH2]. unfold total_excess in *. simpl. split.
      + pose proof (@route_cost_two_opt (two_opt_limit cfg) v seq Hv). lra.
      + rewrite excess_two_opt, IH2. reflexivity. }
  destruct H as [H1 H2]. rewrite H2. lra.
Qed.

Lemma refine_valid (cfg : GAConfig) (cargos : list Cargo) (vehicles : nat)
  (ch : Chromosome) :
  valid_chromosome cargos vehicles ch ->
  valid_chromosome cargos vehicles (refine cfg dist depot ch).
Proof.
  intros [Hlen Hperm]. unfold refine. split; [now rewrite length_map | ].
  eapply Permutation_trans; [ | exact Hperm].
  clear. induction ch as [ | seq ch IH]; simpl; [constructor | ].
  apply Permutation_app; [apply two_opt_spec | exact IH].
Qed.

End TwoOpt.

Section Evolution.

Variable ops : Operators.
Variable cfg : GAConfig.
Variable dist : nat -> nat -> R.
Variable depot : nat.
Variable fleet : list Vehicle.

Local Abbreviation key := (fitness cfg dist depot fleet).

Local Open Scope R_scope.

Lemma breed_valid (cargos : list Cargo) (vehicles : nat)
  (pop : list Chromosome) (s : Rng) :
  operators_valid ops -> NoDup (map cargo_id cargos) ->
  population_ok cargos vehicles pop ->
  valid_chromosome cargos vehicles (fst (breed ops cfg key pop s)).
Proof.
  intros Hops Hnd [Hne Hall]. rewrite Forall_forall in Hall.
  unfold breed, rbind.
  pose proof (@tournament_in cfg key pop s Hne) as H1.
  destruct (tournament cfg key pop s) as [p1 s1]. cbn [fst] in H1.
  pose proof (@tournament_in cfg key pop s1 Hne) as H2.
  destruct (tournament cfg key pop s1) as [p2 s2]. cbn [fst] in H2.
  destruct (draw_unit cfg s2) as [u s3].
  assert (Hchild : forall s', valid_chromosome cargos vehicles
            (fst ((if below u (crossover_rate cfg) then crossover ops p1 p2
                   else rret p1) s'))).
  { intros s'. destruct (below u (crossover_rate cfg)).
    - apply (crossover_valid Hops); auto.
    - apply Hall, H1. }
  specialize (Hchild s3).
  destruct ((if below u (crossover_rate cfg) then crossover ops p1 p2
             else rret p1) s3) as [child s4]. cbn [fst] in Hchild.
  destruct (draw_unit cfg s4) as [u' s5].
  destruct (below u' (mutation_rate cfg)); [now apply mutate_valid | exact Hchild].
Qed.

Lemma firstn_in {A} (n : nat) (l : list A) (x : A) :
  In x (firstn n l) -> In x l.
Proof.
  intros H. rewrite <- (firstn_skipn n l). apply in_or_app. now left.
Qed.

Lemma elites_in (pop : list Chromosome) (c : Chromosome) :
  In c (elites cfg key pop) -> In c pop.
Proof.
  unfold elites. intros H. apply firstn_in in H.
  now apply (Permutation_in _ (sort_by_perm key pop)).
Qed.

Lemma carry_and_breed_ok (cargos : list Cargo) (vehicles : nat)
  (pop : list Chromosome) (s : Rng) :
  operators_valid ops -> NoDup (map cargo_id cargos) ->
  (0 < population_size cfg)%nat ->
  population_ok cargos vehicles pop ->
  population_ok cargos vehicles (fst (carry_and_breed ops cfg key pop s)).
Proof.
  intros Hops Hnd Hsize Hpop. pose proof Hpop as [Hne Hall].
  unfold carry_and_breed, rbind, rret.
  pose proof (@draw_many_spec _ (valid_chromosome cargos vehicles)
                (breed ops cfg key pop)
                (fun s0 => breed_valid s0 Hops Hnd Hpop)
                (population_size cfg - elite_count cfg) s) as [Hoff Hlen].
  destruct (draw_many (population_size cfg - elite_count cfg)
              (breed ops cfg key pop) s) as [offspring s']. cbn [fst] in *.
  split.
  - destruct (sort_by_nonempty key Hne) as (b & rest & Hsort).
    unfold elites. rewrite Hsort.
    destruct (elite_count cfg) as [ | k] eqn:Hk.
    + simpl. destruct offspring; [simpl in Hlen; lia | discriminate].
    + simpl. discriminate.
  - apply Forall_app. split; [ | exact Hoff].
    rewrite Forall_forall in *. intros c Hc.
    apply Hall. now apply elites_in.
Qed.

Lemma refine_elites_ok (cargos : list Cargo) (vehicles : nat)
  (pop : list Chromosome) :
  population_ok cargos vehicles pop ->
  population_ok cargos vehicles (refine_elites cfg dist depot pop).
Proof.
  intros [Hne Hall]. unfold refine_elites. split.
  - intros Hnil. apply Hne. apply (f_equal (@List.length _)) in Hnil.
    rewrite length_app, length_map in Hnil.
    rewrite <- (firstn_skipn (elite_count cfg) pop).
    apply length_zero_iff_nil. rewrite length_app. exact Hnil.
  - rewrite <- (firstn_skipn (elite_count cfg) pop) in Hall.
    apply Forall_app in Hall as [Hfirst Hrest].
    apply Forall_app. split; [ | exact Hrest].
    rewrite Forall_forall in *. intros c Hc.
    apply in_map_iff in Hc as (e & <- & He).
    apply refine_valid. now apply Hfirst.
Qed.

Lemma next_generation_ok (cargos : list Cargo) (vehicles : nat)
  (pop : list Chromosome) (s : Rng) :
  operators_valid ops -> NoDup (map cargo_id cargos) ->
  (0 < population_size cfg)%nat ->
  population_ok cargos vehicles pop ->
  population_ok cargos vehicles
    (fst (next_generation ops cfg dist depot fleet pop s)).
Proof.
  intros Hops Hnd Hsize Hpop. unfold next_generation, rbind, rret.
  pose proof (carry_and_breed_ok s Hops Hnd Hsize Hpop) as Hcarried.
  destruct (carry_and_breed ops cfg key pop s) as [carried s'].
  cbn [fst] in *. now apply refine_elites_ok.
Qed.

(** What elitism carries: the ranking's first [elite_count], as they are. *)
Lemma carry_and_breed_elites (pop : list Chromosome) (s : Rng) :
  exists offspring,
    fst (carry_and_breed ops cfg key pop s)
    = firstn (elite_count cfg) (sort_by key pop) ++ offspring.
Proof.
  unfold carry_and_breed, rbind, rret.
  destruct (draw_many _ _ s) as [offspring s']. now exists offspring.
Qed.

(** The best of a population, refined, is in the next generation. *)
Lemma next_generation_keeps_best (pop : list Chromosome) (s : Rng)
  (b : Chromosome) (rest : list Chromosome) :
  (1 <= elite_count cfg)%nat -> sort_by key pop = b :: rest ->
  In (refine cfg dist depot b)
     (fst (next_generation ops cfg dist depot fleet pop s)).
Proof.
  intros Helite Hsort. unfold next_generation, rbind, rret.
  destruct (carry_and_breed_elites pop s) as (offspring & Hcarried).
  destruct (carry_and_breed ops cfg key pop s) as [carried s'].
  cbn [fst] in *. subst carried. rewrite Hsort. unfold refine_elites.
  destruct (elite_count cfg) as [ | k]; [lia | ].
  cbn [firstn app map]. now left.
Qed.

(** With at least one elite the best fitness does not increase from one
    generation to the next. *)
Lemma next_generation_best (pop : list Chromosome) (s : Rng) :
  fleet_ok fleet -> (1 <= elite_count cfg)%nat -> pop <> [] ->
  best_fitness key (fst (next_generation ops cfg dist depot fleet pop s))
  <= best_fitness key pop.
Proof.
  intros Hfleet Helite Hne.
  destruct (sort_by_nonempty key Hne) as (b & rest & Hsort).
  pose proof (next_generation_keeps_best pop s Helite Hsort) as Hin.
  unfold best_fitness at 2. rewrite Hsort. unfold best_fitness.
  destruct (sort_by key (fst (next_generation ops cfg dist depot fleet pop s)))
    as [ | b' rest'] eqn:Hsort'.
  - exfalso.
    pose proof (sort_by_perm key
                  (fst (next_generation ops cfg dist depot fleet pop s))) as P.
    rewrite Hsort' in P. apply Permutation_nil in P. rewrite P in Hin.
    contradiction.
  - destruct (sort_by_head key _ Hsort') as [_ Hmin].
    specialize (Hmin _ Hin).
    pose proof (fitness_refine dist depot cfg b Hfleet). lra.
Qed.

Lemma evolve_spec (cargos : list Cargo) (vehicles : nat) (gens : nat) :
  operators_valid ops -> NoDup (map cargo_id cargos) ->
  (0 < population_size cfg)%nat ->
  forall stale pop s,
    population_ok cargos vehicles pop ->
    population_ok cargos vehicles
      (fst (evolve ops cfg dist depot fleet gens stale pop s)).
Proof.
  intros Hops Hnd Hsize. induction gens as [ | gens IH]; intros stale pop s Hpop.
  - exact Hpop.
  - cbn [evolve]. destruct (patience cfg <=? stale)%nat; [exact Hpop | ].
    unfold rbind.
    pose proof (next_generation_ok s Hops Hnd Hsize Hpop) as Hnext.
    destruct (next_generation ops cfg dist depot fleet pop s) as [pop' s'].
    cbn [fst] in Hnext. now apply IH.
Qed.

Lemma evolve_best (gens : nat) :
  fleet_ok fleet -> (1 <= elite_count cfg)%nat ->
  forall stale pop s,
    pop <> [] ->
    fst (evolve ops cfg dist depot fleet gens stale pop s) <> [] /\
    best_fitness key (fst (evolve ops cfg dist depot fleet gens stale pop s))
    <= best_fitness key pop.
Proof.
  intros Hfleet Helite.
  induction gens as [ | gens IH]; intros stale pop s Hne.
  - split; [exact Hne | simpl; lra].
  - cbn [evolve]. destruct (patience cfg <=? stale)%nat;
      [split; [exact Hne | simpl; lra] | ].
    unfold rbind.
    pose proof (next_generation_best s Hfleet Helite Hne) as Hbest.
    assert (Hne' : fst (next_generation ops cfg dist depot fleet pop s) <> []).
    { destruct (sort_by_nonempty key Hne) as (b & rest & Hsort).
      pose proof (next_generation_keeps_best pop s Helite Hsort) as Hin.
      intros Hnil. rewrite Hnil in Hin. contradiction. }
    destruct (next_generation ops cfg dist depot fleet pop s) as [pop' s'].
    cbn [fst] in *.
    destruct (IH (if below (best_fitness key pop') (best_fitness key pop)
                  then 0%nat else S stale) pop' s' Hne') as [N B].
    split; [exact N | lra].
Qed.

Lemma optimize_best_valid (cargos : list Cargo) (s : Rng) :
  operators_valid ops -> NoDup (map cargo_id cargos) ->
  (0 < population_size cfg)%nat -> (0 < List.length fleet)%nat ->
  valid_chromosome cargos (List.length fleet)
    (fst (optimize_best ops cfg dist depot cargos fleet s)).
Proof.
  intros Hops Hnd Hsize Hfleet. unfold optimize_best, rbind, rret.
  pose proof (@draw_many_spec _ (valid_chromosome cargos (List.length fleet))
                (initial_individual ops cargos (List.length fleet))
                (fun s0 => initial_valid Hops cargos s0 Hnd Hfleet)
                (population_size cfg) s) as [Hall Hlen].
  destruct (draw_many (population_size cfg)
              (initial_individual ops cargos (List.length fleet)) s)
    as [pop0 s1]. cbn [fst] in *.
  assert (Hpop0 : population_ok cargos (List.length fleet) pop0).
  { split; [ | exact Hall]. destruct pop0; [simpl in Hlen; lia | discriminate]. }
  pose proof (@evolve_spec cargos (List.length fleet) (max_generations cfg)
                Hops Hnd Hsize 0%nat pop0 s1 Hpop0) as [Hne Hfinal].
  destruct (evolve ops cfg dist depot fleet (max_generations cfg) 0 pop0 s1)
    as [pop s2]. cbn [fst] in *.
  rewrite Forall_forall in Hfinal. apply Hfinal.
  now apply sort_by_hd_in.
Qed.


End Evolution.

Section ReferenceOperators.

Local Open Scope nat_scope.

Lemma concat_push {A} (ch : list (list A)) (i : nat) (c : A) :
  i < List.length ch ->
  Permutation (List.concat (list_set i (nth i ch [] ++ [c]) ch))
              (c :: List.concat ch).
Proof.
  intros Hi.
  pose proof (concat_list_set_perm ch (nth i ch [] ++ [c]) Hi) as P.
  apply (Permutation_app_inv_l (nth i ch [])).
  eapply Permutation_trans; [apply Permutation_sym; exact P | ].
  rewrite <- app_assoc. apply Permutation_app_head. apply Permutation_refl.
Qed.

Lemma deal_valid (cargos : list Cargo) :
  forall offset ch,
    0 < List.length ch ->
    List.length (deal offset cargos ch) = List.length ch /\
    Permutation (List.concat (deal offset cargos ch)) (cargos ++ List.concat ch).
Proof.
  induction cargos as [ | c cargos IH]; intros offset ch Hlen; cbn [deal].
  - split; [reflexivity | apply Permutation_refl].
  - set (i := offset mod List.length ch).
    assert (Hi : i < List.length ch) by (apply Nat.mod_upper_bound; lia).
    destruct (IH (S offset) (list_set i (nth i ch [] ++ [c]) ch)) as [L P].
    { now rewrite list_set_length. }
    rewrite list_set_length in L. split; [exact L | ].
    eapply Permutation_trans; [exact P | ].
    eapply Permutation_trans;
      [apply Permutation_app_head, concat_push; exact Hi | ].
    apply Permutation_sym, Permutation_middle.
Qed.

Lemma concat_repeat_nil {A} (n : nat) : List.concat (repeat (@nil A) n) = [].
Proof. induction n; simpl; auto. Qed.

Lemma round_robin_valid (cfg : GAConfig) (cargos : list Cargo) (vehicles : nat)
  (s : Rng) :
  0 < vehicles ->
  valid_chromosome cargos vehicles (fst (round_robin cfg cargos vehicles s)).
Proof.
  intros Hv. unfold round_robin, rbind, rret.
  destruct (draw_below cfg vehicles s) as [offset s']. cbn [fst].
  destruct (deal_valid cargos offset (repeat [] vehicles)) as [L P].
  { now rewrite repeat_length. }
  rewrite repeat_length in L. rewrite concat_repeat_nil, app_nil_r in P.
  split; assumption.
Qed.

Lemma merge_routes_spec (a : Chromosome) :
  forall b,
    List.length (merge_routes a b) = Nat.max (List.length a) (List.length b) /\
    Permutation (List.concat (merge_routes a b))
                (List.concat a ++ List.concat b).
Proof.
  induction a as [ | x a IH]; intros b.
  - simpl. split; [reflexivity | apply Permutation_refl].
  - destruct b as [ | y b].
    + simpl. split; [reflexivity | ]. rewrite app_nil_r. apply Permutation_refl.
    + destruct (IH b) as [L P]. cbn [merge_routes List.concat List.length].
      split; [now rewrite L | ].
      rewrite <- !app_assoc. apply Permutation_app_head.
      eapply Permutation_trans; [apply Permutation_app_head; exact P | ].
      rewrite !app_assoc. apply Permutation_app_tail, Permutation_app_comm.
Qed.

Lemma concat_map_filter {A} (f : A -> bool) (ch : list (list A)) :
  List.concat (map (filter f) ch) = filter f (List.concat ch).
Proof.
  induction ch as [ | x ch IH]; simpl; [reflexivity | ].
  now rewrite IH, filter_app.
Qed.

Lemma filter_perm {A} (keep : A -> bool) (xs ys : list A)
  (H : Permutation xs ys) : Permutation (filter keep xs) (filter keep ys).
Proof.
  induction H as [ | x ? ? ? ? | x y ? | ]; simpl.
  - constructor.
  - destruct (keep x); [now constructor | assumption].
  - destruct (keep y), (keep x); try apply Permutation_refl. apply perm_swap.
  - eapply Permutation_trans; eassumption.
Qed.

Lemma filter_split_perm {A} (keep : A -> bool) (xs : list A) :
  Permutation xs (filter keep xs ++ filter (fun x => negb (keep x)) xs).
Proof.
  induction xs as [ | x xs IH]; simpl; [constructor | ].
  destruct (keep x); simpl.
  - now constructor.
  - eapply Permutation_trans; [apply perm_skip; exact IH | ].
    apply Permutation_middle.
Qed.

Lemma holds_id_true (ids : list nat) (c : Cargo) :
  holds_id ids c = true <-> In (cargo_id c) ids.
Proof.
  unfold holds_id. rewrite existsb_exists. split.
  - intros (x & Hx & Heq). apply Nat.eqb_eq in Heq. now subst.
  - intros H. exists (cargo_id c). split; [exact H | apply Nat.eqb_refl].
Qed.

(** Among cargo with distinct ids, filtering by the ids of a front part
    gives back that part. *)
Lemma filter_own_ids (kept rest : list Cargo) :
  NoDup (map cargo_id (kept ++ rest)) ->
  filter (holds_id (map cargo_id kept)) (kept ++ rest) = kept.
Proof.
  intros Hnd. rewrite filter_app.
  assert (H1 : filter (holds_id (map cargo_id kept)) kept = kept).
  { apply forallb_filter_id. apply forallb_forall. intros c Hc.
    apply holds_id_true. now apply in_map. }
  assert (H2 : filter (holds_id (map cargo_id kept)) rest = []).
  { rewrite map_app in Hnd.
    clear H1. induction rest as [ | c rest IH]; [reflexivity | ].
    simpl. destruct (holds_id (map cargo_id kept) c) eqn:Hc.
    - exfalso. apply holds_id_true in Hc.
      apply NoDup_remove_2 in Hnd. apply Hnd. apply in_or_app. now left.
    - apply IH. simpl in Hnd. now apply NoDup_remove_1 in Hnd. }
  now rewrite H1, H2, app_nil_r.
Qed.

Lemma cut_crossover_valid (cfg : GAConfig) (cargos : list Cargo)
  (vehicles : nat) (p1 p2 : Chromosome) (s : Rng) :
  NoDup (map cargo_id cargos) ->
  valid_chromosome cargos vehicles p1 ->
  valid_chromosome cargos vehicles p2 ->
  valid_chromosome cargos vehicles (fst (cut_crossover cfg p1 p2 s)).
Proof.
  intros Hnd [L1 P1] [L2 P2]. unfold cut_crossover, rbind, rret.
  destruct (draw_below cfg (S (List.length p1)) s) as [k s']. cbn [fst].
  set (kept := firstn k p1).
  set (taken := map cargo_id (List.concat kept)).
  destruct (merge_routes_spec kept
              (map (filter (fun c => negb (holds_id taken c))) p2)) as [L P].
  split.
  - rewrite L, length_map, L2. unfold kept. rewrite length_firstn. lia.
  - eapply Permutation_trans; [exact P | ].
    rewrite concat_map_filter.
    assert (Hkept : Permutation (filter (holds_id taken) cargos)
                                (List.concat kept)).
    { eapply Permutation_trans;
        [apply filter_perm, Permutation_sym; exact P1 | ].
      rewrite <- (firstn_skipn k p1), concat_app. fold kept. unfold taken.
      rewrite filter_own_ids; [apply Permutation_refl | ].
      rewrite <- concat_app. unfold kept. rewrite firstn_skipn.
      apply (Permutation_NoDup (Permutation_map cargo_id (Permutation_sym P1))).
      exact Hnd. }
    eapply Permutation_trans;
      [ | apply Permutation_sym, (filter_split_perm (holds_id taken))].
    apply Permutation_app; [apply Permutation_sym; exact Hkept | ].
    apply filter_perm. exact P2.
Qed.

Lemma reference_operators_valid (cfg : GAConfig) :
  operators_valid (reference_operators cfg).
Proof.
  constructor; cbn [reference_operators initial_individual crossover].
  - intros cargos vehicles s _ Hv. now apply round_robin_valid.
  - intros cargos vehicles p1 p2 s. apply cut_crossover_valid.
Qed.

End ReferenceOperators.

Section Routes.

Variable dist : nat -> nat -> R.
Variable depot : nat.

Local Open Scope nat_scope.









End Routes.





Section HeavyTrio.

Local Open Scope nat_scope.





End HeavyTrio.


(** C7. With at least one elite (ten in the design) the best fitness of a
    population does not increase from one generation to the next, nor over
    the whole loop: elitism carries the top individuals of the ranking
    unchanged into the next population, and the 2-opt refinement then
    applied to them never worsens their fitness; and a 2-opt refinement of
    a route never increases that route's distance. *)
Theorem elitism_and_two_opt_monotone (ops : Operators) (cfg : GAConfig)
  (dist : nat -> nat -> R) (depot : nat) (fleet : list Vehicle)
  (pop : list Chromosome) :
  fleet_ok fleet -> (1 <= elite_count cfg)%nat -> pop <> [] ->
  let key := fitness cfg dist depot fleet in
  (forall s,
     best_fitness key (fst (next_generation ops cfg dist depot fleet pop s))
     <= best_fitness key pop)%R /\
  (forall s,
     exists offspring,
       fst (carry_and_breed ops cfg key pop s)
       = firstn (elite_count cfg) (sort_by key pop) ++ offspring) /\
  (forall e, (key (refine cfg dist depot e) <= key e)%R) /\
  (forall gens stale s,
     best_fitness key (fst (evolve ops cfg dist depot fleet gens stale pop s))
     <= best_fitness key pop)%R /\
  (forall limit seq,
     route_distance dist depot (two_opt dist depot limit seq)
     <= route_distance dist depot seq)%R.
Proof.
  intros Hfleet Helite Hne key. subst key.
  split; [intros s; now apply next_generation_best | ].
  split; [intros s; apply carry_and_breed_elites | ].
  split; [intros e; now apply fitness_refine | ].
  split.
  { intros gens stale s.
    now apply (@evolve_best ops cfg dist depot fleet gens Hfleet Helite). }
  intros limit seq. apply two_opt_spec.
Qed.

Lemma elitism_and_two_opt_monotone_witness :
  fleet_ok (firstn 3 readme_fleet) /\ (1 <= elite_count default_config)%nat /\
  [[heavy_trio; []; []]] <> [] /\
  forall s,
    (best_fitness
       (fitness default_config (direct_distance [izmit; gebze; darica]) 1
                (firstn 3 readme_fleet))
       (fst (next_generation (reference_operators default_config) default_config
               (direct_distance [izmit; gebze; darica]) 1 (firstn 3 readme_fleet)
               [[heavy_trio; []; []]] s))
     <= best_fitness
          (fitness default_config (direct_distance [izmit; gebze; darica]) 1
                   (firstn 3 readme_fleet))
          [[heavy_trio; []; []]])%R.
Proof.
  assert (H1 : fleet_ok (firstn 3 readme_fleet)).
  { unfold fleet_ok. cbn. repeat constructor; cbn; lra. }
  assert (H2 : (1 <= elite_count default_config)%nat) by (cbn; lia).
  assert (H4 : [[heavy_trio; []; []]] <> (@nil Chromosome)) by discriminate.
  repeat split; try assumption.
  exact (proj1 (@elitism_and_two_opt_monotone
                  (reference_operators default_config) default_config
                  (direct_distance [izmit; gebze; darica]) 1
                  (firstn 3 readme_fleet) [[heavy_trio; []; []]]
                  H1 H2 H4)).
Defined.

(* ------------------------------------------------------------------ *)
(** ** The pipeline *)
(* ------------------------------------------------------------------ *)

Section Conservation.

Local Open Scope nat_scope.

Lemma map_id_set_status (s : CargoStatus) (l : list Cargo) :
  map cargo_id (map (set_status s) l) = map cargo_id l.
Proof. rewrite map_map. reflexivity. Qed.

Lemma pending_ids_distinct (cargos : list Cargo) :
  NoDup (map cargo_id cargos) ->
  NoDup (map cargo_id (filter is_pending cargos)).
Proof.
  intros Hnd. induction cargos as [ | c cargos IH]; [constructor | ].
  cbn [map filter] in *. apply NoDup_cons_iff in Hnd as [Hc Hrest].
  destruct (is_pending c); [ | now apply IH].
  cbn [map]. constructor; [ | now apply IH].
  intros Hin. apply Hc. apply in_map_iff in Hin as (d & Hd & Hin).
  apply filter_In in Hin as [Hin _]. apply in_map_iff. now exists d.
Qed.

(** The selector splits the pending cargo into selected and deferred. *)
Lemma select_ids (cargos : list Cargo) (fleet : list Vehicle) :
  Permutation
    (map cargo_id (selected (select cargos fleet))
     ++ map (fun d => cargo_id (fst d)) (deferred (select cargos fleet)))
    (map cargo_id (filter is_pending cargos)).
Proof.
  unfold select.
  destruct (total_weight (filter is_pending cargos) <=? base_capacity fleet).
  - cbn [selected deferred map]. rewrite app_nil_r, map_id_set_status.
    apply Permutation_refl.
  - destruct (knapsack_spec (fleet_capacity fleet) (filter is_pending cargos))
      as (_ & _ & P).
    destruct (knapsack (filter is_pending cargos) (fleet_capacity fleet))
      as [sel def]. cbn [fst snd selected deferred] in *.
    rewrite map_id_set_status, map_map. cbn [fst].
    rewrite <- (map_map (set_status Deferred) cargo_id), map_id_set_status.
    rewrite <- map_app. now apply Permutation_map.
Qed.

Lemma total_weight_zero (l : list Cargo) :
  Forall (fun c => 0 < weight_kg c) l -> total_weight l = 0 -> l = [].
Proof.
  intros H. destruct H as [ | c l Hc _]; [reflexivity | ].
  simpl. lia.
Qed.

Lemma selected_needs_fleet (snap : Snapshot) :
  validate snap = true ->
  let sel := select (snap_cargos snap) (snap_vehicles snap) in
  selected sel = [] \/ 0 < List.length (candidate_fleet sel).
Proof.
  intros Hval. unfold validate in Hval.
  apply andb_true_iff in Hval as [Hcargo Hfleet].
  apply andb_true_iff in Hfleet as [Hfleet _].
  cbv zeta. unfold select.
  destruct (Nat.leb_spec (total_weight (filter is_pending (snap_cargos snap)))
              (base_capacity (snap_vehicles snap))) as [Hfit | Hover].
  - cbn [selected candidate_fleet].
    destruct (base_fleet (snap_vehicles snap)) as [ | v rest] eqn:Hbase.
    + left. unfold base_capacity in Hfit. rewrite Hbase in Hfit. simpl in Hfit.
      rewrite (@total_weight_zero (filter is_pending (snap_cargos snap)));
        [reflexivity | | lia].
      apply Forall_forall. intros c Hc. apply filter_In in Hc as [Hc _].
      rewrite forallb_forall in Hcargo. specialize (Hcargo c Hc).
      apply andb_true_iff in Hcargo as [Hw _]. now apply Nat.ltb_lt.
    + right. simpl. lia.
  - destruct (knapsack _ _) as [sel def]. cbn [selected candidate_fleet].
    right. destruct (snap_vehicles snap); [discriminate | simpl; lia].
Qed.

Lemma plan_concat (fleet : list Vehicle) :
  forall ch : Chromosome,
    List.length ch = List.length fleet ->
    List.concat (map snd (filter (fun p => negb (is_empty (snd p)))
                                 (combine fleet ch)))
    = List.concat ch.
Proof.
  induction fleet as [ | v fleet IH]; intros [ | s ch]; simpl; intros H;
    try reflexivity; try discriminate.
  injection H as H. destruct s as [ | c s]; simpl.
  - now apply IH.
  - f_equal. now rewrite IH.
Qed.

Lemma routes_ids (dist : nat -> nat -> R) (depot : nat)
  (plan : list (Vehicle * list Cargo)) :
  List.concat (map assigned_cargo_ids
                   (map (fun p => make_route dist depot (fst p) (snd p)) plan))
  = map cargo_id (List.concat (map snd plan)).
Proof.
  induction plan as [ | [v s] plan IH]; simpl; [reflexivity | ].
  now rewrite IH, map_app.
Qed.

(** The ids on the routes are those of the selected cargo, each once. *)
Lemma optimize_ids (ops : Operators) (cfg : GAConfig) (dist : nat -> nat -> R)
  (depot : nat) (cargos : list Cargo) (fleet : list Vehicle) (seed : nat) :
  operators_valid ops -> (0 < population_size cfg) ->
  NoDup (map cargo_id cargos) ->
  cargos = [] \/ 0 < List.length fleet ->
  Permutation
    (List.concat (map assigned_cargo_ids
                      (optimize ops cfg dist depot cargos fleet seed)))
    (map cargo_id cargos).
Proof.
  intros Hops Hsize Hnd Hfleet.
  destruct (Nat.eq_0_gt_0_cases (List.length fleet)) as [Hz | Hpos].
  - destruct Hfleet as [-> | Hf]; [ | lia].
    apply length_zero_iff_nil in Hz. subst fleet.
    unfold optimize, materialise. simpl. constructor.
  - destruct (@optimize_best_valid ops cfg dist depot fleet cargos
                (seed_rng seed) Hops Hnd Hsize Hpos) as [Hlen Hperm].
    unfold optimize, materialise. rewrite routes_ids, plan_concat by exact Hlen.
    now apply Permutation_map.
Qed.

Lemma NoDup_app_disjoint {A} (l1 l2 : list A) (a : A) :
  NoDup (l1 ++ l2) -> In a l1 -> ~ In a l2.
Proof.
  induction l1 as [ | x l1 IH]; simpl; intros Hnd Hin; [contradiction | ].
  inversion Hnd as [ | ? ? Hx Hrest]; subst.
  destruct Hin as [-> | Hin]; [ | now apply IH].
  intros Hin2. apply Hx. apply in_or_app. now right.
Qed.

Lemma routes_holding_count (id : nat) (rs : list Route) :
  NoDup (List.concat (map assigned_cargo_ids rs)) ->
  (In id (List.concat (map assigned_cargo_ids rs)) ->
   List.length (routes_holding id rs) = 1) /\
  (~ In id (List.concat (map assigned_cargo_ids rs)) ->
   routes_holding id rs = []).
Proof.
  unfold routes_holding.
  induction rs as [ | r rs IH]; simpl; intros Hnd.
  - split; [contradiction | reflexivity].
  - assert (Hnd' : NoDup (List.concat (map assigned_cargo_ids rs))).
    { now apply NoDup_app_remove_l in Hnd. }
    destruct (IH Hnd') as [IH1 IH2].
    destruct (existsb (Nat.eqb id) (assigned_cargo_ids r)) eqn:Hr.
    + assert (Hin : In id (assigned_cargo_ids r)).
      { apply existsb_exists in Hr as (x & Hx & Heq).
        apply Nat.eqb_eq in Heq. now subst. }
      assert (Hout : ~ In id (List.concat (map assigned_cargo_ids rs))).
      { exact (NoDup_app_disjoint _ _ id Hnd Hin). }
      split.
      * intros _. simpl. now rewrite (IH2 Hout).
      * intros Hno. exfalso. apply Hno. apply in_or_app. now left.
    + assert (Hnot : ~ In id (assigned_cargo_ids r)).
      { intros Hin. apply Bool.not_true_iff_false in Hr. apply Hr.
        apply existsb_exists. exists id. split; [exact Hin | apply Nat.eqb_refl]. }
      split.
      * intros Hin. apply in_app_or in Hin as [Hin | Hin]; [contradiction | ].
        now apply IH1.
      * intros Hno. apply IH2. intros Hin. apply Hno. apply in_or_app. now right.
Qed.

End Conservation.

(** Conservation over any pair of operators that keep individuals
    partitions of the cargo. *)
Lemma run_conserves (ops : Operators) (cfg : GAConfig)
  (dist : nat -> nat -> R) (seed : nat) (snap : Snapshot) (out : Output) :
  operators_valid ops -> (0 < population_size cfg)%nat ->
  NoDup (map cargo_id (snap_cargos snap)) ->
  run_pipeline ops cfg dist seed snap = Completed out ->
  let chosen := map cargo_id
                    (selected (select (snap_cargos snap) (snap_vehicles snap))) in
  let put_off := map fst (deferred_cargo out) in
  NoDup (List.concat (map assigned_cargo_ids (routes out))) /\
  (forall id, In id chosen ->
     List.length (routes_holding id (routes out)) = 1%nat /\ ~ In id put_off) /\
  (forall id, In id put_off ->
     routes_holding id (routes out) = [] /\ ~ In id chosen) /\
  (forall c, In c (snap_cargos snap) -> is_pending c = true ->
     (List.length (routes_holding (cargo_id c) (routes out)) = 1%nat /\
      ~ In (cargo_id c) put_off) \/
     (routes_holding (cargo_id c) (routes out) = [] /\
      In (cargo_id c) put_off)).
Proof.
  intros Hops Hsize Hnd Hrun chosen put_off.
  unfold run_pipeline in Hrun.
  destruct (validate snap) eqn:Hval; [ | discriminate].
  destruct (find is_depot (snap_stations snap)) as [depot | ]; [ | discriminate].
  injection Hrun as <-. cbn [routes deferred_cargo] in *.
  set (sel := select (snap_cargos snap) (snap_vehicles snap)) in *.
  assert (Hput : put_off = map (fun d => cargo_id (fst d)) (deferred sel)).
  { unfold put_off. now rewrite map_map. }
  pose proof (select_ids (snap_cargos snap) (snap_vehicles snap)) as Hsplit.
  fold sel in Hsplit. fold chosen in Hsplit. rewrite <- Hput in Hsplit.
  assert (Hnd2 : NoDup (chosen ++ put_off)).
  { apply (Permutation_NoDup (Permutation_sym Hsplit)).
    now apply pending_ids_distinct. }
  assert (Hndc : NoDup chosen) by now apply NoDup_app_remove_r in Hnd2.
  pose proof (@optimize_ids ops cfg dist (station_id depot) (selected sel)
                (candidate_fleet sel) seed Hops Hsize Hndc
                (selected_needs_fleet snap Hval)) as Hids.
  set (rs := optimize ops cfg dist (station_id depot) (selected sel)
                      (candidate_fleet sel) seed) in *.
  assert (Hndr : NoDup (List.concat (map assigned_cargo_ids rs))).
  { now apply (Permutation_NoDup (Permutation_sym Hids)). }
  assert (Hon : forall id, In id chosen ->
            List.length (routes_holding id rs) = 1%nat /\ ~ In id put_off).
  { intros id Hid. split.
    - apply (routes_holding_count id rs Hndr).
      now apply (Permutation_in _ (Permutation_sym Hids)).
    - now apply (NoDup_app_disjoint _ _ id Hnd2). }
  assert (Hoff : forall id, In id put_off ->
            routes_holding id rs = [] /\ ~ In id chosen).
  { intros id Hid.
    assert (Hnc : ~ In id chosen).
    { intros Hc. exact (NoDup_app_disjoint _ _ id Hnd2 Hc Hid). }
    split; [ | exact Hnc].
    apply (routes_holding_count id rs Hndr).
    intros Hin. apply Hnc. now apply (Permutation_in _ Hids). }
  split; [exact Hndr | ]. split; [exact Hon | ]. split; [exact Hoff | ].
  intros c Hc Hpend.
  assert (Hin : In (cargo_id c) (chosen ++ put_off)).
  { apply (Permutation_in _ (Permutation_sym Hsplit)).
    apply in_map, filter_In. now split. }
  apply in_app_or in Hin as [Hin | Hin].
  - left. now apply Hon.
  - right. split; [now apply Hoff | exact Hin].
Qed.

(** C6. In the output of a completed run, no cargo id is listed twice on
    the routes; every cargo id the selector chose is on exactly one
    returned route and not in the deferred list; every deferred id is on no
    route and was not chosen; and every pending cargo id is one or the
    other - never both, never neither.  The run starts from random
    partitions and recombines by [cut_crossover]. *)
Theorem pipeline_conservation (cfg : GAConfig) (dist : nat -> nat -> R)
  (seed : nat) (snap : Snapshot) (out : Output) :
  (0 < population_size cfg)%nat ->
  NoDup (map cargo_id (snap_cargos snap)) ->
  run_pipeline (reference_operators cfg) cfg dist seed snap = Completed out ->
  let chosen := map cargo_id
                    (selected (select (snap_cargos snap) (snap_vehicles snap))) in
  let put_off := map fst (deferred_cargo out) in
  NoDup (List.concat (map assigned_cargo_ids (routes out))) /\
  (forall id, In id chosen ->
     List.length (routes_holding id (routes out)) = 1%nat /\ ~ In id put_off) /\
  (forall id, In id put_off ->
     routes_holding id (routes out) = [] /\ ~ In id chosen) /\
  (forall c, In c (snap_cargos snap) -> is_pending c = true ->
     (List.length (routes_holding (cargo_id c) (routes out)) = 1%nat /\
      ~ In (cargo_id c) put_off) \/
     (routes_holding (cargo_id c) (routes out) = [] /\
      In (cargo_id c) put_off)).
Proof.
  intros Hsize Hnd Hrun.
  exact (@run_conserves (reference_operators cfg) cfg dist seed snap out
           (reference_operators_valid cfg) Hsize Hnd Hrun).
Qed.

Lemma crowded_selection :
  map cargo_id (selected (select crowded_load readme_fleet)) = [5; 3; 1]%nat /\
  map (fun d => (cargo_id (fst d), snd d))
      (deferred (select crowded_load readme_fleet))
  = [(4%nat, [capacity_exceeded; rental_required]);
     (2%nat, [capacity_exceeded; rental_required])].
Proof. split; vm_compute; reflexivity. Qed.

Lemma crowded_snapshot_runs :
  run_pipeline (reference_operators default_config) default_config
    (direct_distance [izmit; gebze; darica]) 42 crowded_snapshot
  = Completed crowded_output.
Proof.
  unfold run_pipeline.
  assert (Hval : validate crowded_snapshot = true).
  { unfold validate, crowded_snapshot, vehicle_ok, nonneg. cbn.
    repeat match goal with
           | |- context [Rle_dec ?a ?b] =>
               destruct (Rle_dec a b); [ | exfalso; lra]
           end.
    reflexivity. }
  rewrite Hval. unfold crowded_output, crowded_routes.
  cbn [crowded_snapshot snap_stations snap_cargos snap_vehicles].
  change (find is_depot [izmit; gebze; darica]) with (Some izmit). cbv iota.
  cbv zeta. rewrite (proj2 crowded_selection). reflexivity.
Qed.

Lemma pipeline_conservation_witness :
  (0 < population_size default_config)%nat /\
  NoDup (map cargo_id (snap_cargos crowded_snapshot)) /\
  run_pipeline (reference_operators default_config) default_config
    (direct_distance [izmit; gebze; darica]) 42 crowded_snapshot
  = Completed crowded_output /\
  (forall id, In id [5; 3; 1]%nat ->
     List.length (routes_holding id (routes crowded_output)) = 1%nat /\
     ~ In id [4; 2]%nat) /\
  (forall id, In id [4; 2]%nat ->
     routes_holding id (routes crowded_output) = [] /\
     ~ In id [5; 3; 1]%nat).
Proof.
  assert (H2 : (0 < population_size default_config)%nat) by (cbn; lia).
  assert (H3 : NoDup (map cargo_id (snap_cargos crowded_snapshot))).
  { cbn. repeat constructor; cbn; intuition lia. }
  split; [exact H2 | ]. split; [exact H3 | ].
  split; [exact crowded_snapshot_runs | ].
  pose proof (@pipeline_conservation default_config
                (direct_distance [izmit; gebze; darica]) 42
                crowded_snapshot crowded_output H2 H3 crowded_snapshot_runs)
    as H.
  cbv zeta in H.
  change (snap_cargos crowded_snapshot) with crowded_load in H.
  change (snap_vehicles crowded_snapshot) with readme_fleet in H.
  rewrite (proj1 crowded_selection) in H.
  change (map fst (deferred_cargo crowded_output)) with [4; 2]%nat in H.
  split; [exact (proj1 (proj2 H)) | exact (proj1 (proj2 (proj2 H)))].
Defined.

(* ------------------------------------------------------------------ *)
(** ** [haversineDistance] as a distance on coordinates *)
(* ------------------------------------------------------------------ *)

Section HaversineMetric.

Local Open Scope R_scope.

Lemma hav_opp (x y : R) : hav (x - y) = hav (y - x).
Proof.
  rewrite !hav_cos. replace (x - y) with (- (y - x)) by ring.
  now rewrite cos_neg.
Qed.

Lemma haversine_a_swap (lat1 lon1 lat2 lon2 : R) :
  haversine_a lat1 lon1 lat2 lon2 = haversine_a lat2 lon2 lat1 lon1.
Proof.
  rewrite !haversine_a_radians.
  rewrite (hav_opp (radians lat2)), (hav_opp (radians lon2)). ring.
Qed.

End HaversineMetric.

(** X1. The distance does not depend on the direction of travel:
    [haversineDistance] gives the same value when the two points are
    exchanged. *)
Theorem haversineDistance_symmetric (lat1 lon1 lat2 lon2 : R) :
  haversineDistance lat1 lon1 lat2 lon2 = haversineDistance lat2 lon2 lat1 lon1.
Proof.
  unfold haversineDistance. cbv zeta.
  now rewrite (haversine_a_swap lat1 lon1 lat2 lon2).
Qed.

(* ------------------------------------------------------------------ *)
(** ** [getOSRMRoute] and [drawOSRMRoute]: what a call does to the page *)
(* ------------------------------------------------------------------ *)

Section RouteEffects.

Local Open Scope list_scope.

(** A call with two or more points, in full: the value and the world. *)
Lemma getOSRMRoute_run (rt : JSRuntime) (coords : list Coord) (w : World) :
  (2 <= List.length coords)%nat ->
  getOSRMRoute rt (Some coords) w
  = (Ret (osrm_answer rt (network w (osrm_url rt coords))),
     match osrm_caught rt (network w (osrm_url rt coords)) with
     | Some e => with_logs w [osrm_error_entry e]
     | None => w
     end).
Proof.
  intros Hlen. unfold getOSRMRoute.
  destruct (Nat.ltb_spec (List.length coords) 2) as [Hlt | _]; [lia | ].
  unfold bind, try_catch, fetch_json, lift, ret, console_log, osrm_answer,
    osrm_caught.
  destruct (network w (osrm_url rt coords)) as [ | | data]; try reflexivity.
  destruct (osrm_response_ok rt data) as [[ | ] | e]; try reflexivity.
  destruct (osrm_result rt data) as [r | e]; reflexivity.
Qed.

Lemma osrm_caught_no_answer (rt : JSRuntime) (ans : FetchOutcome) (e : JSError) :
  osrm_caught rt ans = Some e -> osrm_answer rt ans = None.
Proof.
  unfold osrm_caught, osrm_answer. destruct ans as [ | | data]; try reflexivity.
  destruct (osrm_response_ok rt data) as [[ | ] | e']; try reflexivity.
  destruct (osrm_result rt data); [discriminate | reflexivity].
Qed.

Lemma osrm_answer_points (rt : JSRuntime) (data : JSVal)
  (positions : list (list JSVal)) (metres : R) (dur : JSVal) :
  response_success data positions metres dur ->
  osrm_caught rt (BodyJson data) = None.
Proof.
  intros Hs. pose proof (@osrm_answer_success rt data positions metres dur Hs) as Ha.
  unfold osrm_answer in Ha. unfold osrm_caught.
  destruct (osrm_response_ok rt data) as [[ | ] | e]; try discriminate.
  destruct (osrm_result rt data); [reflexivity | discriminate].
Qed.

Lemma broken_answer_caught (rt : JSRuntime) :
  osrm_caught rt (BodyJson broken_answer) = Some TypeError.
Proof.
  unfold osrm_caught.
  rewrite (@osrm_response_ok_success rt broken_answer
             (JObj [("distance", JNum 1)]) [] eq_refl eq_refl).
  reflexivity.
Qed.

Lemma swap_lnglat_pair (c y : JSVal) :
  swap_lnglat c = Ret y -> is_latlng_pair y.
Proof.
  unfold swap_lnglat.
  destruct (get_index c 1) as [c1 | e]; cbn [bindO]; [ | discriminate].
  destruct (get_index c 0) as [c0 | e]; cbn [bindO]; [ | discriminate].
  intros [= <-]. now exists c1, c0.
Qed.

Lemma map_outcome_pairs (items ys : list JSVal) :
  map_outcome swap_lnglat items = Ret ys ->
  Forall is_latlng_pair ys /\ List.length ys = List.length items.
Proof.
  revert ys. induction items as [ | c items IH]; intros ys; cbn [map_outcome].
  - intros [= <-]. now split.
  - destruct (swap_lnglat c) as [y | e] eqn:Hy; [ | discriminate].
    destruct (map_outcome swap_lnglat items) as [rest | e]; [ | discriminate].
    intros [= <-]. destruct (IH rest eq_refl) as [Hall Hlen]. split.
    + constructor; [exact (swap_lnglat_pair c Hy) | exact Hall].
    + cbn [List.length]. now rewrite Hlen.
Qed.

Lemma osrm_result_shape (rt : JSRuntime) (data : JSVal) (r : OSRMRoute) :
  osrm_result rt data = Ret r ->
  Forall is_latlng_pair (coordinates r) /\ is_js_number (distance r).
Proof.
  unfold osrm_result.
  destruct (get_prop data "routes") as [routes | e]; cbn [bindO]; [ | discriminate].
  destruct (get_index routes 0) as [r0 | e]; cbn [bindO]; [ | discriminate].
  destruct (get_prop r0 "geometry") as [geom | e]; cbn [bindO]; [ | discriminate].
  destruct (get_prop geom "coordinates") as [cs | e]; cbn [bindO];
    [ | discriminate].
  destruct (js_array_map cs swap_lnglat) as [pts | e] eqn:Hpts; cbn [bindO];
    [ | discriminate].
  destruct (get_prop r0 "distance") as [dist | e]; cbn [bindO]; [ | discriminate].
  destruct (get_prop r0 "duration") as [dur | e]; cbn [bindO]; [ | discriminate].
  intros [= <-]. cbn [coordinates distance]. split.
  - destruct cs; try discriminate. cbn [js_array_map] in Hpts.
    exact (proj1 (map_outcome_pairs _ Hpts)).
  - unfold js_div, is_js_number.
    destruct (ToNumber rt dist) as [x | ]; [right; now exists (x / 1000)%R | now left].
Qed.

Lemma osrm_response_ok_code (rt : JSRuntime) (data : JSVal) :
  osrm_response_ok rt data = Ret true -> response_code_ok data.
Proof.
  unfold osrm_response_ok, response_code_ok.
  destruct (get_prop data "code") as [code | e]; cbn [bindO]; [ | discriminate].
  destruct code; cbn [strict_eq_str]; try discriminate.
  destruct (String.eqb_spec s "Ok") as [-> | _]; [reflexivity | discriminate].
Qed.

Lemma online_route :
  fst (getOSRMRoute plain_runtime (Some izmit_gebze) online_world)
  = Ret (Some (mkOSRMRoute
                 [JArr [JNum (407656 / 10000); JNum (299406 / 10000)];
                  JArr [JNum (408027 / 10000); JNum (294307 / 10000)]]
                 (JNum (48500 / 1000)) (JNum 2400))).
Proof.
  rewrite (@getOSRMRoute_run plain_runtime izmit_gebze online_world (le_n 2)).
  cbn [fst network online_world].
  now rewrite (@osrm_answer_success plain_runtime sample_answer _ _ _
                 sample_answer_success).
Qed.

End RouteEffects.

(** X8. What a call of [getOSRMRoute] with two or more points leaves behind.
    Nothing but the console changes.  The console gets exactly one entry,
    an error entry with the exception, when the request fails, the body is
    not JSON or reading the answer throws, and the result is then [null];
    an answer whose code is not 'Ok' gives [null] without any entry. *)
Theorem getOSRMRoute_console (rt : JSRuntime) (coords : list Coord) (w : World) :
  (2 <= List.length coords)%nat ->
  let ans := network w (osrm_url rt coords) in
  snd (getOSRMRoute rt (Some coords) w)
  = match osrm_caught rt ans with
    | Some e => with_logs w [osrm_error_entry e]
    | None => w
    end /\
  (forall e, osrm_caught rt ans = Some e ->
     fst (getOSRMRoute rt (Some coords) w) = Ret None) /\
  (ans = FetchRejects -> osrm_caught rt ans = Some NetworkError) /\
  (ans = BodyNotJson -> osrm_caught rt ans = Some SyntaxError) /\
  (ans = BodyJson JNull -> osrm_caught rt ans = Some TypeError) /\
  (forall data code,
     ans = BodyJson data -> get_prop data "code" = Ret code ->
     strict_eq_str code "Ok" = false ->
     getOSRMRoute rt (Some coords) w = (Ret None, w)).
Proof.
  intros Hlen ans. rewrite (@getOSRMRoute_run rt coords w Hlen). fold ans. cbn [fst snd].
  split; [reflexivity | ]. split.
  { intros e He. now rewrite (@osrm_caught_no_answer rt ans e He). }
  split; [now intros -> | ]. split; [now intros -> | ].
  split; [now intros -> | ].
  intros data code Hans Hcode Hne. rewrite Hans.
  unfold osrm_answer, osrm_caught, osrm_response_ok.
  rewrite Hcode. cbn [bindO]. rewrite Hne. reflexivity.
Qed.

Lemma getOSRMRoute_console_witness :
  (2 <= List.length izmit_gebze)%nat /\
  snd (getOSRMRoute plain_runtime (Some izmit_gebze) broken_world)
  = with_logs broken_world [osrm_error_entry TypeError] /\
  getOSRMRoute plain_runtime (Some izmit_gebze) noroute_world
  = (Ret None, noroute_world).
Proof.
  assert (H : (2 <= List.length izmit_gebze)%nat) by (cbn; lia).
  split; [exact H | ]. split.
  - pose proof (proj1 (@getOSRMRoute_console plain_runtime izmit_gebze
                         broken_world H)) as E.
    cbv zeta in E. rewrite E. cbn [network broken_world].
    now rewrite broken_answer_caught.
  - apply (proj2 (proj2 (proj2 (proj2 (proj2
             (@getOSRMRoute_console plain_runtime izmit_gebze noroute_world H))))))
      with (data := noroute_answer) (code := JStr "NoRoute"); reflexivity.
Defined.

(** X9. What a route looks like when [getOSRMRoute] returns one.  A route
    comes back only when two or more points were given and the network
    answered with JSON whose code is 'Ok'.  Then every point of the route is
    a two-element array, whatever the positions of the answer held, and the
    distance is a number (NaN when the answer's distance does not convert),
    never [null] or [undefined]; nothing was written to the console. *)
Theorem getOSRMRoute_route_shape (rt : JSRuntime)
  (points : option (list Coord)) (w : World) (r : OSRMRoute) :
  fst (getOSRMRoute rt points w) = Ret (Some r) ->
  Forall is_latlng_pair (coordinates r) /\
  is_js_number (distance r) /\
  snd (getOSRMRoute rt points w) = w /\
  exists coords data,
    points = Some coords /\ (2 <= List.length coords)%nat /\
    network w (osrm_url rt coords) = BodyJson data /\
    response_code_ok data.
Proof.
  destruct points as [coords | ]; [ | discriminate].
  destruct (Nat.ltb_spec (List.length coords) 2) as [Hlt | Hge].
  { rewrite getOSRMRoute_short by assumption. discriminate. }
  rewrite (@getOSRMRoute_run rt coords w Hge). cbn [fst snd].
  unfold osrm_answer, osrm_caught.
  destruct (network w (osrm_url rt coords)) as [ | | data] eqn:Hnet;
    try discriminate.
  destruct (osrm_response_ok rt data) as [[ | ] | e] eqn:Hok; try discriminate.
  destruct (osrm_result rt data) as [r' | e] eqn:Hres; [ | discriminate].
  intros [= <-]. destruct (osrm_result_shape rt data Hres) as [Hpts Hdist].
  split; [exact Hpts | ]. split; [exact Hdist | ]. split; [reflexivity | ].
  exists coords, data. repeat split; try assumption.
  exact (osrm_response_ok_code rt data Hok).
Qed.

Lemma getOSRMRoute_route_shape_witness :
  Forall is_latlng_pair
    [JArr [JNum (407656 / 10000); JNum (299406 / 10000)];
     JArr [JNum (408027 / 10000); JNum (294307 / 10000)]] /\
  is_js_number (JNum (48500 / 1000)).
Proof.
  pose proof (@getOSRMRoute_route_shape plain_runtime (Some izmit_gebze)
                online_world _ online_route) as H.
  split; [exact (proj1 H) | exact (proj1 (proj2 H))].
Defined.

(** X11. End to end on a well-formed answer: with two or more waypoints and
    an answer of code 'Ok' whose first route has a non-empty GeoJSON line
    of positions [[lng, lat]], each a pair of numbers, [drawOSRMRoute] draws
    that line, solid, with every position turned into [[lat, lng]], returns
    the route's metres divided by 1000 and its duration, and writes nothing
    to the console. *)
Theorem drawOSRMRoute_road (rt : JSRuntime) (map : nat)
  (waypoints : list Coord) (color : option string) (weight : option R)
  (w : World) (data : JSVal) (lnglats : list (R * R)) (metres : R)
  (dur : JSVal) :
  (2 <= List.length waypoints)%nat ->
  network w (osrm_url rt waypoints) = BodyJson data ->
  response_success data (List.map lnglat_position lnglats) metres dur ->
  lnglats <> [] ->
  let line := road_polyline (List.map leaflet_latlng lnglats) color weight in
  drawOSRMRoute rt map waypoints color weight w
  = (Ret (mkDrawResult line (JNum (metres / 1000)) dur),
     mkWorld (console w) (network w) (leaflet_layers w ++ [(map, line)])%list
             (clock w) (rand_seq w) (rand_pos w)).
Proof.
  intros Hlen Hnet Hs Hpos line. unfold drawOSRMRoute, bind.
  rewrite (@getOSRMRoute_run rt waypoints w Hlen), Hnet.
  rewrite (@osrm_answer_success rt data _ metres dur Hs),
    (@osrm_answer_points rt data _ metres dur Hs).
  cbn [coordinates distance duration].
  rewrite List.map_map.
  change (fun x => to_leaflet (lnglat_position x)) with leaflet_latlng.
  subst line. destruct lnglats as [ | p ps]; [congruence | ].
  reflexivity.
Qed.

Lemma drawOSRMRoute_road_witness :
  drawOSRMRoute plain_runtime 0 izmit_gebze None None online_world
  = (Ret (mkDrawResult
            (road_polyline
               [JArr [JNum (407656 / 10000); JNum (299406 / 10000)];
                JArr [JNum (408027 / 10000); JNum (294307 / 10000)]]
               None None)
            (JNum (48500 / 1000)) (JNum 2400)),
     mkWorld [] (network online_world)
       [(0%nat,
         road_polyline
           [JArr [JNum (407656 / 10000); JNum (299406 / 10000)];
            JArr [JNum (408027 / 10000); JNum (294307 / 10000)]]
           None None)]
       (clock online_world) (rand_seq online_world) (rand_pos online_world)).
Proof.
  assert (H : (2 <= List.length izmit_gebze)%nat) by (cbn; lia).
  apply (@drawOSRMRoute_road plain_runtime 0 izmit_gebze None None online_world
           sample_answer
           [((299406 / 10000)%R, (407656 / 10000)%R);
            ((294307 / 10000)%R, (408027 / 10000)%R)]
           48500 (JNum 2400) H eq_refl sample_answer_success).
  discriminate.
Defined.

(** X12. Too few waypoints.  With fewer than two waypoints, none included,
    [drawOSRMRoute] never consults the network: whatever the server would
    answer, it logs the fallback warning, adds the dashed line through the
    waypoints it was given (an empty line for no waypoint) and returns
    [distance: null, duration: null]. *)
Theorem drawOSRMRoute_few_points (rt : JSRuntime) (map : nat)
  (waypoints : list Coord) (color : option string) (weight : option R)
  (w : World) :
  (List.length waypoints < 2)%nat ->
  drawOSRMRoute rt map waypoints color weight w
  = (Ret (mkDrawResult (fallback_polyline waypoints color weight) JNull JNull),
     mkWorld (console w ++ [fallback_warning])%list (network w)
             (leaflet_layers w
              ++ [(map, fallback_polyline waypoints color weight)])%list
             (clock w) (rand_seq w) (rand_pos w)).
Proof.
  intros Hlen. unfold drawOSRMRoute, bind.
  now rewrite (@getOSRMRoute_short rt waypoints w Hlen).
Qed.

Lemma drawOSRMRoute_few_points_witness :
  drawOSRMRoute plain_runtime 0 [] None None online_world
  = (Ret (mkDrawResult (fallback_polyline [] None None) JNull JNull),
     mkWorld [fallback_warning] (network online_world)
             [(0%nat, fallback_polyline [] None None)]
             (clock online_world) (rand_seq online_world)
             (rand_pos online_world)).
Proof.
  apply (@drawOSRMRoute_few_points plain_runtime 0 [] None None online_world).
  cbn. lia.
Defined.

(* ------------------------------------------------------------------ *)
(** ** [generateTrackingNumber]: alphabet and collisions *)
(* ------------------------------------------------------------------ *)


(** X13. Whenever the clock is not before the epoch, a tracking number
    consists of digits and upper-case letters only, and has between 4 and 13
    characters; the call takes one draw from the random generator and
    changes nothing else. *)
Theorem generateTrackingNumber_alphanumeric (w : World) :
  (0 <= clock w)%Z ->
  exists s,
    generateTrackingNumber w
    = (Ret s,
       mkWorld (console w) (network w) (leaflet_layers w) (clock w) (rand_seq w)
               (S (rand_pos w))) /\
    string_forallb is_upper_base36 s = true /\
    (4 <= String.length s <= 13)%nat.
Proof.
  intros Hnow.
  exists ("KOC" ++ js_slice_last 6 (Z_toString (clock w))
          ++ random_part (rand_seq w (rand_pos w)))%string.
  split; [reflexivity | ]. unfold random_part.
  pose proof (random_fragment (rand_seq w (rand_pos w))) as [Hfl Hfu].
  cbv zeta in Hfl, Hfu.
  set (ts := js_slice_last 6 (Z_toString (clock w))).
  assert (Hts : string_forallb is_upper_base36 ts = true).
  { apply (@string_forallb_weaken is_decimal_digit is_upper_base36 ts
             decimal_is_base36).
    apply substring_forallb. now apply Z_toString_decimal. }
  assert (Hlen : (1 <= String.length ts <= 6)%nat).
  { unfold ts, js_slice_last. rewrite substring_length.
    assert (H1 : (1 <= String.length (Z_toString (clock w)))%nat).
    { unfold Z_toString. destruct (Z.ltb_spec (clock w) 0); [lia | ].
      apply decimal_digits_nonempty. }
    lia. }
  split.
  - rewrite !string_forallb_app, Hts, Hfu. reflexivity.
  - rewrite !string_length_app. change (String.length "KOC") with 3%nat. lia.
Qed.

Lemma generateTrackingNumber_alphanumeric_witness :
  (0 <= clock epoch_world)%Z /\
  exists s,
    generateTrackingNumber epoch_world
    = (Ret s,
       mkWorld (console epoch_world) (network epoch_world)
               (leaflet_layers epoch_world) (clock epoch_world)
               (rand_seq epoch_world) (S (rand_pos epoch_world))) /\
    string_forallb is_upper_base36 s = true /\
    (4 <= String.length s <= 13)%nat.
Proof.
  assert (H : (0 <= clock epoch_world)%Z) by (cbn; lia).
  split; [exact H | ].
  exact (@generateTrackingNumber_alphanumeric epoch_world H).
Defined.

(** X14. When two calls collide.  At clocks of six or more digits, two
    calls return the same tracking number exactly when the clocks agree
    modulo 1 000 000 milliseconds and the two random draws agree on their
    first four base-36 digits: numbers can repeat every 1000 seconds. *)
Theorem generateTrackingNumber_collision (w1 w2 : World) :
  (100000 <= clock w1)%Z -> (100000 <= clock w2)%Z ->
  fst (generateTrackingNumber w1) = fst (generateTrackingNumber w2)
  <->
  (clock w1 mod 1000000 = clock w2 mod 1000000)%Z /\
  List.map dval (firstn 4 (rand_seq w1 (rand_pos w1)))
  = List.map dval (firstn 4 (rand_seq w2 (rand_pos w2))).
Proof.
  intros H1 H2.
  rewrite (@generateTrackingNumber_run w1 H1), (@generateTrackingNumber_run w2 H2).
  cbn [fst]. rewrite !random_part_digits.
  change 1000000%Z with (10 ^ Z.of_nat 6)%Z.
  split.
  - intros H.
    assert (H' : forall a b : string, Ret a = Ret b :> Outcome string -> a = b)
      by (intros a b E; congruence).
    apply H' in H. clear H'.
    apply (@string_app_split "KOC" "KOC") in H as [_ H]; [ | reflexivity].
    apply string_app_split in H as [Hts Hr];
      [ | now rewrite !padded_digits_length].
    split; [now apply padded_digits_inj | now apply digits36_same].
  - intros [Hts Hr]. apply digits36_same in Hr.
    now rewrite Hr, (@padded_digits_same 6 (clock w1) (clock w2) EmptyString Hts).
Qed.

Lemma generateTrackingNumber_collision_witness :
  (100000 <= clock sample_world)%Z /\ (100000 <= clock later_world)%Z /\
  clock sample_world <> clock later_world /\
  fst (generateTrackingNumber sample_world)
  = fst (generateTrackingNumber later_world).
Proof.
  assert (H1 : (100000 <= clock sample_world)%Z) by (cbn; lia).
  assert (H2 : (100000 <= clock later_world)%Z) by (cbn; lia).
  split; [exact H1 | ]. split; [exact H2 | ]. split; [cbn; lia | ].
  apply (proj2 (@generateTrackingNumber_collision sample_world later_world H1 H2)).
  split; reflexivity.
Defined.

(** X15. How long a tracking number is.  At clocks of six or more digits
    the number has nine characters plus one for each of the first four
    base-36 digits that the random draw prints: thirteen characters unless
    the draw prints fewer than four digits, and only nine when it is 0. *)
Theorem generateTrackingNumber_length (w : World) :
  (100000 <= clock w)%Z ->
  exists s,
    fst (generateTrackingNumber w) = Ret s /\
    String.length s
    = (9 + Nat.min 4 (List.length (rand_seq w (rand_pos w))))%nat.
Proof.
  intros Hnow. rewrite (@generateTrackingNumber_run w Hnow). cbn [fst].
  eexists. split; [reflexivity | ].
  rewrite !string_length_app, padded_digits_length, random_part_digits.
  rewrite toUpperCase_length, string_of_digits36_length, length_firstn.
  reflexivity.
Qed.

Lemma generateTrackingNumber_length_witness :
  (100000 <= clock sample_world)%Z /\
  exists s,
    fst (generateTrackingNumber sample_world) = Ret s /\
    String.length s = 13%nat.
Proof.
  assert (H : (100000 <= clock sample_world)%Z) by (cbn; lia).
  split; [exact H | ].
  exact (@generateTrackingNumber_length sample_world H).
Defined.

(* ------------------------------------------------------------------ *)
(** ** [showLoading]: the overlay as a switch *)
(* ------------------------------------------------------------------ *)

Section Overlay.

Local Open Scope nat_scope.
Local Open Scope list_scope.

Variable id : string.

Lemma DomNode_forest_ind (P : DomNode -> Prop) :
  (forall s, P (DomText s)) ->
  (forall t i c ch, Forall P ch -> P (DomElement t i c ch)) ->
  forall n, P n.
Proof.
  intros Htext Helem. fix IH 1. intros [s | t i c ch]; [apply Htext | ].
  apply Helem. induction ch as [ | x rest IHch]; constructor;
    [apply IH | exact IHch].
Qed.

Lemma find_in_node_element (t i c : string) (ch : list DomNode) :
  find_in_node id (DomElement t i c ch)
  = if String.eqb i id then Some (DomElement t i c ch)
    else find_in_forest id ch.
Proof.
  cbn [find_in_node]. destruct (String.eqb i id); [reflexivity | ].
  induction ch as [ | x rest IH]; [reflexivity | ].
  cbn [find_in_forest]. destruct (find_in_node id x); [reflexivity | exact IH].
Qed.

Lemma remove_in_node_element (t i c : string) (ch : list DomNode) :
  remove_in_node id (DomElement t i c ch)
  = DomElement t i c (remove_in_forest id ch).
Proof.
  cbn [remove_in_node]. f_equal.
  induction ch as [ | x rest IH]; [reflexivity | ].
  cbn [remove_in_forest]. destruct (has_id id x); [reflexivity | ].
  destruct (find_in_node id x); [reflexivity | now rewrite IH].
Qed.

Lemma count_in_node_element (t i c : string) (ch : list DomNode) :
  count_in_node id (DomElement t i c ch)
  = (if String.eqb i id then 1 else 0) + count_in_forest id ch.
Proof.
  cbn [count_in_node]. f_equal.
  induction ch as [ | x rest IH]; [reflexivity | ].
  cbn [count_in_forest]. now rewrite IH.
Qed.

Lemma prune_node_element (t i c : string) (ch : list DomNode) :
  prune_node id (DomElement t i c ch)
  = DomElement t i c (prune_forest id ch).
Proof.
  cbn [prune_node]. f_equal.
  induction ch as [ | x rest IH]; [reflexivity | ].
  cbn [prune_forest]. destruct (has_id id x); now rewrite IH.
Qed.

Lemma has_id_found (n : DomNode) :
  has_id id n = true -> find_in_node id n = Some n.
Proof.
  destruct n as [s | t i c ch]; [discriminate | ].
  cbn [has_id]. intros H. now rewrite find_in_node_element, H.
Qed.

Lemma has_id_counted (n : DomNode) :
  has_id id n = true -> 1 <= count_in_node id n.
Proof.
  destruct n as [s | t i c ch]; [discriminate | ].
  cbn [has_id]. intros H. rewrite count_in_node_element, H. lia.
Qed.

Lemma not_found_no_id (n : DomNode) :
  find_in_node id n = None -> has_id id n = false.
Proof.
  intros H. destruct (has_id id n) eqn:E; [ | reflexivity].
  apply has_id_found in E. congruence.
Qed.

(** Nothing is found exactly when nothing is counted. *)
Lemma find_count_node (n : DomNode) :
  find_in_node id n = None <-> count_in_node id n = 0.
Proof.
  induction n as [s | t i c ch IH] using DomNode_forest_ind;
    [now split | ].
  rewrite find_in_node_element, count_in_node_element.
  destruct (String.eqb i id); [split; [discriminate | lia] | ].
  cbn [Nat.add]. induction IH as [ | x rest Hx _ IHrest]; [now split | ].
  cbn [find_in_forest count_in_forest].
  destruct (find_in_node id x) as [y | ].
  - split; [discriminate | ]. intros H.
    assert (H0 : count_in_node id x = 0) by lia.
    apply Hx in H0. discriminate.
  - assert (H0 : count_in_node id x = 0) by now apply Hx.
    rewrite H0. exact IHrest.
Qed.

Lemma find_count_forest (l : list DomNode) :
  find_in_forest id l = None <-> count_in_forest id l = 0.
Proof.
  induction l as [ | x rest IH]; [now split | ].
  cbn [find_in_forest count_in_forest].
  pose proof (find_count_node x) as Hx.
  destruct (find_in_node id x) as [y | ].
  - split; [discriminate | ]. intros H.
    assert (H0 : count_in_node id x = 0) by lia.
    apply Hx in H0. discriminate.
  - assert (H0 : count_in_node id x = 0) by now apply Hx.
    rewrite H0. exact IH.
Qed.

(** Removing the element that was found takes at least one element with
    the id out of the tree. *)
Lemma remove_forest_step (l : list DomNode) :
  Forall (fun n => has_id id n = false -> find_in_node id n <> None ->
                   count_in_node id (remove_in_node id n) < count_in_node id n) l ->
  find_in_forest id l <> None ->
  count_in_forest id (remove_in_forest id l) < count_in_forest id l.
Proof.
  induction 1 as [ | x rest Hx _ IH]; [now intros [] | ].
  cbn [find_in_forest remove_in_forest count_in_forest]. intros Hfound.
  destruct (has_id id x) eqn:Hid.
  - pose proof (has_id_counted x Hid). lia.
  - destruct (find_in_node id x) as [y | ] eqn:Hfx.
    + cbn [count_in_forest].
      assert (count_in_node id (remove_in_node id x) < count_in_node id x)
        by (apply Hx; [reflexivity | congruence]).
      lia.
    + cbn [count_in_forest]. specialize (IH Hfound). lia.
Qed.

Lemma remove_node_fewer (n : DomNode) :
  has_id id n = false -> find_in_node id n <> None ->
  count_in_node id (remove_in_node id n) < count_in_node id n.
Proof.
  induction n as [s | t i c ch IH] using DomNode_forest_ind;
    [now intros _ [] | ].
  cbn [has_id]. intros Hid.
  rewrite find_in_node_element, remove_in_node_element,
          !count_in_node_element, Hid.
  intros Hfound. pose proof (remove_forest_step IH Hfound). lia.
Qed.

Lemma remove_forest_fewer (l : list DomNode) :
  find_in_forest id l <> None ->
  count_in_forest id (remove_in_forest id l) < count_in_forest id l.
Proof.
  apply remove_forest_step, Forall_forall. intros n _. apply remove_node_fewer.
Qed.

(** Removal touches nothing outside the elements with the id. *)
Lemma remove_node_keeps_id (n : DomNode) :
  has_id id (remove_in_node id n) = has_id id n.
Proof. destruct n as [s | t i c ch]; [reflexivity | ]. now rewrite remove_in_node_element. Qed.

Lemma prune_remove_step (l : list DomNode) :
  Forall (fun n => prune_node id (remove_in_node id n) = prune_node id n) l ->
  prune_forest id (remove_in_forest id l) = prune_forest id l.
Proof.
  induction 1 as [ | x rest Hx _ IH]; [reflexivity | ].
  cbn [remove_in_forest prune_forest].
  destruct (has_id id x) eqn:Hid; [reflexivity | ].
  destruct (find_in_node id x) as [y | ].
  - cbn [prune_forest]. now rewrite remove_node_keeps_id, Hid, Hx.
  - cbn [prune_forest]. now rewrite Hid, IH.
Qed.

Lemma prune_remove_node (n : DomNode) :
  prune_node id (remove_in_node id n) = prune_node id n.
Proof.
  induction n as [s | t i c ch IH] using DomNode_forest_ind; [reflexivity | ].
  rewrite remove_in_node_element, !prune_node_element.
  now rewrite (prune_remove_step IH).
Qed.

Lemma prune_remove_forest (l : list DomNode) :
  prune_forest id (remove_in_forest id l) = prune_forest id l.
Proof.
  apply prune_remove_step, Forall_forall. intros n _. apply prune_remove_node.
Qed.

Lemma prune_forest_last (l : list DomNode) (n : DomNode) :
  has_id id n = true -> prune_forest id (l ++ [n]) = prune_forest id l.
Proof.
  intros Hn. induction l as [ | x rest IH]; cbn [app prune_forest].
  - now rewrite Hn.
  - now rewrite IH.
Qed.

Lemma count_forest_last (l : list DomNode) (n : DomNode) :
  count_in_forest id (l ++ [n]) = count_in_forest id l + count_in_node id n.
Proof.
  induction l as [ | x rest IH]; cbn [app count_in_forest]; lia.
Qed.

Lemma find_forest_last (l : list DomNode) (n : DomNode) :
  has_id id n = true -> find_in_forest id (l ++ [n]) <> None.
Proof.
  intros Hn. induction l as [ | x rest IH]; cbn [app find_in_forest].
  - now rewrite (has_id_found n Hn).
  - destruct (find_in_node id x); [discriminate | exact IH].
Qed.

(** Appending an element with the id to a forest without one and removing
    what is then found gives the forest back. *)
Lemma remove_forest_last (l : list DomNode) (n : DomNode) :
  find_in_forest id l = None -> has_id id n = true ->
  remove_in_forest id (l ++ [n]) = l.
Proof.
  intros Hl Hn. induction l as [ | x rest IH]; cbn [app remove_in_forest].
  - now rewrite Hn.
  - cbn [find_in_forest] in Hl.
    destruct (find_in_node id x) as [y | ] eqn:Hx; [discriminate | ].
    rewrite (not_found_no_id x Hx). now rewrite IH.
Qed.

End Overlay.

Section ShowLoading.

Local Open Scope nat_scope.
Local Open Scope list_scope.

Lemma getElementById_count (d : Document) :
  getElementById "loadingOverlay" d = None <-> overlay_count d = 0.
Proof.
  unfold getElementById, overlay_count.
  pose proof (find_count_forest "loadingOverlay" (doc_head d)) as Hh.
  pose proof (find_count_forest "loadingOverlay" (doc_body d)) as Hb.
  destruct (find_in_forest "loadingOverlay" (doc_head d)) as [y | ].
  - split; [discriminate | ]. intros H.
    assert (H0 : count_in_forest "loadingOverlay" (doc_head d) = 0) by lia.
    apply Hh in H0. discriminate.
  - assert (H0 : count_in_forest "loadingOverlay" (doc_head d) = 0)
      by now apply Hh.
    rewrite H0. exact Hb.
Qed.

(** The four cases of a call. *)
Lemma showLoading_cases (show : JSVal) (d : Document) :
  showLoading show d
  = match getElementById "loadingOverlay" d, loading_requested show with
    | None, true => body_appendChild loading_overlay d
    | Some _, false => remove_found "loadingOverlay" d
    | _, _ => d
    end.
Proof.
  unfold showLoading, loading_requested.
  destruct (getElementById "loadingOverlay" d);
    destruct (truthy match show with JUndefined => JBool true | _ => show end);
    reflexivity.
Qed.

Lemma remove_found_fewer (d : Document) :
  getElementById "loadingOverlay" d <> None ->
  overlay_count (remove_found "loadingOverlay" d) < overlay_count d.
Proof.
  unfold getElementById, remove_found, overlay_count. intros H.
  destruct (find_in_forest "loadingOverlay" (doc_head d)) as [y | ] eqn:Hh;
    cbn [doc_head doc_body].
  - assert (Hh' : find_in_forest "loadingOverlay" (doc_head d) <> None)
      by congruence.
    pose proof (@remove_forest_fewer "loadingOverlay" _ Hh'). lia.
  - pose proof (@remove_forest_fewer "loadingOverlay" _ H). lia.
Qed.

Lemma appended_overlay_found (d : Document) :
  getElementById "loadingOverlay" (body_appendChild loading_overlay d) <> None.
Proof.
  unfold getElementById, body_appendChild. cbn [doc_head doc_body].
  destruct (find_in_forest "loadingOverlay" (doc_head d)); [discriminate | ].
  now apply find_forest_last.
Qed.

Lemma showLoading_step (show : JSVal) (d : Document) :
  overlay_count d <= 1 ->
  overlay_count (showLoading show d) = (if loading_requested show then 1 else 0).
Proof.
  intros Hinv. rewrite showLoading_cases.
  pose proof (getElementById_count d) as Hcount.
  pose proof (remove_found_fewer d) as Hrem.
  destruct (getElementById "loadingOverlay" d) as [y | ];
    destruct (loading_requested show).
  - assert (overlay_count d <> 0) by (intros E; apply Hcount in E; discriminate).
    lia.
  - assert (overlay_count (remove_found "loadingOverlay" d) < overlay_count d)
      by (apply Hrem; discriminate).
    lia.
  - unfold overlay_count, body_appendChild. cbn [doc_head doc_body].
    rewrite count_forest_last.
    assert (H0 : overlay_count d = 0) by now apply Hcount.
    unfold overlay_count in H0.
    change (count_in_node "loadingOverlay" loading_overlay) with 1. lia.
  - now apply Hcount.
Qed.

Lemma showLoading_content (show : JSVal) (d : Document) :
  page_content (showLoading show d) = page_content d.
Proof.
  rewrite showLoading_cases.
  destruct (getElementById "loadingOverlay" d) as [y | ];
    destruct (loading_requested show); try reflexivity.
  - unfold remove_found, page_content.
    destruct (find_in_forest "loadingOverlay" (doc_head d));
      cbn [doc_head doc_body]; now rewrite prune_remove_forest.
  - unfold body_appendChild, page_content. cbn [doc_head doc_body].
    now rewrite prune_forest_last.
Qed.

Lemma showLoading_calls_content (calls : list JSVal) (d : Document) :
  page_content (showLoading_calls calls d) = page_content d.
Proof.
  unfold showLoading_calls. revert d.
  induction calls as [ | v rest IH]; intros d; cbn [fold_left];
    [reflexivity | ].
  now rewrite IH, showLoading_content.
Qed.

Lemma showLoading_calls_bounded (calls : list JSVal) (d : Document) :
  overlay_count d <= 1 -> overlay_count (showLoading_calls calls d) <= 1.
Proof.
  unfold showLoading_calls. revert d.
  induction calls as [ | v rest IH]; intros d Hinv; cbn [fold_left];
    [exact Hinv | ].
  apply IH. rewrite (@showLoading_step v d Hinv).
  destruct (loading_requested v); lia.
Qed.

End ShowLoading.

(** X16. The last call wins.  On a page with at most one element of id
    [loadingOverlay], after any run of calls of [showLoading] there is
    exactly one such element if the last call asked for the overlay (a
    truthy argument, or none) and no such element otherwise, however many
    calls of either kind came before; and everything on the page outside
    such elements is as it was. *)
Theorem showLoading_last_call_wins (calls : list JSVal) (last : JSVal)
  (d : Document) :
  (overlay_count d <= 1)%nat ->
  overlay_count (showLoading_calls (calls ++ [last])%list d)
  = (if loading_requested last then 1 else 0)%nat /\
  page_content (showLoading_calls (calls ++ [last])%list d) = page_content d.
Proof.
  intros Hinv. split; [ | apply showLoading_calls_content].
  unfold showLoading_calls. rewrite fold_left_app. cbn [fold_left].
  apply showLoading_step. now apply showLoading_calls_bounded.
Qed.

Lemma showLoading_last_call_wins_witness :
  (overlay_count plain_page <= 1)%nat /\
  overlay_count
    (showLoading_calls [JUndefined; JBool true; JStr "x"; JBool false] plain_page)
  = 0%nat.
Proof.
  assert (H : (overlay_count plain_page <= 1)%nat) by (cbn; lia).
  split; [exact H | ].
  exact (proj1 (@showLoading_last_call_wins [JUndefined; JBool true; JStr "x"]
                  (JBool false) plain_page H)).
Defined.

(** X17. Showing and then hiding gives the page back: on a page where
    [getElementById('loadingOverlay')] finds nothing, a call that asks for
    the overlay followed by one that does not leaves the document exactly
    as it was before the two calls. *)
Theorem showLoading_show_then_hide (on off : JSVal) (d : Document) :
  getElementById "loadingOverlay" d = None ->
  loading_requested on = true -> loading_requested off = false ->
  showLoading off (showLoading on d) = d.
Proof.
  intros Hnone Hon Hoff.
  rewrite (showLoading_cases on d), Hnone, Hon.
  rewrite showLoading_cases, Hoff.
  pose proof (appended_overlay_found d) as Hfound.
  destruct (getElementById "loadingOverlay" (body_appendChild loading_overlay d))
    as [y | ]; [ | congruence].
  unfold getElementById in Hnone.
  unfold remove_found, body_appendChild. cbn [doc_head doc_body].
  destruct (find_in_forest "loadingOverlay" (doc_head d)); [discriminate | ].
  rewrite remove_forest_last by (exact Hnone || reflexivity).
  now destruct d.
Qed.

Lemma showLoading_show_then_hide_witness :
  showLoading (JBool false) (showLoading JUndefined plain_page) = plain_page.
Proof.
  apply (@showLoading_show_then_hide JUndefined (JBool false) plain_page);
    reflexivity.
Defined.

(** X18. Calls do not add up.  On a page with at most one element of id
    [loadingOverlay], a second call of the same kind (both asking for the
    overlay, or both not) changes nothing: there is never a second overlay,
    and one hiding call undoes any number of showing calls. *)
Theorem showLoading_repeat (first second : JSVal) (d : Document) :
  (overlay_count d <= 1)%nat ->
  loading_requested first = loading_requested second ->
  showLoading second (showLoading first d) = showLoading first d.
Proof.
  intros Hinv Hsame.
  pose proof (@showLoading_step first d Hinv) as Hcount.
  rewrite (showLoading_cases second), <- Hsame.
  pose proof (getElementById_count (showLoading first d)) as Hfind.
  destruct (getElementById "loadingOverlay" (showLoading first d)) as [y | ];
    destruct (loading_requested first); try reflexivity.
  - apply Hfind in Hcount. discriminate.
  - assert (H0 : overlay_count (showLoading first d) = 0%nat)
      by now apply Hfind.
    congruence.
Qed.

Lemma showLoading_repeat_witness :
  (overlay_count plain_page <= 1)%nat /\
  showLoading (JNum 1) (showLoading (JBool true) plain_page)
  = showLoading (JBool true) plain_page.
Proof.
  assert (H : (overlay_count plain_page <= 1)%nat) by (cbn; lia).
  split; [exact H | ].
  apply (@showLoading_repeat (JBool true) (JNum 1) plain_page H).
  unfold loading_requested, truthy.
  destruct (Req_dec_T 1 0) as [E | _]; [exfalso; lra | reflexivity].
Defined.

(* ------------------------------------------------------------------ *)
(** ** [createCustomMarker] and the [API] wrappers *)
(* ------------------------------------------------------------------ *)

Section MarkerLabel.

Lemma marker_label_missing (station : JSVal) (e : JSError) :
  get_prop station "name" = Thrown e -> marker_label station = Thrown TypeError.
Proof.
  unfold marker_label. destruct station; simpl; try discriminate; reflexivity.
Qed.

Lemma marker_label_falsy (station name : JSVal) :
  get_prop station "name" = Ret name -> truthy name = false ->
  marker_label station = Ret "D".
Proof. unfold marker_label. intros -> Hf. cbn [bindO]. now rewrite Hf. Qed.

Lemma marker_label_string (station : JSVal) (c : ascii) (rest : string) :
  get_prop station "name" = Ret (JStr (String c rest)) ->
  marker_label station = Ret (String c EmptyString).
Proof. unfold marker_label. intros ->. reflexivity. Qed.

Lemma marker_label_other (station name : JSVal) :
  get_prop station "name" = Ret name -> truthy name = true ->
  (forall s, name <> JStr s) ->
  marker_label station = Thrown TypeError.
Proof.
  unfold marker_label. intros -> Ht Hs. cbn [bindO]. rewrite Ht. cbn [bindO].
  destruct name; try reflexivity. now destruct (Hs s).
Qed.

End MarkerLabel.

(** X19. When [createCustomMarker] gives an icon and what it shows.  The
    call throws a TypeError when the station is [null] or [undefined], and
    when its name is truthy without being a string.  For a name that is
    falsy (missing, empty) or an ASCII string it returns the icon of class
    'custom-marker' whose HTML is the styled tag around a label of exactly
    one character, the first character of the name, or 'D' for a falsy
    name.  The icon is red and of side 45 when [isDepot] is truthy, blue
    and of side 35 when it is falsy or left out, and anchored at its
    centre. *)
Theorem createCustomMarker_label (station isDepot : JSVal) :
  (forall e, get_prop station "name" = Thrown e ->
     createCustomMarker station isDepot = Thrown TypeError) /\
  (forall name, get_prop station "name" = Ret name ->
     truthy name = true -> (forall s, name <> JStr s) ->
     createCustomMarker station isDepot = Thrown TypeError) /\
  (forall name, get_prop station "name" = Ret name ->
     truthy name = false \/
     (exists s, name = JStr s /\ string_forallb is_seven_bit s = true) ->
     let depot := depot_flag isDepot in
     let side := if depot then 45%R else 35%R in
     let label := match name with
                  | JStr (String c _) => String c EmptyString
                  | _ => "D"%string
                  end in
     createCustomMarker station isDepot
     = Ret (mkDivIcon "custom-marker"
              (marker_open depot (if depot then "#e74c3c" else "#3498db")
                           (if depot then 45 else 35)
               ++ label ++ "</div>")
              (side, side) ((side / 2)%R, (side / 2)%R)) /\
     String.length label = 1%nat /\
     depot_flag JUndefined = false).
Proof.
  split; [ | split].
  - intros e He. unfold createCustomMarker.
    now rewrite (@marker_label_missing station e He).
  - intros name Hname Ht Hs. unfold createCustomMarker.
    now rewrite (@marker_label_other station name Hname Ht Hs).
  - intros name Hname Hcase depot side label.
    assert (Hlabel : marker_label station = Ret label /\
                     String.length label = 1%nat).
    { subst label. destruct Hcase as [Hf | (s & -> & _)].
      - rewrite (marker_label_falsy _ Hname Hf).
        destruct name; try (split; reflexivity).
        destruct s; [split; reflexivity | discriminate].
      - destruct s as [ | c rest].
        + rewrite (marker_label_falsy _ Hname eq_refl). split; reflexivity.
        + rewrite (@marker_label_string station c rest Hname).
          split; reflexivity. }
    destruct Hlabel as [Hrun Hlen].
    split; [ | split; [exact Hlen | reflexivity]].
    unfold createCustomMarker. rewrite Hrun. cbn [bindO].
    subst side depot. unfold depot_flag, marker_html.
    destruct (truthy match isDepot with JUndefined => JBool false | _ => isDepot end);
      reflexivity.
Qed.

Lemma createCustomMarker_label_witness :
  createCustomMarker gebze_station (JBool true)
  = Ret (mkDivIcon "custom-marker"
           (marker_open true "#e74c3c" 45 ++ "G" ++ "</div>")
           (45%R, 45%R) ((45 / 2)%R, (45 / 2)%R)) /\
  createCustomMarker nameless_station JUndefined
  = Ret (mkDivIcon "custom-marker"
           (marker_open false "#3498db" 35 ++ "D" ++ "</div>")
           (35%R, 35%R) ((35 / 2)%R, (35 / 2)%R)) /\
  createCustomMarker numbered_station JUndefined = Thrown TypeError /\
  createCustomMarker JNull JUndefined = Thrown TypeError.
Proof.
  split; [ | split; [ | split]].
  - exact (proj1 (proj2 (proj2 (createCustomMarker_label gebze_station (JBool true)))
                   (JStr "Gebze") eq_refl
                   (or_intror (ex_intro _ "Gebze"%string (conj eq_refl eq_refl))))).
  - exact (proj1 (proj2 (proj2 (createCustomMarker_label nameless_station JUndefined))
                   JNull eq_refl (or_introl eq_refl))).
  - apply (proj1 (proj2 (createCustomMarker_label numbered_station JUndefined))
             (JNum 8) eq_refl).
    + unfold truthy. destruct (Req_dec_T 8 0) as [E | _]; [exfalso; lra | reflexivity].
    + discriminate.
  - apply (proj1 (createCustomMarker_label JNull JUndefined) TypeError eq_refl).
Defined.

(** X20. A generated tracking number can be looked up as it is: when the
    clock is not before the epoch, [API.trackCargo] on the number that
    [generateTrackingNumber] returned asks for '/api/cargos/track/' followed
    by digits and upper-case letters only, returns the parsed body when the
    server answers with JSON, and otherwise throws to its caller (the
    wrapper catches nothing); it changes nothing in the page. *)
Theorem API_trackCargo_generated (w : World) :
  (0 <= clock w)%Z ->
  exists no w1,
    generateTrackingNumber w = (Ret no, w1) /\
    string_forallb is_upper_base36 no = true /\
    API_trackCargo no w1
    = (match network w ("/api/cargos/track/" ++ no)%string with
       | FetchRejects => Thrown NetworkError
       | BodyNotJson => Thrown SyntaxError
       | BodyJson data => Ret data
       end, w1).
Proof.
  intros Hnow.
  exists ("KOC" ++ js_slice_last 6 (Z_toString (clock w))
          ++ random_part (rand_seq w (rand_pos w)))%string.
  exists (mkWorld (console w) (network w) (leaflet_layers w) (clock w)
                  (rand_seq w) (S (rand_pos w))).
  split; [reflexivity | ]. split.
  - pose proof (random_fragment (rand_seq w (rand_pos w))) as [_ Hfu].
    cbv zeta in Hfu. unfold random_part.
    assert (Hts : string_forallb is_upper_base36
                    (js_slice_last 6 (Z_toString (clock w))) = true).
    { apply (@string_forallb_weaken is_decimal_digit is_upper_base36 _
               decimal_is_base36).
      apply substring_forallb. now apply Z_toString_decimal. }
    now rewrite !string_forallb_app, Hfu, Hts.
  - unfold API_trackCargo, API_get, API_BASE, fetch_json. cbn [network append].
    match goal with
    | |- context [match ?n with _ => _ end] => destruct n; reflexivity
    end.
Qed.

Lemma API_trackCargo_generated_witness :
  (0 <= clock sample_world)%Z /\
  exists no w1,
    generateTrackingNumber sample_world = (Ret no, w1) /\
    string_forallb is_upper_base36 no = true /\
    API_trackCargo no w1
    = (match network sample_world ("/api/cargos/track/" ++ no)%string with
       | FetchRejects => Thrown NetworkError
       | BodyNotJson => Thrown SyntaxError
       | BodyJson data => Ret data
       end, w1).
Proof.
  assert (H : (0 <= clock sample_world)%Z) by (cbn; lia).
  split; [exact H | ].
  exact (@API_trackCargo_generated sample_world H).
Defined.
